(** * Verification model of the watermark_zero embedding core

    Shallow embedding of the Go package [watermark] (watermark.go,
    options.go), of [internal/dwt] (block map, Haar transform,
    [Wavelets]), [internal/yuv], [internal/kmeans], [internal/bitconv],
    [strmark] and of the function-level engine of the internal watermark
    package.

    Modelling conventions.
    - Go [int] is [Z]; [/] and [%] on ints are [Z.quot] and [Z.rem] and
      panic on a zero divisor.
    - [float32] and [float64] values of the pipeline are exact rationals
      [Q]; rounding is not modelled.  The one place where IEEE special
      values matter (averages of empty accumulators, 0/0 = NaN) uses the
      small type [f64] below, which has NaN and the infinities.
    - Slices are lists; reading or writing out of range, slicing out of
      range and integer division by zero are Go run-time panics, modelled
      by the [Panic] outcome.
    - The three channel goroutines are run one after the other: they
      share nothing but the extract accumulator, whose additions commute
      in exact arithmetic, and a panic in any of them ends the program.
    - The DCT (cosines) and the gonum SVD are not modelled: they are
      the parameters [dct_exec] and [svd_exec] of the engine. *)

From Stdlib Require Import ZArith QArith Qround Qabs Lqa List Bool Lia Permutation.
Import ListNotations.

Open Scope Z_scope.

(** ** Go run-time: results, errors and panics *)

Inductive panic_kind :=
| DivideByZero
| IndexOutOfRange
| SliceOutOfRange
| MakeLenOutOfRange
| NilDereference.

Inductive go_error :=
| ErrTooSmallImage (total_blocks mark_len : Z).

Inductive outcome (A : Type) :=
| Ok (a : A)
| Err (e : go_error)
| Panic (p : panic_kind).
Arguments Ok {A} a.
Arguments Err {A} e.
Arguments Panic {A} p.

Definition bind {A B} (m : outcome A) (f : A -> outcome B) : outcome B :=
  match m with
  | Ok a => f a
  | Err e => Err e
  | Panic p => Panic p
  end.

Notation "x <- m ;; f" := (bind m (fun x => f))
  (at level 61, m at next level, right associativity).
Notation "' p <- m ;; f" := (bind m (fun x => match x with p => f end))
  (at level 61, p pattern, m at next level, right associativity).

(** A result that is not a returned [error]: a value or a panic. *)
Definition not_err {A} (m : outcome A) : Prop :=
  match m with Err _ => False | _ => True end.

(** Applying a function to a result. *)
Definition omap {A B} (f : A -> B) (m : outcome A) : outcome B :=
  x <- m ;; Ok (f x).

(** Integer division and remainder of Go: truncated, panicking on 0. *)
Definition go_div (a b : Z) : outcome Z :=
  if b =? 0 then Panic DivideByZero else Ok (Z.quot a b).
Definition go_mod (a b : Z) : outcome Z :=
  if b =? 0 then Panic DivideByZero else Ok (Z.rem a b).

(** [make([]T, n)] *)
Definition go_make {A} (n : Z) (v : A) : outcome (list A) :=
  if n <? 0 then Panic MakeLenOutOfRange else Ok (repeat v (Z.to_nat n)).

(** [s[i]] *)
Definition go_index {A} (l : list A) (i : Z) : outcome A :=
  if (0 <=? i) && (i <? Z.of_nat (length l)) then
    match nth_error l (Z.to_nat i) with
    | Some v => Ok v
    | None => Panic IndexOutOfRange
    end
  else Panic IndexOutOfRange.

Fixpoint set_nth {A} (l : list A) (n : nat) (v : A) : list A :=
  match l, n with
  | [], _ => []
  | _ :: t, O => v :: t
  | h :: t, S n' => h :: set_nth t n' v
  end.

(** [s[i] = v] *)
Definition go_set {A} (l : list A) (i : Z) (v : A) : outcome (list A) :=
  if (0 <=? i) && (i <? Z.of_nat (length l)) then Ok (set_nth l (Z.to_nat i) v)
  else Panic IndexOutOfRange.

(** [s[lo:hi]] (the capacity bound of the three-index form is [hi]). *)
Definition go_slice {A} (l : list A) (lo hi : Z) : outcome (list A) :=
  if (0 <=? lo) && (lo <=? hi) && (hi <=? Z.of_nat (length l)) then
    Ok (firstn (Z.to_nat (hi - lo)) (skipn (Z.to_nat lo) l))
  else Panic SliceOutOfRange.

(** Writing [blk] through the sub-slice of [l] that starts at [lo]: the
    in-place effect of a closure that owns a view [l[lo:lo+len blk]]. *)
Definition write_through {A} (l : list A) (lo : Z) (blk : list A) : outcome (list A) :=
  if (0 <=? lo) && (lo + Z.of_nat (length blk) <=? Z.of_nat (length l)) then
    Ok (firstn (Z.to_nat lo) l ++ blk ++ skipn (Z.to_nat lo + length blk) l)
  else Panic IndexOutOfRange.

(** Loops.  [for i := start; i < stop; i += step { body }] threading a
    state; [fuel] only bounds the recursion. *)
Fixpoint loop_from {S} (fuel : nat) (i stop step : Z)
    (body : Z -> S -> outcome S) (s : S) : outcome S :=
  match fuel with
  | O => Ok s
  | Datatypes.S f =>
      if i <? stop then
        s' <- body i s ;; loop_from f (i + step) stop step body s'
      else Ok s
  end.

Definition go_for {S} (start stop step : Z) (body : Z -> S -> outcome S) (s : S)
  : outcome S :=
  loop_from (Z.to_nat (stop - start)) start stop step body s.

(** A loop whose body may [return] from the enclosing function. *)
Inductive flow (S : Type) := Continue (s : S) | Return (s : S).
Arguments Continue {S} s.
Arguments Return {S} s.

Fixpoint loop_ret {S} (fuel : nat) (i stop : Z)
    (body : Z -> S -> outcome (flow S)) (s : S) : outcome (flow S) :=
  match fuel with
  | O => Ok (Continue s)
  | Datatypes.S f =>
      if i <? stop then
        r <- body i s ;;
        match r with
        | Continue s' => loop_ret f (i + 1) stop body s'
        | Return s' => Ok (Return s')
        end
      else Ok (Continue s)
  end.

(** [for at := range n { body }] *)
Definition go_range_ret {S} (n : Z) (body : Z -> S -> outcome (flow S)) (s : S)
  : outcome (flow S) :=
  loop_ret (Z.to_nat n) 0 n body s.

(** ** internal/dwt: BlockMap *)

Module Dwt.

Record BlockMap := {
  width : Z; height : Z;
  blockWidth : Z; blockHeight : Z;
  allocWidth : Z; allocHeight : Z;
  marginWidth : Z;
  blockArea : Z;
  totalAllocArea : Z;
  blockRowArea : Z
}.

(** [NewBlockMap]; its callers pass [bw, bh >= 2]. *)
Definition NewBlockMap (w h bw bh : Z) : BlockMap :=
  let countBlockX := Z.quot w bw in
  let countBlockY := Z.quot h bh in
  let aw := countBlockX * bw in
  let ah := countBlockY * bh in
  {| width := w; height := h; blockWidth := bw; blockHeight := bh;
     allocWidth := aw; allocHeight := ah;
     marginWidth := w - aw;
     blockArea := bw * bh;
     totalAllocArea := aw * ah;
     blockRowArea := aw * bh |}.

(** [BlockMap.get]; [GetMap] only calls it for [i < width*height], so
    [width <> 0] whenever it runs. *)
Definition get (m : BlockMap) (i : Z) : Z :=
  let x := Z.rem i (width m) in
  let y := Z.quot i (width m) in
  if allocHeight m <=? y then
    (* bottom margin *)
    i
  else
    let mx := x - allocWidth m in
    if 0 <=? mx then
      (* left margin *)
      totalAllocArea m + y * marginWidth m + mx
    else
      (* in block *)
      let brow := Z.quot y (blockHeight m) in
      let bcol := Z.quot x (blockWidth m) in
      let start := brow * blockRowArea m + bcol * blockArea m in
      let bx := Z.rem x (blockWidth m) in
      let by_ := Z.rem y (blockHeight m) in
      start + by_ * blockWidth m + bx.

(** [GetMap]: [result[i] = m.get(i)] for [i] in [0, width*height). *)
Definition GetMap (m : BlockMap) : list Z :=
  map (fun k => get m (Z.of_nat k)) (seq 0 (Z.to_nat (width m * height m))).

End Dwt.

(** ** watermark.go: the quantisation rules installed by the options *)

(** Go [int(f)] of a float: truncation toward zero. *)
Definition go_int (f : Q) : Z :=
  if Qle_bool 0 f then Qfloor f else (- Qfloor (- f))%Z.

(** The closures stored in [Watermark.embed] and [Watermark.extract],
    one constructor per closure literal of the source. *)
Inductive embed_fn :=
| EmbedD1 (d1 : Z)          (* setEmbedD1 *)
| EmbedD1D2 (d1 d2 : Z).    (* setEmbedD1D2 *)

Inductive extract_fn :=
| ExtractD1 (d1 : Z)        (* setExtractD1 *)
| ExtractD1D2 (d1 d2 : Z).  (* setExtractD1D2 *)

(** [w.embed(s0, s1, bit)] *)
Definition run_embed (f : embed_fn) (s0 s1 bit : Q) : outcome (Q * Q) :=
  match f with
  | EmbedD1 d1 =>
      q0 <- go_div (go_int s0) d1 ;;
      let r0 := ((inject_Z q0 + (1 # 4) + (1 # 2) * (1 # 2) * bit) * inject_Z d1)%Q in
      let r1 := s1 in
      Ok (r0, r1)
  | EmbedD1D2 d1 d2 =>
      q0 <- go_div (go_int s0) d1 ;;
      let r0 := ((inject_Z q0 + (1 # 4) + (1 # 2) * (1 # 2) * bit) * inject_Z d1)%Q in
      q1 <- go_div (go_int s1) d2 ;;
      let r1 := ((inject_Z q1 + (1 # 4) + (1 # 2) * (1 # 2) * bit) * inject_Z d2)%Q in
      Ok (r0, r1)
  end.

(** [w.extract(s0, s1)] *)
Definition run_extract (f : extract_fn) (s0 s1 : Q) : outcome Q :=
  match f with
  | ExtractD1 d1 =>
      r0 <- go_mod (go_int s0) d1 ;;
      if Z.quot d1 2 <? r0 then Ok 1%Q else Ok 0%Q
  | ExtractD1D2 d1 d2 =>
      r0 <- go_mod (go_int s0) d1 ;;
      let v : Q := if Z.quot d1 2 <? r0 then 1%Q else 0%Q in
      r1 <- go_mod (go_int s1) d2 ;;
      if Z.quot d2 2 <? r1 then Ok ((v * 3 + 1) / 4)%Q else Ok ((v * 3) / 4)%Q
  end.

(** ** watermark.go / options.go: the engine and its options *)

(** [Watermark]; the [*dct.DCT] and [*svd.SVD] pointers are represented
    by the block shape they were built for ([None] is a nil pointer). *)
Record Watermark := mkWatermark {
  blockShape : Z * Z;
  embed : option embed_fn;
  extract : option extract_fn;
  dct : option (Z * Z);
  svd : option (Z * Z)
}.

Definition zero_watermark : Watermark := mkWatermark (0, 0) None None None None.

Definition set_embed (w : Watermark) (f : embed_fn) : Watermark :=
  mkWatermark (blockShape w) (Some f) (extract w) (dct w) (svd w).
Definition set_extract (w : Watermark) (f : extract_fn) : Watermark :=
  mkWatermark (blockShape w) (embed w) (Some f) (dct w) (svd w).
Definition set_shape (w : Watermark) (bw bh : Z) : Watermark :=
  mkWatermark (bw, bh) (embed w) (extract w) (Some (bw, bh)) (Some (bw, bh)).

Definition setEmbedD1 (w : Watermark) (d1 : Z) : outcome Watermark :=
  Ok (set_embed w (EmbedD1 d1)).
Definition setEmbedD1D2 (w : Watermark) (d1 d2 : Z) : outcome Watermark :=
  Ok (set_embed w (EmbedD1D2 d1 d2)).
Definition setExtractD1 (w : Watermark) (d1 : Z) : outcome Watermark :=
  Ok (set_extract w (ExtractD1 d1)).
Definition setExtractD1D2 (w : Watermark) (d1 d2 : Z) : outcome Watermark :=
  Ok (set_extract w (ExtractD1D2 d1 d2)).

(** [type Option func(w *Watermark) error] *)
Definition Option := Watermark -> outcome Watermark.

(** [WithBlockShape(width, height)].  The DCT and the SVD are recorded by
    the block shape they are built for; the allocations of [dct.New]
    ([w*w], [h*h] and [(w*h)*(w*h)] floats), which fail for very large
    shapes, and the wrap-around of [width + 1] at the largest [int] are
    not modelled. *)
Definition WithBlockShape (width height : Z) : Option :=
  let width := if negb (Z.rem width 2 =? 0) then width + 1 else width in
  let height := if negb (Z.rem height 2 =? 0) then height + 1 else height in
  let width := if width <? 4 then 4 else width in
  let height := if height <? 4 then 4 else height in
  fun w => Ok (set_shape w (Z.quot width 2) (Z.quot height 2)).

Definition WithD1 (d1 : Z) : Option :=
  fun w => w1 <- setEmbedD1 w d1 ;; setExtractD1 w1 d1.

Definition WithD1D2 (d1 d2 : Z) : Option :=
  fun w => w1 <- setEmbedD1D2 w d1 d2 ;; setExtractD1D2 w1 d1 d2.

Definition init (w : Watermark) : outcome Watermark :=
  let defaultD1 := 36 in
  let defaultD2 := 20 in
  let defaultShape := (4, 4) in
  w1 <- (match embed w, extract w with
         | Some _, Some _ => Ok w
         | _, _ => w' <- setEmbedD1D2 w defaultD1 defaultD2 ;;
                   setExtractD1D2 w' defaultD1 defaultD2
         end) ;;
  match dct w1, svd w1 with
  | Some _, Some _ => Ok w1
  | _, _ => Ok (set_shape w1 (fst defaultShape) (snd defaultShape))
  end.

(** [New(opts...)] *)
Definition New (opts : list Option) : outcome Watermark :=
  w <- fold_left (fun acc (opt : Option) => w <- acc ;; opt w) opts (Ok zero_watermark) ;;
  init w.

(** ** internal watermark package (function-level engine): strength
    selection of [Embed] and [Extract], where [d2 < 1] picks the
    one-parameter closures. *)
Definition embed_fn_of (d1 d2 : Z) : embed_fn :=
  if d2 <? 1 then EmbedD1 d1 else EmbedD1D2 d1 d2.
Definition extract_fn_of (d1 d2 : Z) : extract_fn :=
  if d2 <? 1 then ExtractD1 d1 else ExtractD1D2 d1 d2.

(** ** float64 with its special values (for internal/kmeans)

    Finite values are exact rationals; the infinities and NaN follow
    IEEE 754 (NaN compares false with everything, 0/0 = NaN,
    x/0 = +-Inf for x <> 0).  Signed zeros are not distinguished. *)
Module F64.

Inductive f64 :=
| Fin (q : Q)
| Inf (negative : bool)
| NaN.

Definition fneg (x : f64) : f64 :=
  match x with
  | Fin q => Fin (- q)
  | Inf n => Inf (negb n)
  | NaN => NaN
  end.

Definition fadd (x y : f64) : f64 :=
  match x, y with
  | NaN, _ | _, NaN => NaN
  | Inf a, Inf b => if Bool.eqb a b then Inf a else NaN
  | Inf a, Fin _ | Fin _, Inf a => Inf a
  | Fin p, Fin q => Fin (p + q)
  end.

Definition fsub (x y : f64) : f64 := fadd x (fneg y).

Definition fdiv (x y : f64) : f64 :=
  match x, y with
  | NaN, _ | _, NaN => NaN
  | Inf _, Inf _ => NaN
  | Fin _, Inf _ => Fin 0
  | Inf a, Fin q => Inf (xorb a (Qle_bool q 0 && negb (Qeq_bool q 0)))
  | Fin p, Fin q =>
      if Qeq_bool q 0 then
        (if Qeq_bool p 0 then NaN else Inf (Qle_bool p 0))
      else Fin (p / q)
  end.

Definition fabs (x : f64) : f64 :=
  match x with
  | Fin q => Fin (Qabs q)
  | Inf _ => Inf false
  | NaN => NaN
  end.

(** [x < y] *)
Definition flt (x y : f64) : bool :=
  match x, y with
  | NaN, _ | _, NaN => false
  | Fin p, Fin q => negb (Qle_bool q p)
  | Inf true, Inf b => negb b
  | Inf true, Fin _ => true
  | Inf false, _ => false
  | Fin _, Inf b => negb b
  end.

(** [x <= y] *)
Definition fle (x y : f64) : bool :=
  match x, y with
  | NaN, _ | _, NaN => false
  | _, _ => negb (flt y x)
  end.

Definition of_Z (z : Z) : f64 := Fin (inject_Z z).

End F64.
Import F64.

(** ** internal/kmeans *)
Module Kmeans.

(** [AverageStore] (the mutex only serialises [Add]). *)
Record AverageStore := mkStore { sum : f64; count : Z }.

Definition empty_store : AverageStore := mkStore (Fin 0) 0.

Definition Add (s : AverageStore) (value : f64) : AverageStore :=
  mkStore (fadd (sum s) value) (count s + 1).

Definition Average (s : AverageStore) : f64 := fdiv (sum s) (of_Z (count s)).

(** The min/max scan that initialises [center]. *)
Definition initial_center (averages : list f64) (a0 : f64) : f64 * f64 :=
  fold_left (fun '(mn, mx) v =>
               let mn := if flt v mn then v else mn in
               let mx := if flt mx v then v else mx in
               (mn, mx))
            averages (a0, a0).

(** One pass of [for i, avr := range averages]: the class vector and the
    two stores. *)
Fixpoint classify (threshold : f64) (averages : list f64)
    (higts lows : AverageStore) : list bool * AverageStore * AverageStore :=
  match averages with
  | [] => ([], higts, lows)
  | avr :: rest =>
      if fle threshold avr then
        let '(bs, h, l) := classify threshold rest (Add higts avr) lows in
        (true :: bs, h, l)
      else
        let '(bs, h, l) := classify threshold rest higts (Add lows avr) in
        (false :: bs, h, l)
  end.

Definition etol : f64 := Fin (1 # 1000000).

(** [for range 300 { ... }] with its [break]; [fuel] is the number of
    iterations left. *)
Fixpoint kmeans_loop (fuel : nat) (center : f64 * f64) (averages : list f64)
    (isClass01 : list bool) : list bool :=
  match fuel with
  | O => isClass01
  | Datatypes.S f =>
      let threshold := fdiv (fadd (fst center) (snd center)) (Fin 2) in
      let '(isClass01', higts, lows) :=
        classify threshold averages empty_store empty_store in
      let center' := (Average higts, Average lows) in
      if flt (fabs (fsub (fdiv (fadd (fst center') (snd center')) (Fin 2)) threshold)) etol
      then isClass01'
      else kmeans_loop f center' averages isClass01'
  end.

(** [OneDimKmeans(averages)]: [averages[0]] panics on an empty slice. *)
Definition OneDimKmeans (averages : list f64) : outcome (list bool) :=
  a0 <- go_index averages 0 ;;
  Ok (kmeans_loop 300 (initial_center averages a0) averages []).

(** The algorithm in the words of the spec (§4.6), for comparison with
    [OneDimKmeans]: centres [c0] (class 0) and [c1] (class 1), threshold
    [t = (c0 + c1)/2], class 1 iff [avg[i] >= t], each centre the mean of
    its members, stop when the midpoint moves by less than 1e-6, at most
    300 iterations. *)
Definition spec_mean (l : list f64) : f64 :=
  fdiv (fold_left fadd l (Fin 0)) (of_Z (Z.of_nat (length l))).

Fixpoint spec_kmeans_loop (fuel : nat) (c0 c1 : f64) (avg : list f64)
    (labels : list bool) : list bool :=
  match fuel with
  | O => labels
  | Datatypes.S f =>
      let t := fdiv (fadd c0 c1) (Fin 2) in
      let labels' := map (fun a => fle t a) avg in
      let c0' := spec_mean (filter (fun a => negb (fle t a)) avg) in
      let c1' := spec_mean (filter (fun a => fle t a) avg) in
      if flt (fabs (fsub (fdiv (fadd c0' c1') (Fin 2)) t)) (Fin (1 # 1000000))
      then labels'
      else spec_kmeans_loop f c0' c1' avg labels'
  end.

Definition is_min (m : f64) (l : list f64) : Prop :=
  In m l /\ Forall (fun v => fle m v = true) l.
Definition is_max (m : f64) (l : list f64) : Prop :=
  In m l /\ Forall (fun v => fle v m = true) l.

End Kmeans.

(** ** image, image/color: the parts of the standard library used *)
Module GoImage.

Record Rectangle := mkRect { MinX : Z; MinY : Z; MaxX : Z; MaxY : Z }.

Definition Dx (r : Rectangle) : Z := MaxX r - MinX r.
Definition Dy (r : Rectangle) : Z := MaxY r - MinY r.

(** [image.Point{x, y}.In(r)] *)
Definition point_in (x y : Z) (r : Rectangle) : bool :=
  (MinX r <=? x) && (x <? MaxX r) && (MinY r <=? y) && (y <? MaxY r).

(** The four values returned by [color.Color.RGBA()]. *)
Record Color := mkColor { cR : Z; cG : Z; cB : Z; cA : Z }.

(** [color.RGBA64] *)
Record RGBA64Color := mkRGBA64Color { R : Z; G : Z; B : Z; A : Z }.

Definition zero_RGBA64 : RGBA64Color := mkRGBA64Color 0 0 0 0.

(** An [image.Image]: its bounds and its [At] method. *)
Record Image := mkImage { Bounds : Rectangle; At : Z -> Z -> Color }.

(** [*image.RGBA64], its pixel buffer seen through [PixOffset] as a
    function of the point. *)
Record RGBA64 := mkRGBA64 { Rect : Rectangle; Pix : Z -> Z -> RGBA64Color }.

(** [image.NewRGBA64(r)]: a zeroed buffer; negative dimensions panic. *)
Definition NewRGBA64 (r : Rectangle) : outcome RGBA64 :=
  if (Dx r <? 0) || (Dy r <? 0) then Panic MakeLenOutOfRange
  else Ok (mkRGBA64 r (fun _ _ => zero_RGBA64)).

(** [p.SetRGBA64(x, y, c)]: a point outside [p.Rect] is ignored. *)
Definition SetRGBA64 (p : RGBA64) (x y : Z) (c : RGBA64Color) : RGBA64 :=
  if point_in x y (Rect p) then
    mkRGBA64 (Rect p) (fun x' y' => if (x' =? x) && (y' =? y) then c else Pix p x' y')
  else p.

(** [p.RGBA64At(x, y)] *)
Definition RGBA64At (p : RGBA64) (x y : Z) : RGBA64Color :=
  if point_in x y (Rect p) then Pix p x y else zero_RGBA64.

End GoImage.
Import GoImage.

(** A nil pointer or interface is dereferenced. *)
Definition deref {A} (o : option A) : outcome A :=
  match o with Some a => Ok a | None => Panic NilDereference end.

(** [for i := range n] over a state that may fail. *)
Definition go_range {S} (n : Z) (body : Z -> S -> outcome S) (s : S) : outcome S :=
  go_for 0 n 1 body s.

(** ** internal/yuv *)
Module Yuv.

Definition delta : Q := 1 # 2.
Definition yr : Q := 299 # 1000.
Definition yg : Q := 587 # 1000.
Definition yb : Q := 114 # 1000.
Definition uf : Q := 492 # 1000.
Definition vf : Q := 877 # 1000.

(** [ColorToYUVBatch(pixels, y, u, v, alpha)]; a nil entry of [pixels]
    is a nil interface whose [RGBA()] panics. *)
Definition ColorToYUVBatch (pixels : list (option Color)) (y u v : list Q) (alpha : list Z)
    : outcome (list Q * list Q * list Q * list Z) :=
  go_range (Z.of_nat (length pixels)) (fun i st =>
    let '(y, u, v, alpha) := st in
    pixel <- go_index pixels i ;;
    c <- deref pixel ;;
    let r := inject_Z (Z.shiftr (cR c) 8) in
    let g := inject_Z (Z.shiftr (cG c) 8) in
    let b := inject_Z (Z.shiftr (cB c) 8) in
    let yVal := (yr * r + yg * g + yb * b)%Q in
    y <- go_set y i yVal ;;
    u <- go_set u i (uf * (b - yVal) + delta)%Q ;;
    v <- go_set v i (vf * (r - yVal) + delta)%Q ;;
    alpha <- go_set alpha i (cA c mod 65536) ;;
    Ok (y, u, v, alpha)) (y, u, v, alpha).

Definition vr : Q := 1140 # 1000.
Definition ug : Q := - (395 # 1000).
Definition vg : Q := - (581 # 1000).
Definition ub : Q := 2032 # 1000.

(** [clip16(rgb)] *)
Definition clip16 (rgb : Q) : Z :=
  if negb (Qle_bool 0 rgb) then 0
  else if negb (Qle_bool rgb 255) then 65535
  else go_int (rgb * 257) mod 65536.

(** [YUVToRGBA64Batch(y, u, v, alpha, pixels)] *)
Definition YUVToRGBA64Batch (y u v : list Q) (alpha : list Z) (pixels : list RGBA64Color)
    : outcome (list RGBA64Color) :=
  go_range (Z.of_nat (length pixels)) (fun i pixels =>
    yVal <- go_index y i ;;
    ui <- go_index u i ;;
    vi <- go_index v i ;;
    let uDelta := (ui - delta)%Q in
    let vDelta := (vi - delta)%Q in
    let r := (yVal + vr * vDelta)%Q in
    let g := (yVal + ug * uDelta + vg * vDelta)%Q in
    let b := (yVal + ub * uDelta)%Q in
    a <- go_index alpha i ;;
    go_set pixels i (mkRGBA64Color (clip16 r) (clip16 g) (clip16 b) a)) pixels.

End Yuv.

(** ** internal/dwt: the Haar transform *)
Module Haar.

(** [math.Sqrt2] converted to [float32]. *)
Definition Sqrt2 : Q := 11863283 # 8388608.

Definition cacd (v1 v2 : Q) : Q * Q :=
  let avr := ((v1 + v2) / 2)%Q in
  ((avr * Sqrt2)%Q, ((v1 - avr) * Sqrt2)%Q).

Definition icacd (a d : Q) : Q * Q :=
  let avr := (a / Sqrt2)%Q in
  ((avr + d / Sqrt2)%Q, (avr - d / Sqrt2)%Q).

(** [HaarDWT(data, w, indexMap)] *)
Definition HaarDWT (data : list Q) (w : Z) (indexMap : list Z) : outcome (list (list Q)) :=
  h <- go_div (Z.of_nat (length data)) w ;;
  let hw := Z.quot (w + 1) 2 in
  let hh := Z.quot (h + 1) 2 in
  let l := hw * hh in
  cA <- go_make l 0%Q ;;
  cH <- go_make l 0%Q ;;
  cV <- go_make l 0%Q ;;
  cD <- go_make l 0%Q ;;
  indexMap <- (if Z.of_nat (length indexMap) =? l then Ok indexMap
               else m <- go_make l 0 ;; Ok (map Z.of_nat (seq 0 (length m)))) ;;
  res <- go_for 0 h 2 (fun y0 st =>
    let y1 := if y0 + 1 <? h then y0 + 1 else y0 in
    go_for 0 w 2 (fun x0 st =>
      let '(cA, cH, cV, cD) := st in
      let x1 := if x0 + 1 <? w then x0 + 1 else x0 in
      p00 <- go_index data (y0 * w + x0) ;;
      p10 <- go_index data (y1 * w + x0) ;;
      let '(a1, d1) := cacd p00 p10 in
      p01 <- go_index data (y0 * w + x1) ;;
      p11 <- go_index data (y1 * w + x1) ;;
      let '(a2, d2) := cacd p01 p11 in
      idx <- go_index indexMap (Z.quot y0 2 * hw + Z.quot x0 2) ;;
      let '(ca, cv) := cacd a1 a2 in
      cA <- go_set cA idx ca ;;
      cV <- go_set cV idx cv ;;
      let '(ch, cd) := cacd d1 d2 in
      cH <- go_set cH idx ch ;;
      cD <- go_set cD idx cd ;;
      Ok (cA, cH, cV, cD)) st) (cA, cH, cV, cD) ;;
  let '(cA, cH, cV, cD) := res in
  Ok [cA; cH; cV; cD].

(** [HaarIDWT(result, w, h, indexMap)] *)
Definition HaarIDWT (result : list (list Q)) (w h : Z) (indexMap : list Z) : outcome (list Q) :=
  data <- go_make (w * h) 0%Q ;;
  cA <- go_index result 0 ;;
  cH <- go_index result 1 ;;
  cV <- go_index result 2 ;;
  cD <- go_index result 3 ;;
  let hw := Z.quot (w + 1) 2 in
  go_for 0 h 2 (fun y0 data =>
    go_for 0 w 2 (fun x0 data =>
      idx <- go_index indexMap (Z.quot y0 2 * hw + Z.quot x0 2) ;;
      ca <- go_index cA idx ;;
      cv <- go_index cV idx ;;
      let '(a1, a2) := icacd ca cv in
      ch <- go_index cH idx ;;
      cd <- go_index cD idx ;;
      let '(d1, d2) := icacd ch cd in
      let '(v1, v2) := icacd a1 d1 in
      let '(v3, v4) := icacd a2 d2 in
      data <- go_set data (y0 * w + x0) v1 ;;
      data <- (if y0 + 1 <? h then go_set data ((y0 + 1) * w + x0) v2 else Ok data) ;;
      data <- (if x0 + 1 <? w then go_set data (y0 * w + (x0 + 1)) v3 else Ok data) ;;
      (if (y0 + 1 <? h) && (x0 + 1 <? w)
       then go_set data ((y0 + 1) * w + (x0 + 1)) v4 else Ok data)) data) data.

End Haar.

(** ** watermark.go: Embed and Extract

    [dct_exec bw bh data] is [w.dct.Exec(data)] of a DCT built for a
    [bw x bh] block: the coefficients, and the closure [idct] as the
    function from the (possibly updated) coefficients to the new content
    of the block view [data].  [svd_exec bw bh d] is [w.svd.Exec(d)]:
    [None] is the error "cannot factorize", otherwise the singular values
    and the closure [isvd] as the function from the (updated) singular
    values to the new content of [d]. *)
Module Engine.

Section Engine.
Variable dct_exec : Z -> Z -> list Q -> list Q * (list Q -> list Q).
Variable svd_exec : Z -> Z -> list Q -> option (list Q * (list Q -> list Q)).

(** The pixel-reading block shared by [Embed] and [Extract]: [alpha],
    the three colour planes, then [src.At(x, y)] for [0 <= x < width],
    [0 <= y < height], then [ColorToYUVBatch]. *)
Definition read_planes (src : Image) (width height area : Z)
    : outcome (list Q * list Q * list Q * list Z) :=
  alpha <- go_make area 0 ;;
  y <- go_make area 0%Q ;;
  u <- go_make area 0%Q ;;
  v <- go_make area 0%Q ;;
  pixels <- go_make area (@None Color) ;;
  st <- go_range height (fun yy st =>
          go_range width (fun x st =>
            let '(pixels, idx) := st in
            pixels <- go_set pixels idx (Some (At src x yy)) ;;
            Ok (pixels, idx + 1)) st) (pixels, 0) ;;
  Yuv.ColorToYUVBatch (fst st) y u v alpha.

(** [getBit(at)] *)
Definition getBit (mark : list bool) (at_ : Z) : outcome Q :=
  i <- go_mod at_ (Z.of_nat (length mark)) ;;
  b <- go_index mark i ;;
  Ok (if b then 1%Q else 0%Q).

(** One iteration of the embedding loop over the blocks of [cA]. *)
Definition embed_block (w : Watermark) (mark : list bool) (blockArea : Z)
    (at_ : Z) (cA : list Q) : outcome (flow (list Q)) :=
  data <- go_slice cA (at_ * blockArea) ((at_ + 1) * blockArea) ;;
  bit <- getBit mark at_ ;;
  ds <- deref (dct w) ;;
  let '(d, idct) := dct_exec (fst ds) (snd ds) data in
  ss <- deref (svd w) ;;
  match svd_exec (fst ss) (snd ss) d with
  | None => Ok (Return cA)
  | Some (s, isvd) =>
      f <- deref (embed w) ;;
      s0 <- go_index s 0 ;;
      s1 <- go_index s 1 ;;
      r <- run_embed f s0 s1 bit ;;
      s <- go_set s 0 (fst r) ;;
      s <- go_set s 1 (snd r) ;;
      cA <- write_through cA (at_ * blockArea) (idct (isvd s)) ;;
      Ok (Continue cA)
  end.

(** The goroutine of channel [yuv] in [Embed]: the new content of
    [colors[yuv]] ([nil], i.e. [[]], after an early [return]). *)
Definition embed_channel (w : Watermark) (mark : list bool) (width height : Z)
    (blockMap : list Z) (totalBlocks blockArea : Z) (plane : list Q) : outcome (list Q) :=
  wavelets <- Haar.HaarDWT plane width blockMap ;;
  cA <- go_index wavelets 0 ;;
  r <- go_range_ret totalBlocks (embed_block w mark blockArea) cA ;;
  match r with
  | Return _ => Ok []
  | Continue cA =>
      wavelets <- go_set wavelets 0 cA ;;
      Haar.HaarIDWT wavelets width height blockMap
  end.

(** The output block: [NewRGBA64(bounds)], then [SetRGBA64(x, y, ...)]
    for [0 <= x < width], [0 <= y < height]. *)
Definition write_pixels (dist : RGBA64) (width height : Z) (pixels : list RGBA64Color)
    : outcome RGBA64 :=
  st <- go_range height (fun y st =>
          go_range width (fun x st =>
            let '(dist, idx) := st in
            c <- go_index pixels idx ;;
            Ok (SetRGBA64 dist x y c, idx + 1)) st) (dist, 0) ;;
  Ok (fst st).

(** [w.Embed(ctx, src, mark)] *)
Definition Embed (w : Watermark) (src : Image) (mark : list bool) : outcome RGBA64 :=
  let bounds := Bounds src in
  let width := Dx bounds in
  let height := Dy bounds in
  let area := width * height in
  let waveWidth := Z.quot (width + 1) 2 in
  let waveHeight := Z.quot (height + 1) 2 in
  let bs0 := fst (blockShape w) in
  let bs1 := snd (blockShape w) in
  let blockArea := bs0 * bs1 in
  tw <- go_div waveWidth bs0 ;;
  th <- go_div waveHeight bs1 ;;
  let totalBlocks := tw * th in
  let markLen := Z.of_nat (length mark) in
  if totalBlocks <? markLen then Err (ErrTooSmallImage totalBlocks markLen) else
  planes <- read_planes src width height area ;;
  let '(y, u, v, alpha) := planes in
  let blockMap := Dwt.GetMap (Dwt.NewBlockMap waveWidth waveHeight bs0 bs1) in
  let worker := embed_channel w mark width height blockMap totalBlocks blockArea in
  y <- worker y ;;
  u <- worker u ;;
  v <- worker v ;;
  dist <- NewRGBA64 bounds ;;
  pixels <- go_make area zero_RGBA64 ;;
  pixels <- Yuv.YUVToRGBA64Batch y u v alpha pixels ;;
  write_pixels dist width height pixels.

(** One iteration of the extraction loop: the votes [dist]. *)
Definition extract_block (w : Watermark) (markLen blockArea : Z) (cA : list Q)
    (at_ : Z) (dist : list Kmeans.AverageStore) : outcome (flow (list Kmeans.AverageStore)) :=
  data <- go_slice cA (at_ * blockArea) ((at_ + 1) * blockArea) ;;
  ds <- deref (dct w) ;;
  let '(d, _) := dct_exec (fst ds) (snd ds) data in
  ss <- deref (svd w) ;;
  match svd_exec (fst ss) (snd ss) d with
  | None => Ok (Return dist)
  | Some (s, _) =>
      f <- deref (extract w) ;;
      s0 <- go_index s 0 ;;
      s1 <- go_index s 1 ;;
      v <- run_extract f s0 s1 ;;
      i <- go_mod at_ markLen ;;
      st <- go_index dist i ;;
      dist <- go_set dist i (Kmeans.Add st (Fin v)) ;;
      Ok (Continue dist)
  end.

Definition flow_state {S} (r : flow S) : S :=
  match r with Continue s => s | Return s => s end.

(** The goroutine of channel [yuv] in [Extract]. *)
Definition extract_channel (w : Watermark) (markLen width : Z) (blockMap : list Z)
    (totalBlocks blockArea : Z) (plane : list Q) (dist : list Kmeans.AverageStore)
    : outcome (list Kmeans.AverageStore) :=
  wavelets <- Haar.HaarDWT plane width blockMap ;;
  cA <- go_index wavelets 0 ;;
  r <- go_range_ret totalBlocks (extract_block w markLen blockArea cA) dist ;;
  Ok (flow_state r).

(** The votes of [Extract]: everything before the averages. *)
Definition extract_votes (w : Watermark) (src : Image) (markLen : Z)
    : outcome (list Kmeans.AverageStore) :=
  let bounds := Bounds src in
  let width := Dx bounds in
  let height := Dy bounds in
  let area := width * height in
  let waveWidth := Z.quot (width + 1) 2 in
  let waveHeight := Z.quot (height + 1) 2 in
  let bs0 := fst (blockShape w) in
  let bs1 := snd (blockShape w) in
  let blockArea := bs0 * bs1 in
  tw <- go_div waveWidth bs0 ;;
  th <- go_div waveHeight bs1 ;;
  let totalBlocks := tw * th in
  dist <- go_make markLen Kmeans.empty_store ;;
  if totalBlocks <? markLen then Err (ErrTooSmallImage totalBlocks markLen) else
  planes <- read_planes src width height area ;;
  let '(y, u, v, alpha) := planes in
  let blockMap := Dwt.GetMap (Dwt.NewBlockMap waveWidth waveHeight bs0 bs1) in
  let worker := extract_channel w markLen width blockMap totalBlocks blockArea in
  dist <- worker y dist ;;
  dist <- worker u dist ;;
  worker v dist.

(** [w.Extract(ctx, src, markLen)] *)
Definition Extract (w : Watermark) (src : Image) (markLen : Z) : outcome (list bool) :=
  dist <- extract_votes w src markLen ;;
  avrs <- go_make markLen (Fin 0) ;;
  avrs <- go_range (Z.of_nat (length dist)) (fun i avrs =>
            st <- go_index dist i ;;
            go_set avrs i (Kmeans.Average st)) avrs ;;
  Kmeans.OneDimKmeans avrs.

End Engine.
End Engine.

(** ** Concrete instances used to exercise the engine

    A DCT that is the identity on the block, an SVD whose "singular
    values" are the coefficients themselves, and an SVD that reports
    "cannot factorize" exactly when the leading coefficient is 0. *)
Module Instances.

Definition dct_id (bw bh : Z) (data : list Q) : list Q * (list Q -> list Q) :=
  (data, fun d => d).

Definition svd_id (bw bh : Z) (d : list Q) : option (list Q * (list Q -> list Q)) :=
  Some (d, fun s => s).

Definition svd_fails_on_zero (bw bh : Z) (d : list Q)
    : option (list Q * (list Q -> list Q)) :=
  match d with
  | q :: _ => if Qeq_bool q 0 then None else Some (d, fun s => s)
  | [] => None
  end.


Definition opaque (v : Z) : Color := mkColor v v v 65535.
Definition transparent : Color := mkColor 0 0 0 0.

(** A standard image: [At] outside the bounds is transparent. *)
Definition uniform (r : Rectangle) (v : Z) : Image :=
  mkImage r (fun x y => if point_in x y r then opaque v else transparent).

(** 8x4, black on the left half, white on the right half. *)
Definition half_black : Image :=
  mkImage (mkRect 0 0 8 4) (fun x y =>
    if point_in x y (mkRect 0 0 8 4) then (if x <? 4 then opaque 0 else opaque 65535)
    else transparent).

Definition engine44 : Watermark :=
  mkWatermark (2, 2) (Some (EmbedD1D2 36 20)) (Some (ExtractD1D2 36 20))
              (Some (2, 2)) (Some (2, 2)).

End Instances.

(** The spec's decoding indicator [1 if (floor(s) mod d) > d/2 else 0],
    with [d/2] a real number (the statement of §4.8.4, not code). *)
Definition spec_ind (d : Z) (s : Q) : Q :=
  if Qlt_le_dec (inject_Z d / 2) (inject_Z (Qfloor s mod d)) then 1%Q else 0%Q.

Module DwtInverse.
Import Dwt.

(** Explicit inverse of [Dwt.get] on [0, W*H) (used by the proofs only). *)
Definition unget (m : BlockMap) (d : Z) : Z :=
  let W := width m in
  let aw := allocWidth m in
  let ah := allocHeight m in
  let mw := marginWidth m in
  let bw := blockWidth m in
  let bh := blockHeight m in
  if ah * W <=? d then d
  else if aw * ah <=? d then
    let r := d - aw * ah in
    (r / mw) * W + (aw + r mod mw)
  else
    let brow := d / (aw * bh) in
    let r1 := d mod (aw * bh) in
    let bcol := r1 / (bw * bh) in
    let r2 := r1 mod (bw * bh) in
    (brow * bh + r2 / bw) * W + (bcol * bw + r2 mod bw).

End DwtInverse.

(** ** internal/bitconv *)
Module Bitconv.

(** [BytesToBools(b)]: a Go [byte] is a [Z] in [0, 256); the inner loop
    [for i := 7; i >= 0; i--] appends [((bb >> i) & 1) == 1]. *)
Definition BytesToBools (b : list Z) : list bool :=
  fold_left (fun bits bb =>
    fold_left (fun bits i => bits ++ [Z.land (Z.shiftr bb i) 1 =? 1])
              [7; 6; 5; 4; 3; 2; 1; 0] bits) b [].

(** [copy(dst, src)]: the first [min(len(dst), len(src))] elements of
    [dst] replaced by those of [src]. *)
Definition go_copy {A} (dst src : list A) : list A :=
  let n := Nat.min (length dst) (length src) in
  firstn n src ++ skipn n dst.

(** [BoolsToBytes(bits)] *)
Definition BoolsToBytes (bits : list bool) : outcome (list Z) :=
  let n := Z.of_nat (length bits) in
  let paddedLen := if negb (Z.rem n 8 =? 0) then n + (8 - Z.rem n 8) else n in
  paddedBits <- go_make paddedLen false ;;
  let paddedBits := go_copy paddedBits bits in
  out <- go_make (Z.quot paddedLen 8) 0 ;;
  go_range (Z.of_nat (length out)) (fun i out =>
    v <- go_range 8 (fun j v =>
           b <- go_index paddedBits (i * 8 + j) ;;
           Ok (if b then Z.lor v (Z.shiftl 1 (7 - j)) else v)) 0 ;;
    go_set out i v) out.


End Bitconv.

(** ** strmark: a string mark is the bits of the string's bytes *)
Module Strmark.

(** A Go [string] as its bytes; [[]byte(s)] and [string(b)] copy them. *)
Definition Encode (src : list Z) : list bool := Bitconv.BytesToBools src.
Definition Decode (mark : list bool) : outcome (list Z) := Bitconv.BoolsToBytes mark.

End Strmark.

(** ** internal/dwt: Wavelets *)
Module Wavelets.

Record Wavelets := { hw : Z; hh : Z; original : list (list Q) }.

(** [New(data, w)] *)
Definition New (data : list Q) (w : Z) : outcome Wavelets :=
  h <- go_div (Z.of_nat (length data)) w ;;
  original <- Haar.HaarDWT data w [] ;;
  Ok {| hw := Z.quot (w + 1) 2; hh := Z.quot (h + 1) 2; original := original |}.

(** [w.Get(blockW, blockH)] *)
Definition Get (w : Wavelets) (blockW blockH : Z) : outcome (list (list Q)) :=
  let l := hw w * hh w in
  r0 <- go_make l 0%Q ;;
  r1 <- go_make l 0%Q ;;
  r2 <- go_make l 0%Q ;;
  r3 <- go_make l 0%Q ;;
  let indexMap := Dwt.GetMap (Dwt.NewBlockMap (hw w) (hh w) blockW blockH) in
  go_range (Z.of_nat (length (original w))) (fun j result =>
    o <- go_index (original w) j ;;
    go_range (Z.of_nat (length o)) (fun i result =>
      v <- go_index o i ;;
      idx <- go_index indexMap i ;;
      row <- go_index result j ;;
      row <- go_set row idx v ;;
      go_set result j row) result) [r0; r1; r2; r3].

End Wavelets.

(** * Proofs *)

(** ** Block map *)

Module BlockMapFacts.
Import Dwt DwtInverse.

Lemma divmod_affine (a b c : Z) :
  0 <= c < b -> (a * b + c) / b = a /\ (a * b + c) mod b = c.
Proof.
  intros Hc. split.
  - rewrite Z.div_add_l by lia. rewrite Z.div_small by lia. lia.
  - rewrite Z.add_comm, Z.mod_add by lia. apply Z.mod_small; lia.
Qed.

Section Geometry.
Variables W H bw bh : Z.
Hypotheses (HW : 0 <= W) (HH : 0 <= H) (Hbw : 1 <= bw) (Hbh : 1 <= bh).

Let m := NewBlockMap W H bw bh.

Lemma alloc_bounds :
  0 <= allocWidth m <= W /\ 0 <= allocHeight m <= H /\
  W - allocWidth m < bw /\ H - allocHeight m < bh /\
  allocWidth m = (W / bw) * bw /\ allocHeight m = (H / bh) * bh /\
  marginWidth m = W - allocWidth m /\ blockArea m = bw * bh /\
  totalAllocArea m = allocWidth m * allocHeight m /\
  blockRowArea m = allocWidth m * bh /\
  width m = W /\ height m = H /\ blockWidth m = bw /\ blockHeight m = bh.
Proof.
  unfold m, NewBlockMap; cbn.
  rewrite !Z.quot_div_nonneg by lia.
  pose proof (Z.mul_div_le W bw ltac:(lia)).
  pose proof (Z.mul_div_le H bh ltac:(lia)).
  pose proof (Z.mod_pos_bound W bw ltac:(lia)).
  pose proof (Z.mod_pos_bound H bh ltac:(lia)).
  pose proof (Z.div_mod W bw ltac:(lia)).
  pose proof (Z.div_mod H bh ltac:(lia)).
  pose proof (Z.div_pos W bw ltac:(lia) ltac:(lia)).
  pose proof (Z.div_pos H bh ltac:(lia) ltac:(lia)).
  repeat split; nia.
Qed.

(** [get] in the spec's terms, for an index [i = y*W + x]. *)
Lemma get_xy (x y : Z) :
  0 <= x < W -> 0 <= y < H ->
  get m (y * W + x) =
  if allocHeight m <=? y then y * W + x
  else if allocWidth m <=? x then
    allocWidth m * allocHeight m + y * marginWidth m + (x - allocWidth m)
  else (y / bh) * (allocWidth m * bh) + (x / bw) * (bw * bh)
       + (y mod bh) * bw + x mod bw.
Proof.
  intros Hx Hy.
  pose proof alloc_bounds as
    (Ha1 & Ha2 & Ha3 & Ha4 & Ha5 & Ha6 & Hmw & Hba & Hta & Hbr & Hw & Hh & Hbw' & Hbh').
  unfold get. rewrite Hw, Hbw', Hbh', Hmw, Hba, Hta, Hbr.
  assert (Hyx : 0 <= y * W + x) by nia.
  rewrite Z.rem_mod_nonneg, Z.quot_div_nonneg by lia.
  rewrite Z.add_comm, Z.mod_add, Z.mod_small, Z.div_add, Z.div_small by lia.
  rewrite Z.add_0_l.
  destruct (allocHeight m <=? y) eqn:E1; [reflexivity|].
  destruct (0 <=? x - allocWidth m) eqn:E2;
    destruct (allocWidth m <=? x) eqn:E3; try lia.
  all: rewrite ?(Z.quot_div_nonneg y bh), ?(Z.quot_div_nonneg x bw),
      ?(Z.rem_mod_nonneg x bw), ?(Z.rem_mod_nonneg y bh) by lia.
  all: ring.
Qed.

Lemma get_range_unget (i : Z) :
  0 <= i < W * H -> 0 <= get m i < W * H /\ unget m (get m i) = i.
Proof.
  intros Hi.
  assert (HW0 : 0 < W) by nia.
  pose proof alloc_bounds as
    (Ha1 & Ha2 & Ha3 & Ha4 & Ha5 & Ha6 & Hmw & Hba & Hta & Hbr & Hw & Hh & Hbw' & Hbh').
  set (x := i mod W). set (y := i / W).
  assert (Hx : 0 <= x < W) by (apply Z.mod_pos_bound; lia).
  assert (Hy : 0 <= y < H).
  { split. apply Z.div_pos; lia. apply Z.div_lt_upper_bound; lia. }
  assert (Hiy : i = y * W + x) by (unfold x, y; pose proof (Z.div_mod i W); lia).
  rewrite Hiy, get_xy by lia.
  unfold unget. rewrite Hw, Hbw', Hbh', Hmw.
  destruct (allocHeight m <=? y) eqn:E1.
  - apply Z.leb_le in E1.
    assert (allocHeight m * W <= y * W + x) by nia.
    destruct (allocHeight m * W <=? y * W + x) eqn:E; [|lia].
    split; [lia | reflexivity].
  - apply Z.leb_gt in E1.
    destruct (allocWidth m <=? x) eqn:E2.
    + apply Z.leb_le in E2.
      set (mw := W - allocWidth m) in *.
      set (r := y * mw + (x - allocWidth m)).
      assert (Hr : 0 <= r < allocHeight m * mw) by (unfold r; nia).
      assert (Hlt : allocWidth m * allocHeight m + r < allocHeight m * W)
        by (unfold mw in Hr; nia).
      split; [unfold r in *; nia|].
      destruct (allocHeight m * W <=? allocWidth m * allocHeight m + y * mw + (x - allocWidth m)) eqn:E;
        [apply Z.leb_le in E; unfold r in Hlt; lia|].
      destruct (allocWidth m * allocHeight m <=? allocWidth m * allocHeight m + y * mw + (x - allocWidth m)) eqn:E';
        [|apply Z.leb_gt in E'; nia].
      replace (allocWidth m * allocHeight m + y * mw + (x - allocWidth m)
               - allocWidth m * allocHeight m) with (y * mw + (x - allocWidth m)) by ring.
      destruct (divmod_affine y mw (x - allocWidth m)) as [D M]; [lia|].
      rewrite D, M. ring.
    + apply Z.leb_gt in E2.
      set (brow := y / bh). set (by_ := y mod bh).
      set (bcol := x / bw). set (bx := x mod bw).
      assert (Hby : 0 <= by_ < bh) by (apply Z.mod_pos_bound; lia).
      assert (Hbx : 0 <= bx < bw) by (apply Z.mod_pos_bound; lia).
      assert (Hyd : y = brow * bh + by_) by (pose proof (Z.div_mod y bh); unfold brow, by_; lia).
      assert (Hxd : x = bcol * bw + bx) by (pose proof (Z.div_mod x bw); unfold bcol, bx; lia).
      assert (Hbcol : 0 <= bcol < W / bw).
      { split. apply Z.div_pos; lia.
        apply Z.div_lt_upper_bound; lia. }
      assert (Hbrow : 0 <= brow < H / bh).
      { split. apply Z.div_pos; lia.
        apply Z.div_lt_upper_bound; lia. }
      assert (Hin : 0 <= by_ * bw + bx < bw * bh) by nia.
      set (r1 := bcol * (bw * bh) + (by_ * bw + bx)).
      assert (Hr1 : 0 <= r1 < allocWidth m * bh) by (unfold r1; rewrite Ha5; nia).
      assert (Hd : brow * (allocWidth m * bh) + bcol * (bw * bh) + by_ * bw + bx
                   = brow * (allocWidth m * bh) + r1) by (unfold r1; ring).
      rewrite Hd.
      assert (Hlt : brow * (allocWidth m * bh) + r1 < allocWidth m * allocHeight m).
      { rewrite Ha6. rewrite Ha5 in Hr1 |- *. nia. }
      split; [nia|].
      destruct (allocHeight m * W <=? brow * (allocWidth m * bh) + r1) eqn:E;
        [apply Z.leb_le in E; nia|].
      destruct (allocWidth m * allocHeight m <=? brow * (allocWidth m * bh) + r1) eqn:E';
        [apply Z.leb_le in E'; lia|].
      destruct (divmod_affine brow (allocWidth m * bh) r1) as [D1 M1]; [lia|].
      rewrite D1, M1.
      destruct (divmod_affine bcol (bw * bh) (by_ * bw + bx)) as [D2 M2]; [lia|].
      unfold r1. rewrite D2, M2.
      destruct (divmod_affine by_ bw bx) as [D3 M3]; [lia|].
      rewrite D3, M3. lia.
Qed.

Lemma nth_error_GetMap (k : nat) :
  (k < Z.to_nat (W * H))%nat -> nth_error (GetMap m) k = Some (get m (Z.of_nat k)).
Proof.
  intros Hk. unfold GetMap.
  pose proof alloc_bounds as (_ & _ & _ & _ & _ & _ & _ & _ & _ & _ & Hw & Hh & _ & _).
  rewrite Hw, Hh, nth_error_map, nth_error_seq.
  destruct (Nat.ltb_spec k (Z.to_nat (W * H))); [reflexivity | lia].
Qed.

End Geometry.
End BlockMapFacts.

(** C5: for W, H >= 0 and bw, bh >= 1, [NewBlockMap(W, H, bw, bh).GetMap()]
    is a permutation of [0, W*H) (every destination appears exactly once);
    an in-block index [y*W + x] maps to
    [brow*(allocW*bh) + bcol*(bw*bh) + by*bw + bx], a bottom-margin index
    to itself and a right-margin index to
    [allocW*allocH + y*marginW + (x - allocW)]. *)
Theorem block_map_bijection (W H bw bh : Z) :
  0 <= W -> 0 <= H -> 1 <= bw -> 1 <= bh ->
  let m := Dwt.NewBlockMap W H bw bh in
  Permutation (Dwt.GetMap m) (map Z.of_nat (seq 0 (Z.to_nat (W * H)))) /\
  (forall x y, 0 <= x < Dwt.allocWidth m -> 0 <= y < Dwt.allocHeight m ->
     nth_error (Dwt.GetMap m) (Z.to_nat (y * W + x)) =
     Some ((y / bh) * (Dwt.allocWidth m * bh) + (x / bw) * (bw * bh)
           + (y mod bh) * bw + x mod bw)) /\
  (forall x y, 0 <= x < W -> Dwt.allocHeight m <= y < H ->
     nth_error (Dwt.GetMap m) (Z.to_nat (y * W + x)) = Some (y * W + x)) /\
  (forall x y, Dwt.allocWidth m <= x < W -> 0 <= y < Dwt.allocHeight m ->
     nth_error (Dwt.GetMap m) (Z.to_nat (y * W + x)) =
     Some (Dwt.allocWidth m * Dwt.allocHeight m + y * Dwt.marginWidth m
           + (x - Dwt.allocWidth m))).
Proof.
  intros HW HH Hbw Hbh m.
  pose proof (BlockMapFacts.alloc_bounds W H bw bh HW HH Hbw Hbh) as
    (Ha1 & Ha2 & _ & _ & _ & _ & Hmw & _ & _ & _ & _ & _ & _ & _).
  fold m in Ha1, Ha2, Hmw.
  assert (Hnth : forall x y, 0 <= x < W -> 0 <= y < H ->
            nth_error (Dwt.GetMap m) (Z.to_nat (y * W + x)) = Some (Dwt.get m (y * W + x))).
  { intros x y Hx Hy.
    rewrite (BlockMapFacts.nth_error_GetMap W H bw bh HW HH Hbw Hbh) by nia.
    rewrite Z2Nat.id by nia. reflexivity. }
  split; [|split; [|split]].
  - apply NoDup_Permutation_bis.
    + unfold Dwt.GetMap. apply NoDup_map_NoDup_ForallPairs; [|apply seq_NoDup].
      intros a b Ha Hb Hab.
      apply in_seq in Ha. apply in_seq in Hb.
      pose proof (BlockMapFacts.alloc_bounds W H bw bh HW HH Hbw Hbh) as
        (_ & _ & _ & _ & _ & _ & _ & _ & _ & _ & Hw & Hh & _ & _).
      fold m in Hw, Hh. rewrite Hw, Hh in Ha, Hb.
      destruct (BlockMapFacts.get_range_unget W H bw bh HW HH Hbw Hbh (Z.of_nat a))
        as [_ Ua]; [lia|].
      destruct (BlockMapFacts.get_range_unget W H bw bh HW HH Hbw Hbh (Z.of_nat b))
        as [_ Ub]; [lia|].
      fold m in Ua, Ub. rewrite Hab in Ua. lia.
    + unfold Dwt.GetMap. rewrite !length_map, !length_seq.
      pose proof (BlockMapFacts.alloc_bounds W H bw bh HW HH Hbw Hbh) as
        (_ & _ & _ & _ & _ & _ & _ & _ & _ & _ & Hw & Hh & _ & _).
      fold m in Hw, Hh. rewrite Hw, Hh. lia.
    + intros d Hd. unfold Dwt.GetMap in Hd. apply in_map_iff in Hd.
      destruct Hd as [k [Hk Hin]]. apply in_seq in Hin.
      pose proof (BlockMapFacts.alloc_bounds W H bw bh HW HH Hbw Hbh) as
        (_ & _ & _ & _ & _ & _ & _ & _ & _ & _ & Hw & Hh & _ & _).
      fold m in Hw, Hh. rewrite Hw, Hh in Hin.
      destruct (BlockMapFacts.get_range_unget W H bw bh HW HH Hbw Hbh (Z.of_nat k))
        as [R _]; [lia|].
      fold m in R. rewrite Hk in R.
      apply in_map_iff. exists (Z.to_nat d). split; [lia|].
      apply in_seq. lia.
  - intros x y Hx Hy. rewrite Hnth by lia.
    rewrite (BlockMapFacts.get_xy W H bw bh HW HH Hbw Hbh) by lia. fold m.
    destruct (Dwt.allocHeight m <=? y) eqn:E1; [lia|].
    destruct (Dwt.allocWidth m <=? x) eqn:E2; [lia|]. reflexivity.
  - intros x y Hx Hy. rewrite Hnth by lia.
    rewrite (BlockMapFacts.get_xy W H bw bh HW HH Hbw Hbh) by lia. fold m.
    destruct (Dwt.allocHeight m <=? y) eqn:E1; [reflexivity|lia].
  - intros x y Hx Hy. rewrite Hnth by lia.
    rewrite (BlockMapFacts.get_xy W H bw bh HW HH Hbw Hbh) by lia. fold m.
    destruct (Dwt.allocHeight m <=? y) eqn:E1; [lia|].
    destruct (Dwt.allocWidth m <=? x) eqn:E2; [|lia]. rewrite Hmw. reflexivity.
Qed.

Lemma block_map_bijection_witness :
  (0 <= 5 /\ 0 <= 3 /\ 1 <= 2 /\ 1 <= 2) /\
  Permutation (Dwt.GetMap (Dwt.NewBlockMap 5 3 2 2)) (map Z.of_nat (seq 0 15)).
Proof.
  split; [lia|].
  exact (proj1 (block_map_bijection 5 3 2 2 ltac:(lia) ltac:(lia) ltac:(lia) ltac:(lia))).
Defined.

(** ** Quantisation rules *)

Module RuleFacts.

Lemma go_int_nonneg (s : Q) : (0 <= s)%Q -> go_int s = Qfloor s.
Proof.
  intros Hs. unfold go_int.
  destruct (Qle_bool 0 s) eqn:E; [reflexivity|].
  apply Qle_bool_iff in Hs. congruence.
Qed.

Lemma Qfloor_unique (x : Q) (k : Z) :
  (inject_Z k <= x)%Q -> (x < inject_Z (k + 1))%Q -> Qfloor x = k.
Proof.
  intros H1 H2.
  pose proof (Qfloor_resp_le _ _ H1) as L. rewrite Qfloor_Z in L.
  pose proof (Qfloor_le x) as F.
  assert (Hlt : (inject_Z (Qfloor x) < inject_Z (k + 1))%Q) by (eapply Qle_lt_trans; eauto).
  rewrite <- Zlt_Qlt in Hlt. lia.
Qed.

Lemma floor_nonneg (s : Q) : (0 <= s)%Q -> 0 <= Qfloor s.
Proof.
  intros Hs. pose proof (Qfloor_resp_le _ _ Hs) as L.
  change 0%Q with (inject_Z 0) in L. rewrite Qfloor_Z in L. exact L.
Qed.

(** [int(s)/d] is [floor(s/d)] for [s >= 0] and [d > 0]. *)
Lemma quot_int_floor (s : Q) (d : Z) :
  (0 <= s)%Q -> 0 < d -> Z.quot (go_int s) d = Qfloor (s / inject_Z d).
Proof.
  intros Hs Hd.
  rewrite go_int_nonneg by exact Hs.
  pose proof (floor_nonneg s Hs) as F0.
  rewrite Z.quot_div_nonneg by lia.
  set (f := Qfloor s). set (k := f / d).
  assert (Hkd : k * d <= f) by (unfold k; rewrite Z.mul_comm; apply Z.mul_div_le; lia).
  assert (Hfk : f < (k + 1) * d).
  { unfold k. pose proof (Z.mod_pos_bound f d Hd). pose proof (Z.div_mod f d). lia. }
  assert (Hd' : (0 < inject_Z d)%Q) by (change 0%Q with (inject_Z 0); rewrite <- Zlt_Qlt; lia).
  symmetry. apply Qfloor_unique.
  - apply Qle_shift_div_l; [exact Hd'|].
    rewrite <- inject_Z_mult.
    apply Qle_trans with (inject_Z f); [rewrite <- Zle_Qle; lia | apply Qfloor_le].
  - apply Qlt_shift_div_r; [exact Hd'|].
    rewrite <- inject_Z_mult.
    apply Qlt_le_trans with (inject_Z (f + 1)); [apply Qlt_floor|].
    rewrite <- Zle_Qle. lia.
Qed.

(** [a > d/2] on ints is [a > d/2] on reals for an integer [a]. *)
Lemma quot_half_lt (d r : Z) :
  0 <= d -> (Z.quot d 2 <? r) = true <-> (inject_Z d / 2 < inject_Z r)%Q.
Proof.
  intros Hd. rewrite Z.ltb_lt, Z.quot_div_nonneg by lia.
  split; intros H.
  - apply Qlt_shift_div_r; [reflexivity|].
    change 2%Q with (inject_Z 2). rewrite <- inject_Z_mult, <- Zlt_Qlt.
    pose proof (Z.div_mod d 2). pose proof (Z.mod_pos_bound d 2). lia.
  - assert (H2 : (inject_Z d < inject_Z r * 2)%Q).
    { unfold Qdiv in H. change (/ 2)%Q with (1 # 2)%Q in H. lra. }
    change 2%Q with (inject_Z 2) in H2. rewrite <- inject_Z_mult, <- Zlt_Qlt in H2.
    pose proof (Z.div_mod d 2). pose proof (Z.mod_pos_bound d 2). lia.
Qed.

Lemma mod_int_floor (s : Q) (d : Z) :
  (0 <= s)%Q -> 0 < d -> go_mod (go_int s) d = Ok (Qfloor s mod d).
Proof.
  intros Hs Hd. unfold go_mod.
  destruct (Z.eqb_spec d 0); [lia|].
  rewrite go_int_nonneg, Z.rem_mod_nonneg; [reflexivity| |lia|exact Hs].
  apply floor_nonneg, Hs.
Qed.

Lemma ind_code (s : Q) (d : Z) :
  (0 <= s)%Q -> 0 < d ->
  (if Z.quot d 2 <? Qfloor s mod d then 1%Q else 0%Q) = spec_ind d s.
Proof.
  intros Hs Hd. unfold spec_ind.
  destruct (Z.quot d 2 <? Qfloor s mod d) eqn:E;
    destruct (Qlt_le_dec (inject_Z d / 2) (inject_Z (Qfloor s mod d))) as [L|L];
    try reflexivity.
  - apply (quot_half_lt d) in E; [|lia]. exfalso. apply (Qlt_not_le _ _ E L).
  - apply (quot_half_lt d) in L; [|lia]. congruence.
Qed.

End RuleFacts.

(** C3: for s0, s1 >= 0, d1 > 0, d2 > 0 and any bit, the one-parameter rule
    gives [s0' = (floor(s0/d1) + 1/4 + bit/4) * d1] and leaves [s1]
    unchanged; the two-parameter rule gives the same [s0'] and
    [s1' = (floor(s1/d2) + 1/4 + bit/4) * d2]; and the code's
    [int(s0)/d1] is [floor(s0/d1)]. *)
Theorem embed_rule_quantizes (d1 d2 : Z) (s0 s1 bit : Q) :
  (0 <= s0)%Q -> (0 <= s1)%Q -> 0 < d1 -> 0 < d2 ->
  Z.quot (go_int s0) d1 = Qfloor (s0 / inject_Z d1) /\
  (exists r0, run_embed (EmbedD1 d1) s0 s1 bit = Ok (r0, s1) /\
     (r0 == (inject_Z (Qfloor (s0 / inject_Z d1)) + (1 # 4) + bit / 4) * inject_Z d1)%Q) /\
  (exists r0 r1, run_embed (EmbedD1D2 d1 d2) s0 s1 bit = Ok (r0, r1) /\
     (r0 == (inject_Z (Qfloor (s0 / inject_Z d1)) + (1 # 4) + bit / 4) * inject_Z d1)%Q /\
     (r1 == (inject_Z (Qfloor (s1 / inject_Z d2)) + (1 # 4) + bit / 4) * inject_Z d2)%Q).
Proof.
  intros H0 H1 Hd1 Hd2.
  pose proof (RuleFacts.quot_int_floor s0 d1 H0 Hd1) as E0.
  pose proof (RuleFacts.quot_int_floor s1 d2 H1 Hd2) as E1.
  assert (N1 : (d1 =? 0) = false) by (apply Z.eqb_neq; lia).
  assert (N2 : (d2 =? 0) = false) by (apply Z.eqb_neq; lia).
  split; [exact E0|split].
  - eexists. cbn [run_embed bind]. unfold go_div. rewrite N1. cbn [bind].
    split; [reflexivity|]. rewrite E0. field.
  - do 2 eexists. cbn [run_embed bind]. unfold go_div. rewrite N1, N2. cbn [bind].
    split; [reflexivity|]. rewrite E0, E1. split; field.
Qed.

(** C4: for s0, s1 >= 0 and d1, d2 > 0 the one-parameter decoder returns
    [1] if [(floor(s0) mod d1) > d1/2] and [0] otherwise; the
    two-parameter decoder returns [(3*v0 + v1)/4] with [v0], [v1] the
    indicators for [(s0, d1)] and [(s1, d2)], a value in
    [{0, 1/4, 3/4, 1}]. *)
Theorem extract_rule_decodes (d1 d2 : Z) (s0 s1 : Q) :
  (0 <= s0)%Q -> (0 <= s1)%Q -> 0 < d1 -> 0 < d2 ->
  run_extract (ExtractD1 d1) s0 s1 = Ok (spec_ind d1 s0) /\
  (exists v, run_extract (ExtractD1D2 d1 d2) s0 s1 = Ok v /\
     (v == (3 * spec_ind d1 s0 + spec_ind d2 s1) / 4)%Q /\
     (v == 0 \/ v == 1 # 4 \/ v == 3 # 4 \/ v == 1)%Q).
Proof.
  intros H0 H1 Hd1 Hd2. cbn [run_extract].
  rewrite (RuleFacts.mod_int_floor s0 d1 H0 Hd1),
          (RuleFacts.mod_int_floor s1 d2 H1 Hd2). cbn [bind].
  rewrite <- (RuleFacts.ind_code s0 d1 H0 Hd1), <- (RuleFacts.ind_code s1 d2 H1 Hd2).
  split.
  - destruct (Z.quot d1 2 <? Qfloor s0 mod d1); reflexivity.
  - destruct (Z.quot d1 2 <? Qfloor s0 mod d1), (Z.quot d2 2 <? Qfloor s1 mod d2);
      eexists; (split; [reflexivity|]); split; vm_compute;
      first [reflexivity | intuition discriminate | idtac].
    all: try (right; right; right; reflexivity).
    all: try (right; right; left; reflexivity).
    all: try (right; left; reflexivity).
    all: try (left; reflexivity).
Qed.

Lemma embed_rule_quantizes_witness :
  ((0 <= 100)%Q /\ (0 <= 45 # 2)%Q /\ 0 < 36 /\ 0 < 20) /\
  exists r0 r1, run_embed (EmbedD1D2 36 20) 100 (45 # 2) 1 = Ok (r0, r1) /\
    (r0 == (inject_Z (Qfloor (100 / inject_Z 36)) + (1 # 4) + 1 / 4) * inject_Z 36)%Q.
Proof.
  assert (H0 : (0 <= 100)%Q) by (unfold Qle; simpl; lia).
  assert (H1 : (0 <= 45 # 2)%Q) by (unfold Qle; simpl; lia).
  split; [repeat split; first [exact H0 | exact H1 | lia] |].
  destruct (embed_rule_quantizes 36 20 100 (45 # 2) 1 H0 H1 ltac:(lia) ltac:(lia))
    as [_ [_ [r0 [r1 [E [R0 _]]]]]].
  exists r0, r1. split; assumption.
Defined.

Lemma extract_rule_decodes_witness :
  ((0 <= 100)%Q /\ (0 <= 45 # 2)%Q /\ 0 < 36 /\ 0 < 20) /\
  run_extract (ExtractD1 36) 100 (45 # 2) = Ok (spec_ind 36 100).
Proof.
  assert (H0 : (0 <= 100)%Q) by (unfold Qle; simpl; lia).
  assert (H1 : (0 <= 45 # 2)%Q) by (unfold Qle; simpl; lia).
  split; [repeat split; first [exact H0 | exact H1 | lia] |].
  exact (proj1 (extract_rule_decodes 36 20 100 (45 # 2) H0 H1 ltac:(lia) ltac:(lia))).
Defined.

(** ** Strength options *)

(** C7 (as amended): [New] validates no strength: with [WithD1 d1] or
    [WithD1D2 d1 d2] it returns an engine (and no error) for every [d1]
    and [d2]; an engine built with [d1 = 0] panics with an integer
    division by zero as soon as its embed or extract rule runs.  In the
    function-level engine, [d2 < 1] selects the one-parameter rules,
    which return [s1] unchanged on embed and never read it on
    extract. *)
Theorem strength_options_unchecked (d1 d2 : Z) :
  New [WithD1 d1] =
    Ok (mkWatermark (4, 4) (Some (EmbedD1 d1)) (Some (ExtractD1 d1))
                    (Some (4, 4)) (Some (4, 4))) /\
  New [WithD1D2 d1 d2] =
    Ok (mkWatermark (4, 4) (Some (EmbedD1D2 d1 d2)) (Some (ExtractD1D2 d1 d2))
                    (Some (4, 4)) (Some (4, 4))) /\
  (forall s0 s1 bit,
     run_embed (EmbedD1 0) s0 s1 bit = Panic DivideByZero /\
     run_embed (EmbedD1D2 0 d2) s0 s1 bit = Panic DivideByZero /\
     run_extract (ExtractD1 0) s0 s1 = Panic DivideByZero /\
     run_extract (ExtractD1D2 0 d2) s0 s1 = Panic DivideByZero) /\
  (d2 < 1 ->
     embed_fn_of d1 d2 = EmbedD1 d1 /\ extract_fn_of d1 d2 = ExtractD1 d1 /\
     forall s0 s1 s1' bit,
       run_embed (EmbedD1 d1) s0 s1 bit =
         bind (run_embed (EmbedD1 d1) s0 s1' bit) (fun '(r0, _) => Ok (r0, s1)) /\
       run_extract (ExtractD1 d1) s0 s1 = run_extract (ExtractD1 d1) s0 s1').
Proof.
  split; [reflexivity|]. split; [reflexivity|]. split.
  - intros s0 s1 bit. cbn. repeat split.
  - intros Hd2. unfold embed_fn_of, extract_fn_of.
    replace (d2 <? 1) with true by (symmetry; apply Z.ltb_lt; exact Hd2).
    split; [reflexivity|]. split; [reflexivity|].
    intros s0 s1 s1' bit. cbn [run_embed run_extract].
    split; [|reflexivity].
    destruct (go_div (go_int s0) d1); reflexivity.
Qed.

Lemma strength_d1_zero_accepted :
  exists w, New [WithD1 0] = Ok w /\ embed w = Some (EmbedD1 0) /\
    run_embed (EmbedD1 0) 100 50 1 = Panic DivideByZero.
Proof.
  eexists. split; [reflexivity|]. split; reflexivity.
Qed.

(** ** One-dimensional k-means *)

Module KmeansFacts.
Import Kmeans.

Lemma fadd_comm (x y : f64) : fadd x y = fadd y x.
Proof.
  destruct x as [p|a|], y as [q|b|]; try reflexivity.
  - cbn. f_equal. destruct p as [pn pd], q as [qn qd]. unfold Qplus; cbn.
    f_equal; [apply Z.add_comm | apply Pos.mul_comm].
  - destruct a, b; reflexivity.
Qed.

Lemma fold_Add (l : list f64) (s : AverageStore) :
  fold_left Add l s = mkStore (fold_left fadd l (sum s)) (count s + Z.of_nat (length l)).
Proof.
  revert s. induction l as [|a l IH]; intros s; cbn [fold_left length].
  - destruct s; cbn. f_equal. lia.
  - rewrite IH. cbn. f_equal. lia.
Qed.

Lemma Average_fold (l : list f64) : Average (fold_left Add l empty_store) = spec_mean l.
Proof. rewrite fold_Add. reflexivity. Qed.

Lemma classify_eq (t : f64) (l : list f64) (h lo : AverageStore) :
  classify t l h lo =
    (map (fun a => fle t a) l,
     fold_left Add (filter (fun a => fle t a) l) h,
     fold_left Add (filter (fun a => negb (fle t a)) l) lo).
Proof.
  revert h lo. induction l as [|a l IH]; intros h lo; cbn; [reflexivity|].
  destruct (fle t a); cbn; rewrite IH; reflexivity.
Qed.

(** The code's loop is the spec's loop: the code stores the centres as
    (class 1, class 0), but only their sum is ever used. *)
Lemma loop_refines (fuel : nat) (avg : list f64) (a b c0 c1 : f64) (lab : list bool) :
  fadd a b = fadd c0 c1 ->
  kmeans_loop fuel (a, b) avg lab = spec_kmeans_loop fuel c0 c1 avg lab.
Proof.
  revert a b c0 c1 lab. induction fuel as [|f IH]; intros a b c0 c1 lab E; [reflexivity|].
  cbn [kmeans_loop spec_kmeans_loop fst snd]. rewrite E, classify_eq.
  rewrite !Average_fold.
  rewrite (fadd_comm (spec_mean (filter (fun a0 => fle _ a0) avg))).
  destruct (flt _ _); [reflexivity|].
  apply IH. apply fadd_comm.
Qed.

Lemma spec_loop_length_inv (fuel : nat) (avg : list f64) (c0 c1 : f64) (lab : list bool) :
  length lab = length avg -> length (spec_kmeans_loop fuel c0 c1 avg lab) = length avg.
Proof.
  revert c0 c1 lab. induction fuel as [|f IH]; intros c0 c1 lab E; [exact E|].
  cbn [spec_kmeans_loop]. destruct (flt _ _); [apply length_map|].
  apply IH. apply length_map.
Qed.

Lemma spec_loop_length (fuel : nat) (avg : list f64) (c0 c1 : f64) (lab : list bool) :
  length (spec_kmeans_loop (Datatypes.S fuel) c0 c1 avg lab) = length avg.
Proof.
  cbn [spec_kmeans_loop]. destruct (flt _ _); [apply length_map|].
  apply spec_loop_length_inv. apply length_map.
Qed.

(** The min/max scan on finite values. *)
Definition qmin_step (m q : Q) : Q := if negb (Qle_bool m q) then q else m.
Definition qmax_step (m q : Q) : Q := if negb (Qle_bool q m) then q else m.

Lemma scan_fin (qs : list Q) (m M : Q) :
  fold_left (fun '(mn, mx) v =>
               let mn := if flt v mn then v else mn in
               let mx := if flt mx v then v else mx in
               (mn, mx))
            (map Fin qs) (Fin m, Fin M) =
  (Fin (fold_left qmin_step qs m), Fin (fold_left qmax_step qs M)).
Proof.
  revert m M. induction qs as [|q qs IH]; intros m M; [reflexivity|].
  cbn [map fold_left]. rewrite <- IH. unfold qmin_step, qmax_step. cbn [flt].
  destruct (negb (Qle_bool m q)), (negb (Qle_bool q M)); reflexivity.
Qed.

Lemma qmin_fold (qs : list Q) (m : Q) :
  let r := fold_left qmin_step qs m in
  (r = m \/ In r qs) /\ (r <= m)%Q /\ Forall (fun q => r <= q)%Q qs.
Proof.
  revert m. induction qs as [|a qs IH]; intros m; cbn [fold_left].
  - split; [left; reflexivity|]. split; [apply Qle_refl | constructor].
  - destruct (IH (qmin_step m a)) as [Hin [Hle Hall]].
    unfold qmin_step in *.
    destruct (Qle_bool m a) eqn:E; cbn [negb] in *.
    + apply Qle_bool_iff in E.
      split; [destruct Hin as [Hin|Hin]; [left|right; right]; assumption|].
      split; [assumption|]. constructor; [|assumption]. eapply Qle_trans; eassumption.
    + assert (E' : (a < m)%Q) by (apply Qnot_le_lt; intro C; apply Qle_bool_iff in C; congruence).
      split; [destruct Hin as [Hin|Hin]; right; [left; symmetry|right]; assumption|].
      split; [apply Qle_trans with a; [assumption|apply Qlt_le_weak; assumption]|].
      constructor; assumption.
Qed.

Lemma qmax_fold (qs : list Q) (m : Q) :
  let r := fold_left qmax_step qs m in
  (r = m \/ In r qs) /\ (m <= r)%Q /\ Forall (fun q => q <= r)%Q qs.
Proof.
  revert m. induction qs as [|a qs IH]; intros m; cbn [fold_left].
  - split; [left; reflexivity|]. split; [apply Qle_refl | constructor].
  - destruct (IH (qmax_step m a)) as [Hin [Hle Hall]].
    unfold qmax_step in *.
    destruct (Qle_bool a m) eqn:E; cbn [negb] in *.
    + apply Qle_bool_iff in E.
      split; [destruct Hin as [Hin|Hin]; [left|right; right]; assumption|].
      split; [assumption|]. constructor; [|assumption]. eapply Qle_trans; eassumption.
    + assert (E' : (m < a)%Q) by (apply Qnot_le_lt; intro C; apply Qle_bool_iff in C; congruence).
      split; [destruct Hin as [Hin|Hin]; right; [left; symmetry|right]; assumption|].
      split; [apply Qle_trans with a; [apply Qlt_le_weak; assumption|assumption]|].
      constructor; assumption.
Qed.

Lemma fle_fin (p q : Q) : fle (Fin p) (Fin q) = Qle_bool p q.
Proof. cbn. apply negb_involutive. Qed.

Lemma scan_min_max (q0 : Q) (qs : list Q) :
  let '(mn, mx) := initial_center (map Fin (q0 :: qs)) (Fin q0) in
  is_min mn (map Fin (q0 :: qs)) /\ is_max mx (map Fin (q0 :: qs)).
Proof.
  unfold initial_center. rewrite scan_fin.
  destruct (qmin_fold (q0 :: qs) q0) as [Hin1 [_ Hall1]].
  destruct (qmax_fold (q0 :: qs) q0) as [Hin2 [_ Hall2]].
  split; split.
  - apply in_map. destruct Hin1 as [->|Hin1]; [left; reflexivity|exact Hin1].
  - apply Forall_map. eapply Forall_impl; [|exact Hall1].
    intros q Hq. cbn beta. rewrite fle_fin. apply Qle_bool_iff. exact Hq.
  - apply in_map. destruct Hin2 as [->|Hin2]; [left; reflexivity|exact Hin2].
  - apply Forall_map. eapply Forall_impl; [|exact Hall2].
    intros q Hq. cbn beta. rewrite fle_fin. apply Qle_bool_iff. exact Hq.
Qed.

(** Once a centre is NaN, every threshold is NaN, every element goes to
    class 0, the class-1 centre is 0/0 = NaN again, and the loop runs to
    its end. *)
Lemma fle_NaN (x : f64) : fle NaN x = false.
Proof. reflexivity. Qed.

Lemma map_const_false (l : list f64) :
  map (fun a => fle NaN a) l = repeat false (length l).
Proof.
  induction l as [|a l IH]; [reflexivity|].
  cbn [map length repeat]. rewrite IH. reflexivity.
Qed.

Lemma filter_const_false (l : list f64) : filter (fun a => fle NaN a) l = [].
Proof. induction l as [|a l IH]; [reflexivity|]. cbn [filter]. exact IH. Qed.

Lemma nan_loop_inv (fuel : nat) (c : f64 * f64) (avg : list f64) (lab : list bool) :
  fadd (fst c) (snd c) = NaN ->
  (fuel = 0%nat -> lab = repeat false (length avg)) ->
  kmeans_loop fuel c avg lab = repeat false (length avg).
Proof.
  revert c lab. induction fuel as [|f IH]; intros c lab E L; [exact (L eq_refl)|].
  cbn [kmeans_loop]. rewrite E. cbn [fdiv]. rewrite classify_eq.
  rewrite map_const_false, filter_const_false. cbn [fold_left fst snd].
  change (Average empty_store) with NaN. cbn [fadd fdiv fsub fabs flt].
  apply IH; [reflexivity | intros _; reflexivity].
Qed.

Lemma nan_loop (fuel : nat) (c : f64 * f64) (avg : list f64) (lab : list bool) :
  fadd (fst c) (snd c) = NaN ->
  kmeans_loop (Datatypes.S fuel) c avg lab = repeat false (length avg).
Proof. intros E. apply nan_loop_inv; [exact E | discriminate]. Qed.

Lemma all_true_map (f : f64 -> bool) (l : list f64) :
  Forall (fun a => f a = true) l ->
  map f l = repeat true (length l) /\ filter (fun a => negb (f a)) l = [].
Proof.
  induction 1 as [|a l Ha _ [IH1 IH2]]; cbn; [split; reflexivity|].
  rewrite Ha, IH1, IH2. split; reflexivity.
Qed.

Lemma kmeans_loop_S (f : nat) (center : f64 * f64) (avg : list f64) (lab : list bool) :
  kmeans_loop (Datatypes.S f) center avg lab =
    let threshold := fdiv (fadd (fst center) (snd center)) (Fin 2) in
    let '(isClass01', higts, lows) := classify threshold avg empty_store empty_store in
    let center' := (Average higts, Average lows) in
    if flt (fabs (fsub (fdiv (fadd (fst center') (snd center')) (Fin 2)) threshold)) etol
    then isClass01'
    else kmeans_loop f center' avg isClass01'.
Proof. reflexivity. Qed.

(** If the first threshold puts every element in class 1, the class-0
    centre becomes 0/0 = NaN and the result is all class 0. *)
Lemma first_step_all_true (f : nat) (c : f64 * f64) (avg : list f64) (lab : list bool) :
  Forall (fun a => fle (fdiv (fadd (fst c) (snd c)) (Fin 2)) a = true) avg ->
  kmeans_loop (Datatypes.S (Datatypes.S f)) c avg lab = repeat false (length avg).
Proof.
  intros Hall. rewrite kmeans_loop_S. cbv zeta.
  rewrite classify_eq.
  destruct (all_true_map _ avg Hall) as [_ Hfil]. rewrite Hfil.
  cbn [fold_left fst snd].
  change (Average empty_store) with NaN.
  destruct (Average _); cbn [fadd fdiv fsub fabs flt];
    apply nan_loop; reflexivity.
Qed.

End KmeansFacts.

(** C8: for every non-empty list of (finite) averages, [OneDimKmeans]
    computes exactly the spec's algorithm started from the minimum and
    the maximum of the list ([spec_kmeans_loop]: threshold
    [(c0 + c1)/2], class 1 iff [avg[i] >= t], centres recomputed as the
    means of their members, early stop when the midpoint moves by less
    than 1e-6, at most 300 iterations), and returns a vector of the
    input's length; when all values are equal the labelling is the fixed
    all-class-0 vector. *)
Theorem kmeans_follows_spec (qs : list Q) :
  qs <> [] ->
  (exists c0 c1 labels,
     Kmeans.is_min c0 (map Fin qs) /\ Kmeans.is_max c1 (map Fin qs) /\
     Kmeans.OneDimKmeans (map Fin qs) = Ok labels /\
     labels = Kmeans.spec_kmeans_loop 300 c0 c1 (map Fin qs) [] /\
     length labels = length qs) /\
  (forall q, Forall (fun p => p == q)%Q qs ->
     Kmeans.OneDimKmeans (map Fin qs) = Ok (repeat false (length qs))).
Proof.
  intros Hne. destruct qs as [|q0 qs]; [congruence|].
  assert (HO : Kmeans.OneDimKmeans (map Fin (q0 :: qs)) =
               Ok (Kmeans.kmeans_loop 300
                     (Kmeans.initial_center (map Fin (q0 :: qs)) (Fin q0))
                     (map Fin (q0 :: qs)) [])) by reflexivity.
  rewrite HO. clear HO.
  pose proof (KmeansFacts.scan_min_max q0 qs) as Hmm.
  destruct (Kmeans.initial_center (map Fin (q0 :: qs)) (Fin q0)) as [mn mx] eqn:Ec.
  split.
  - destruct Hmm as [Hmin Hmax].
    exists mn, mx. eexists. split; [exact Hmin|]. split; [exact Hmax|].
    split; [reflexivity|].
    split; [apply KmeansFacts.loop_refines; reflexivity|].
    rewrite (KmeansFacts.loop_refines 300 _ mn mx mn mx [] eq_refl).
    rewrite KmeansFacts.spec_loop_length. apply length_map.
  - intros q Hall.
    destruct Hmm as [[Hin1 _] [Hin2 _]].
    apply in_map_iff in Hin1 as [m [<- Hm]]. apply in_map_iff in Hin2 as [M [<- HM]].
    assert (Hm' : (m == q)%Q) by (rewrite Forall_forall in Hall; exact (Hall m Hm)).
    assert (HM' : (M == q)%Q) by (rewrite Forall_forall in Hall; exact (Hall M HM)).
    f_equal.
    rewrite <- (length_map Fin (q0 :: qs)).
    apply KmeansFacts.first_step_all_true. cbn [fst snd fadd fdiv].
    replace (Qeq_bool 2 0) with false by reflexivity.
    apply Forall_map. eapply Forall_impl; [|exact Hall].
    intros p Hp. rewrite KmeansFacts.fle_fin. apply Qle_bool_iff.
    rewrite Hp, Hm', HM'. unfold Qdiv. change (/ 2)%Q with (1 # 2)%Q. lra.
Qed.

Lemma kmeans_follows_spec_witness :
  [(1 # 10); (9 # 10); (1 # 4)]%Q <> [] /\
  exists labels,
    Kmeans.OneDimKmeans (map Fin [(1 # 10); (9 # 10); (1 # 4)]%Q) = Ok labels /\
    length labels = 3%nat.
Proof.
  split; [discriminate|].
  destruct (kmeans_follows_spec [(1 # 10); (9 # 10); (1 # 4)]%Q ltac:(discriminate))
    as [[c0 [c1 [labels [_ [_ [E [_ L]]]]]]] _].
  exists labels. split; [exact E | exact L].
Defined.

(** ** The image pipeline *)

Module PipelineFacts.
Import Engine.

Lemma bind_ok_inv {A B} (m : outcome A) (f : A -> outcome B) (b : B) :
  bind m f = Ok b -> exists a, m = Ok a /\ f a = Ok b.
Proof. destruct m; cbn; intros H; [eexists; split; [reflexivity|exact H] | discriminate | discriminate]. Qed.

Ltac inv_bind H :=
  let a := fresh "a" in let Ha := fresh "Ha" in let H' := fresh "H" in
  destruct (bind_ok_inv _ _ _ H) as [a [Ha H']]; clear H; rename H' into H.

Lemma loop_from_inv {S} (P : S -> Prop) (lo : Z) (fuel : nat) (i stop step : Z)
    (body : Z -> S -> outcome S) (s s' : S) :
  lo <= i -> 0 <= step -> P s ->
  (forall j s1 s2, lo <= j < stop -> P s1 -> body j s1 = Ok s2 -> P s2) ->
  loop_from fuel i stop step body s = Ok s' -> P s'.
Proof.
  revert i s. induction fuel as [|f IH]; intros i s Hi Hstep Hs Hbody H; cbn in H.
  - injection H as <-. exact Hs.
  - destruct (i <? stop) eqn:Elt.
    + apply Z.ltb_lt in Elt. inv_bind H.
      apply (IH (i + step) a); [lia | exact Hstep | | exact Hbody | exact H].
      apply (Hbody i s a); [lia | exact Hs | exact Ha].
    + injection H as <-. exact Hs.
Qed.

Lemma go_range_inv {S} (P : S -> Prop) (n : Z) (body : Z -> S -> outcome S) (s s' : S) :
  P s ->
  (forall j s1 s2, 0 <= j < n -> P s1 -> body j s1 = Ok s2 -> P s2) ->
  go_range n body s = Ok s' -> P s'.
Proof.
  intros Hs Hbody. unfold go_range, go_for.
  apply (loop_from_inv P 0); [lia | lia | exact Hs | exact Hbody].
Qed.

Lemma SetRGBA64_rect (p : RGBA64) (x y : Z) (c : RGBA64Color) :
  Rect (SetRGBA64 p x y c) = Rect p.
Proof. unfold SetRGBA64. destruct (point_in x y (Rect p)); reflexivity. Qed.

Lemma SetRGBA64_other (p : RGBA64) (x y : Z) (c : RGBA64Color) (px py : Z) :
  (px, py) <> (x, y) -> RGBA64At (SetRGBA64 p x y c) px py = RGBA64At p px py.
Proof.
  intros Hne. unfold SetRGBA64.
  destruct (point_in x y (Rect p)); [|reflexivity].
  unfold RGBA64At; cbn [Rect Pix].
  destruct (point_in px py (Rect p)); [|reflexivity].
  destruct ((px =? x) && (py =? y)) eqn:E; [|reflexivity].
  apply andb_true_iff in E as [E1 E2]. apply Z.eqb_eq in E1, E2. subst. congruence.
Qed.

(** The output loop writes only the points of [[0, width) x [0, height)]. *)
Lemma write_pixels_frame (dist out : RGBA64) (width height : Z) (pixels : list RGBA64Color) :
  write_pixels dist width height pixels = Ok out ->
  Rect out = Rect dist /\
  forall px py, ~ (0 <= px < width /\ 0 <= py < height) ->
    RGBA64At out px py = RGBA64At dist px py.
Proof.
  unfold write_pixels. intros H. inv_bind H. injection H as <-.
  set (I := fun (st : RGBA64 * Z) =>
              Rect (fst st) = Rect dist /\
              forall px py, ~ (0 <= px < width /\ 0 <= py < height) ->
                RGBA64At (fst st) px py = RGBA64At dist px py).
  change (I a). revert Ha. apply go_range_inv.
  - split; reflexivity.
  - intros y st1 st2 Hy Hst1 Hin. revert Hin.
    apply (go_range_inv I); [exact Hst1|].
    intros x [d idx] st' Hx [HR HP] Hb. cbn [fst] in HR, HP.
    inv_bind Hb. injection Hb as <-. unfold I; cbn [fst]. split.
    + rewrite SetRGBA64_rect. exact HR.
    + intros px py Hout. rewrite SetRGBA64_other; [apply HP; exact Hout|].
      intros E. injection E as -> ->. apply Hout. split; assumption.
Qed.

Lemma NewRGBA64_ok (r : Rectangle) (dist : RGBA64) :
  NewRGBA64 r = Ok dist -> Rect dist = r /\ forall x y, RGBA64At dist x y = zero_RGBA64.
Proof.
  unfold NewRGBA64. destruct ((Dx r <? 0) || (Dy r <? 0)); [discriminate|].
  intros H. injection H as <-. split; [reflexivity|].
  intros x y. unfold RGBA64At; cbn [Rect Pix]. destruct (point_in x y r); reflexivity.
Qed.

(** A result of [Embed] is the output loop run on a fresh [RGBA64] of
    the source's bounds. *)
Lemma Embed_ok_inv dct_exec svd_exec (w : Watermark) (src : Image) (mark : list bool)
    (out : RGBA64) :
  Embed dct_exec svd_exec w src mark = Ok out ->
  exists dist pixels,
    NewRGBA64 (Bounds src) = Ok dist /\
    write_pixels dist (Dx (Bounds src)) (Dy (Bounds src)) pixels = Ok out.
Proof.
  unfold Embed. intros H.
  inv_bind H. inv_bind H.
  destruct (_ <? _); [discriminate|].
  inv_bind H. destruct a1 as [[[y u] v] alpha].
  inv_bind H. inv_bind H. inv_bind H. inv_bind H. inv_bind H. inv_bind H.
  eexists _, _. split; eassumption.
Qed.

Lemma Embed_frame dct_exec svd_exec (w : Watermark) (src : Image) (mark : list bool)
    (out : RGBA64) :
  Embed dct_exec svd_exec w src mark = Ok out ->
  Rect out = Bounds src /\
  forall px py, ~ (0 <= px < Dx (Bounds src) /\ 0 <= py < Dy (Bounds src)) ->
    RGBA64At out px py = zero_RGBA64.
Proof.
  intros H. destruct (Embed_ok_inv _ _ _ _ _ _ H) as [dist [pixels [Hd Hw]]].
  destruct (NewRGBA64_ok _ _ Hd) as [HR HZ].
  destruct (write_pixels_frame _ _ _ _ _ Hw) as [HR' HP].
  split; [congruence|]. intros px py Hout. rewrite HP by exact Hout. apply HZ.
Qed.

End PipelineFacts.

(** C9: [Embed] reads and writes pixels at the absolute coordinates
    [0 <= x < W], [0 <= y < H] (W, H the bounds' sizes) whatever
    [Bounds().Min] is; when the bounds rectangle is disjoint from
    [[0, W) x [0, H)], every write misses the output, whose bounds are
    the source's, and every pixel of the result (channels and alpha)
    is zero. *)
Theorem embed_writes_absolute dct_exec svd_exec (w : Watermark) (src : Image)
    (mark : list bool) (out : RGBA64) :
  Engine.Embed dct_exec svd_exec w src mark = Ok out ->
  (forall x y, point_in x y (Bounds src) = true ->
     ~ (0 <= x < Dx (Bounds src) /\ 0 <= y < Dy (Bounds src))) ->
  Rect out = Bounds src /\ forall x y, RGBA64At out x y = zero_RGBA64.
Proof.
  intros H Hdisj.
  destruct (PipelineFacts.Embed_frame _ _ _ _ _ _ H) as [HR HZ].
  split; [exact HR|]. intros x y.
  destruct (point_in x y (Bounds src)) eqn:Ein.
  - apply HZ. apply Hdisj. exact Ein.
  - unfold RGBA64At. rewrite HR, Ein. reflexivity.
Qed.

Lemma embed_writes_absolute_witness :
  (exists out,
     Engine.Embed Instances.dct_id Instances.svd_id Instances.engine44
       (Instances.uniform (mkRect 10 10 14 14) 32896) [true] = Ok out /\
     Rect out = mkRect 10 10 14 14 /\ forall x y, RGBA64At out x y = zero_RGBA64).
Proof.
  destruct (Engine.Embed Instances.dct_id Instances.svd_id Instances.engine44
              (Instances.uniform (mkRect 10 10 14 14) 32896) [true]) as [out|e|p] eqn:E;
    [| vm_compute in E; discriminate | vm_compute in E; discriminate].
  exists out. split; [reflexivity|].
  apply (embed_writes_absolute _ _ _ _ _ out E).
  intros x y Hin Hr. unfold point_in in Hin. cbn in Hin, Hr.
  apply andb_true_iff in Hin as [Hin _]. apply andb_true_iff in Hin as [Hin _].
  apply andb_true_iff in Hin as [Hin _]. apply Z.leb_le in Hin. lia.
Defined.

(** C6 (refuted): on a 4x4 opaque source whose bounds are
    [(1,1)-(5,5)], with a one-bit mark that fits, a result of [Embed]
    has the source's bounds but the pixel (4,4) of the output has alpha
    0 while the source's alpha there is 65535: alpha is not carried
    through when [Bounds().Min <> (0, 0)]. *)
Theorem embed_loses_alpha_off_origin dct_exec svd_exec (out : RGBA64) :
  Engine.Embed dct_exec svd_exec Instances.engine44
    (Instances.uniform (mkRect 1 1 5 5) 32896) [true] = Ok out ->
  Rect out = mkRect 1 1 5 5 /\
  A (RGBA64At out 4 4) = 0 /\
  cA (At (Instances.uniform (mkRect 1 1 5 5) 32896) 4 4) = 65535.
Proof.
  intros H. destruct (PipelineFacts.Embed_frame _ _ _ _ _ _ H) as [HR HZ].
  split; [exact HR|]. split; [|reflexivity].
  rewrite HZ; [reflexivity|]. cbn. lia.
Qed.

Lemma embed_loses_alpha_off_origin_witness :
  exists out,
    Engine.Embed Instances.dct_id Instances.svd_id Instances.engine44
      (Instances.uniform (mkRect 1 1 5 5) 32896) [true] = Ok out /\
    A (RGBA64At out 4 4) = 0.
Proof.
  destruct (Engine.Embed Instances.dct_id Instances.svd_id Instances.engine44
              (Instances.uniform (mkRect 1 1 5 5) 32896) [true]) as [out|e|p] eqn:E;
    [| vm_compute in E; discriminate | vm_compute in E; discriminate].
  exists out. split; [reflexivity|].
  exact (proj1 (proj2 (embed_loses_alpha_off_origin _ _ out E))).
Defined.

(** C1 (refuted): with a solver that reports "cannot factorize" on
    block 0 of the Y channel of an 8x4 image (black left half) and
    succeeds on every other block, the Y goroutine returns at that
    block: [Embed] does not continue, [colors[0]] stays nil and the
    reconstruction panics with an index out of range; [Extract] skips
    the remaining Y blocks too, so mark position 1 receives 2 votes
    instead of the 3 it receives when the solver succeeds everywhere. *)
Theorem svd_failure_aborts_channel :
  Instances.svd_fails_on_zero 2 2 [0; 0; 0; 0]%Q = None /\
  Engine.Embed Instances.dct_id Instances.svd_fails_on_zero Instances.engine44
    Instances.half_black [true] = Panic IndexOutOfRange /\
  omap (map Kmeans.count)
    (Engine.extract_votes Instances.dct_id Instances.svd_fails_on_zero
       Instances.engine44 Instances.half_black 2) = Ok [2; 2] /\
  omap (map Kmeans.count)
    (Engine.extract_votes Instances.dct_id Instances.svd_id
       Instances.engine44 Instances.half_black 2) = Ok [3; 3].
Proof. vm_compute. repeat split. Qed.

(** C2 (refuted): the capacity check is the only error of [Embed], made
    before any pixel is read ([At] is never consulted when it fires),
    but passing it does not make the call succeed: with the engine of
    [New(WithBlockShape(4, 4))], a 4x4 image and an empty mark,
    [Embed] panics with an integer division by zero, whatever the DCT
    and the solver. *)
Theorem capacity_check_not_sufficient :
  New [WithBlockShape 4 4] = Ok Instances.engine44 /\
  (forall dct_exec svd_exec,
     Engine.Embed dct_exec svd_exec Instances.engine44
       (Instances.uniform (mkRect 0 0 4 4) 32896) [] = Panic DivideByZero) /\
  (forall dct_exec svd_exec (w : Watermark) (src : Image) (mark : list bool),
     fst (blockShape w) <> 0 -> snd (blockShape w) <> 0 ->
     let tb := Z.quot (Z.quot (Dx (Bounds src) + 1) 2) (fst (blockShape w)) *
               Z.quot (Z.quot (Dy (Bounds src) + 1) 2) (snd (blockShape w)) in
     tb < Z.of_nat (length mark) ->
     Engine.Embed dct_exec svd_exec w src mark =
       Err (ErrTooSmallImage tb (Z.of_nat (length mark)))).
Proof.
  split; [reflexivity|]. split.
  - intros dct_exec svd_exec. reflexivity.
  - intros dct_exec svd_exec w src mark H0 H1 tb Hlt.
    unfold Engine.Embed, go_div.
    rewrite (proj2 (Z.eqb_neq _ _) H0), (proj2 (Z.eqb_neq _ _) H1). cbn [bind].
    fold tb. rewrite (proj2 (Z.ltb_lt _ _) Hlt). reflexivity.
Qed.


(** ** Errors, panics and totality of the pipeline *)

Module PipelineTotal.
Import Engine PipelineFacts.

(** *** The pipeline returns no [error] value besides the capacity check *)

Lemma ne_bind {A B} (m : outcome A) (f : A -> outcome B) :
  not_err m -> (forall a, m = Ok a -> not_err (f a)) -> not_err (bind m f).
Proof. destruct m; cbn; auto. Qed.

Lemma ne_go_div a b : not_err (go_div a b).
Proof. unfold go_div. destruct (b =? 0); exact I. Qed.
Lemma ne_go_mod a b : not_err (go_mod a b).
Proof. unfold go_mod. destruct (b =? 0); exact I. Qed.
Lemma ne_go_make {A} n (v : A) : not_err (go_make n v).
Proof. unfold go_make. destruct (n <? 0); exact I. Qed.
Lemma ne_go_index {A} (l : list A) i : not_err (go_index l i).
Proof. unfold go_index. destruct (_ && _); [destruct (nth_error _ _)|]; exact I. Qed.
Lemma ne_go_set {A} (l : list A) i v : not_err (go_set l i v).
Proof. unfold go_set. destruct (_ && _); exact I. Qed.
Lemma ne_go_slice {A} (l : list A) lo hi : not_err (go_slice l lo hi).
Proof. unfold go_slice. destruct (_ && _); exact I. Qed.
Lemma ne_write_through {A} (l : list A) lo blk : not_err (write_through l lo blk).
Proof. unfold write_through. destruct (_ && _); exact I. Qed.
Lemma ne_deref {A} (o : option A) : not_err (deref o).
Proof. destruct o; exact I. Qed.
Lemma ne_NewRGBA64 r : not_err (NewRGBA64 r).
Proof. unfold NewRGBA64. destruct (_ || _); exact I. Qed.

Lemma ne_run_embed f s0 s1 bit : not_err (run_embed f s0 s1 bit).
Proof.
  destruct f; cbn [run_embed]; apply ne_bind; try apply ne_go_div; intros; try exact I.
  apply ne_bind; [apply ne_go_div | intros; exact I].
Qed.

Lemma ne_run_extract f s0 s1 : not_err (run_extract f s0 s1).
Proof.
  destruct f; cbn [run_extract]; apply ne_bind; try apply ne_go_mod; intros.
  - destruct (_ <? _); exact I.
  - apply ne_bind; [apply ne_go_mod | intros; destruct (_ <? _); exact I].
Qed.

Lemma ne_loop_from {S} fuel i stop step (body : Z -> S -> outcome S) s :
  (forall j s, not_err (body j s)) -> not_err (loop_from fuel i stop step body s).
Proof.
  intros Hb. revert i s. induction fuel as [|f IH]; intros i s; cbn; [exact I|].
  destruct (i <? stop); [|exact I]. apply ne_bind; [apply Hb | intros; apply IH].
Qed.

Lemma ne_go_for {S} start stop step (body : Z -> S -> outcome S) s :
  (forall j s, not_err (body j s)) -> not_err (go_for start stop step body s).
Proof. intros. apply ne_loop_from. assumption. Qed.

Lemma ne_go_range {S} n (body : Z -> S -> outcome S) s :
  (forall j s, not_err (body j s)) -> not_err (go_range n body s).
Proof. intros. apply ne_go_for. assumption. Qed.

Lemma ne_loop_ret {S} fuel i stop (body : Z -> S -> outcome (flow S)) s :
  (forall j s, not_err (body j s)) -> not_err (loop_ret fuel i stop body s).
Proof.
  intros Hb. revert i s. induction fuel as [|f IH]; intros i s; cbn; [exact I|].
  destruct (i <? stop); [|exact I]. apply ne_bind; [apply Hb|].
  intros [s'|s'] _; [apply IH | exact I].
Qed.

Lemma ne_go_range_ret {S} n (body : Z -> S -> outcome (flow S)) s :
  (forall j s, not_err (body j s)) -> not_err (go_range_ret n body s).
Proof. intros. apply ne_loop_ret. assumption. Qed.

Ltac ne :=
  repeat match goal with
  | |- not_err (bind _ _) => apply ne_bind; [ne | intros ? _]
  | |- not_err (Ok _) => exact I
  | |- not_err (Panic _) => exact I
  | |- not_err (go_div _ _) => apply ne_go_div
  | |- not_err (go_mod _ _) => apply ne_go_mod
  | |- not_err (go_make _ _) => apply ne_go_make
  | |- not_err (go_index _ _) => apply ne_go_index
  | |- not_err (go_set _ _ _) => apply ne_go_set
  | |- not_err (go_slice _ _ _) => apply ne_go_slice
  | |- not_err (write_through _ _ _) => apply ne_write_through
  | |- not_err (deref _) => apply ne_deref
  | |- not_err (NewRGBA64 _) => apply ne_NewRGBA64
  | |- not_err (run_embed _ _ _ _) => apply ne_run_embed
  | |- not_err (run_extract _ _ _) => apply ne_run_extract
  | |- not_err (go_for _ _ _ _ _) => apply ne_go_for; intros ? ?
  | |- not_err (go_range _ _ _) => apply ne_go_range; intros ? ?
  | |- not_err (go_range_ret _ _ _) => apply ne_go_range_ret; intros ? ?
  | |- not_err (match ?x with _ => _ end) => destruct x
  | |- not_err (if ?b then _ else _) => destruct b
  end.


Lemma ne_HaarIDWT result w h indexMap : not_err (Haar.HaarIDWT result w h indexMap).
Proof. unfold Haar.HaarIDWT. ne. Qed.



(** *** Extract with [markLen = 0] *)

Lemma loop_ret_inv {S} (P : S -> Prop) fuel i stop (body : Z -> S -> outcome (flow S)) s r :
  P s ->
  (forall j s1 r1, P s1 -> body j s1 = Ok r1 -> P (flow_state r1)) ->
  loop_ret fuel i stop body s = Ok r -> P (flow_state r).
Proof.
  intros Hs Hb. revert i s Hs. induction fuel as [|f IH]; intros i s Hs H; cbn in H.
  - injection H as <-. exact Hs.
  - destruct (i <? stop); [|injection H as <-; exact Hs].
    inv_bind H. destruct a as [s'|s'].
    + apply (IH (i + 1) s'); [apply (Hb i s (Continue s')); assumption | exact H].
    + injection H as <-. apply (Hb i s (Return s')); assumption.
Qed.






End PipelineTotal.

(** *** Totality of the steps before the block loop *)

Module PipelineRun.
Import Engine PipelineFacts.

Lemma length_set_nth {A} (l : list A) (n : nat) (v : A) : length (set_nth l n v) = length l.
Proof. revert n. induction l as [|a l IH]; intros [|n]; cbn; auto. Qed.

Lemma nth_error_set_nth_same {A} (l : list A) (n : nat) (v : A) :
  (n < length l)%nat -> nth_error (set_nth l n v) n = Some v.
Proof.
  revert n. induction l as [|a l IH]; intros [|n] Hn; cbn in *; try lia; auto.
  apply IH. lia.
Qed.

Lemma nth_error_set_nth_other {A} (l : list A) (n k : nat) (v : A) :
  n <> k -> nth_error (set_nth l n v) k = nth_error l k.
Proof.
  revert n k. induction l as [|a l IH]; intros [|n] [|k] Hne; cbn; auto; try congruence.
Qed.

Lemma go_set_ok {A} (l : list A) (i : Z) (v : A) :
  0 <= i < Z.of_nat (length l) -> go_set l i v = Ok (set_nth l (Z.to_nat i) v).
Proof.
  intros Hi. unfold go_set.
  rewrite (proj2 (Z.leb_le 0 i)), (proj2 (Z.ltb_lt i _)) by lia. reflexivity.
Qed.

Lemma go_index_ok {A} (l : list A) (i : Z) :
  0 <= i < Z.of_nat (length l) ->
  exists v, go_index l i = Ok v /\ nth_error l (Z.to_nat i) = Some v.
Proof.
  intros Hi. unfold go_index.
  rewrite (proj2 (Z.leb_le 0 i)), (proj2 (Z.ltb_lt i _)) by lia. cbn [andb].
  destruct (nth_error l (Z.to_nat i)) eqn:E.
  - exists a. split; reflexivity.
  - apply nth_error_None in E. lia.
Qed.

Lemma go_make_ok {A} (n : Z) (v : A) : 0 <= n -> go_make n v = Ok (repeat v (Z.to_nat n)).
Proof. intros Hn. unfold go_make. rewrite (proj2 (Z.ltb_ge n 0)) by lia. reflexivity. Qed.

Lemma loop_from_total_idx {S} (P : Z -> S -> Prop) (n : Z) (body : Z -> S -> outcome S) :
  forall k i s, Z.to_nat (n - i) = k -> i <= n -> P i s ->
  (forall j s1, i <= j < n -> P j s1 -> exists s2, body j s1 = Ok s2 /\ P (j + 1) s2) ->
  exists s', loop_from k i n 1 body s = Ok s' /\ P n s'.
Proof.
  induction k as [|k IH]; intros i s Hk Hi Hs Hb; cbn [loop_from].
  - assert (i = n) by lia. subst. exists s. split; [reflexivity | exact Hs].
  - rewrite (proj2 (Z.ltb_lt i n)) by lia.
    destruct (Hb i s) as [s2 [E Hs2]]; [lia | exact Hs |].
    rewrite E. cbn [bind].
    apply (IH (i + 1) s2); [lia | lia | exact Hs2 |].
    intros j s1 Hj Hs1. apply Hb; [lia | exact Hs1].
Qed.

Lemma go_range_total {S} (P : Z -> S -> Prop) (n : Z) (body : Z -> S -> outcome S) (s : S) :
  0 <= n -> P 0 s ->
  (forall j s1, 0 <= j < n -> P j s1 -> exists s2, body j s1 = Ok s2 /\ P (j + 1) s2) ->
  exists s', go_range n body s = Ok s' /\ P n s'.
Proof.
  intros Hn Hs Hb. unfold go_range, go_for.
  apply (loop_from_total_idx P n body _ 0 s); [reflexivity | lia | exact Hs | exact Hb].
Qed.




Lemma length_GetMap (w h bw bh : Z) :
  length (Dwt.GetMap (Dwt.NewBlockMap w h bw bh)) = Z.to_nat (w * h).
Proof. unfold Dwt.GetMap. rewrite length_map, length_seq. reflexivity. Qed.

Lemma quot2_lt (a b : Z) : 0 <= a < b -> Z.quot a 2 < Z.quot (b + 1) 2.
Proof.
  intros Hab. rewrite !Z.quot_div_nonneg by lia.
  pose proof (Z.div_mod a 2 ltac:(lia)). pose proof (Z.mod_pos_bound a 2 ltac:(lia)).
  pose proof (Z.div_mod (b + 1) 2 ltac:(lia)). pose proof (Z.mod_pos_bound (b + 1) 2 ltac:(lia)).
  lia.
Qed.

Lemma quot2_nonneg (a : Z) : 0 <= a -> 0 <= Z.quot a 2.
Proof. intros. apply Z.quot_pos; lia. Qed.

Lemma clip_lt (a b : Z) : 0 <= a < b -> 0 <= (if a + 1 <? b then a + 1 else a) < b.
Proof. intros. destruct (Z.ltb_spec (a + 1) b); lia. Qed.






End PipelineRun.



(** * Further properties of the code *)



Module BitconvFacts.
Import Bitconv PipelineRun.

(** Helpers of the proofs: the eight bits of a byte, most significant
    first, and the byte the inner loop of [BoolsToBytes] assembles from
    eight bits. *)
Definition byte_bits (bb : Z) : list bool :=
  map (fun i => Z.land (Z.shiftr bb i) 1 =? 1) [7; 6; 5; 4; 3; 2; 1; 0].

Definition pack_bits (l : list bool) : Z :=
  fold_left (fun v j => if nth (Z.to_nat j) l false then Z.lor v (Z.shiftl 1 (7 - j)) else v)
            [0; 1; 2; 3; 4; 5; 6; 7] 0.


Lemma fold_app_map {A B} (f : A -> B) (l : list A) (acc : list B) :
  fold_left (fun bits i => bits ++ [f i]) l acc = acc ++ map f l.
Proof.
  revert acc. induction l as [|a l IH]; intros acc; cbn; [now rewrite app_nil_r|].
  rewrite IH, <- app_assoc. reflexivity.
Qed.

Lemma BytesToBools_flat (b : list Z) : BytesToBools b = flat_map byte_bits b.
Proof.
  unfold BytesToBools.
  assert (G : forall pre, fold_left (fun bits bb =>
            fold_left (fun bits i => bits ++ [Z.land (Z.shiftr bb i) 1 =? 1])
              [7; 6; 5; 4; 3; 2; 1; 0] bits) b pre = pre ++ flat_map byte_bits b).
  { induction b as [|x b IH]; intros pre.
    - cbn. rewrite app_nil_r. reflexivity.
    - change (fold_left ?f (x :: b) pre) with (fold_left f b (f pre x)). cbv beta.
      rewrite (fold_app_map (fun i => Z.land (Z.shiftr x i) 1 =? 1)), IH.
      cbn [flat_map]. rewrite app_assoc. reflexivity. }
  apply G.
Qed.

Lemma byte_bits_length (x : Z) : length (byte_bits x) = 8%nat.
Proof. reflexivity. Qed.

Lemma nth_flat_map8 {A} (f : A -> list bool) (l : list A) (a0 : A) (k j : nat) :
  (forall x, length (f x) = 8%nat) -> (k < length l)%nat -> (j < 8)%nat ->
  nth (8 * k + j) (flat_map f l) false = nth j (f (nth k l a0)) false.
Proof.
  intros Hf. revert k. induction l as [|x l IH]; intros k Hk Hj; cbn in Hk; [lia|].
  cbn [flat_map]. destruct k as [|k].
  - rewrite app_nth1 by (rewrite Hf; lia). reflexivity.
  - rewrite app_nth2 by (rewrite Hf; lia). rewrite Hf.
    replace (8 * Datatypes.S k + j - 8)%nat with (8 * k + j)%nat by lia.
    apply IH; lia.
Qed.

Lemma length_flat_map8 {A} (f : A -> list bool) (l : list A) :
  (forall x, length (f x) = 8%nat) -> length (flat_map f l) = (8 * length l)%nat.
Proof.
  intros Hf. induction l as [|x l IH]; cbn [flat_map length]; [reflexivity|].
  rewrite length_app, Hf, IH. lia.
Qed.

Lemma pack_byte_bits (bb : Z) : 0 <= bb < 256 -> pack_bits (byte_bits bb) = bb.
Proof.
  intros Hb.
  assert (Hall : forallb (fun k => pack_bits (byte_bits (Z.of_nat k)) =? Z.of_nat k)
                   (seq 0 256) = true) by (vm_compute; reflexivity).
  rewrite forallb_forall in Hall.
  specialize (Hall (Z.to_nat bb)). rewrite Z2Nat.id in Hall by lia.
  apply Z.eqb_eq, Hall, in_seq. lia.
Qed.

Lemma byte_bits_pack (b0 b1 b2 b3 b4 b5 b6 b7 : bool) :
  byte_bits (pack_bits [b0; b1; b2; b3; b4; b5; b6; b7]) = [b0; b1; b2; b3; b4; b5; b6; b7].
Proof.
  destruct b0, b1, b2, b3, b4, b5, b6, b7; vm_compute; reflexivity.
Qed.

Lemma loop_from_pure {S} (body : Z -> S -> outcome S) (step : Z -> S -> S) (n : Z) :
  forall fuel i s, Z.to_nat (n - i) = fuel -> 0 <= i ->
  (forall j s, i <= j < n -> body j s = Ok (step j s)) ->
  loop_from fuel i n 1 body s =
    Ok (fold_left (fun s j => step j s) (map Z.of_nat (seq (Z.to_nat i) fuel)) s).
Proof.
  induction fuel as [|f IH]; intros i s Hf Hi Hb; cbn [loop_from].
  - reflexivity.
  - rewrite (proj2 (Z.ltb_lt i n)) by lia. rewrite Hb by lia. cbn [bind].
    rewrite (IH (i + 1)) by (lia || (intros; apply Hb; lia)).
    cbn [seq map fold_left]. rewrite Z2Nat.id by lia.
    replace (Z.to_nat (i + 1)) with (Datatypes.S (Z.to_nat i)) by lia. reflexivity.
Qed.

Lemma go_range_pure {S} (n : Z) (body : Z -> S -> outcome S) (step : Z -> S -> S) (s : S) :
  0 <= n -> (forall j s, 0 <= j < n -> body j s = Ok (step j s)) ->
  go_range n body s =
    Ok (fold_left (fun s j => step j s) (map Z.of_nat (seq 0 (Z.to_nat n))) s).
Proof.
  intros Hn Hb. unfold go_range, go_for.
  rewrite (loop_from_pure body step n _ 0 s); [| lia | lia | exact Hb].
  rewrite Z.sub_0_r. reflexivity.
Qed.

Lemma set_nth_middle {A} (l1 l2 : list A) (x v : A) :
  set_nth (l1 ++ x :: l2) (length l1) v = l1 ++ v :: l2.
Proof. induction l1 as [|a l1 IH]; cbn; [reflexivity | now rewrite IH]. Qed.

Lemma go_range_fill {A} (g : Z -> outcome A) (f : Z -> A) (out : list A) :
  (forall i, 0 <= i < Z.of_nat (length out) -> g i = Ok (f i)) ->
  go_range (Z.of_nat (length out)) (fun i out => v <- g i ;; go_set out i v) out =
    Ok (map (fun k => f (Z.of_nat k)) (seq 0 (length out))).
Proof.
  intros Hg.
  set (P := fun (i : Z) (s : list A) =>
              s = map (fun k => f (Z.of_nat k)) (seq 0 (Z.to_nat i)) ++ skipn (Z.to_nat i) out).
  lazymatch goal with |- go_range _ ?body ?s0 = _ =>
    destruct (go_range_total P (Z.of_nat (length out)) body s0) as [s' [E HP]] end.
  - lia.
  - reflexivity.
  - intros j s1 Hj ->. rewrite Hg by exact Hj. cbn [bind].
    assert (Hsk : skipn (Z.to_nat j) out = nth (Z.to_nat j) out (f 0) :: skipn (Z.to_nat (j + 1)) out).
    { replace (Z.to_nat (j + 1)) with (Datatypes.S (Z.to_nat j)) by lia.
      assert (Hl : (Z.to_nat j < length out)%nat) by lia.
      clear - Hl. revert out Hl. induction (Z.to_nat j) as [|k IH]; intros [|a out] Hl;
        cbn in Hl |- *; try lia; [reflexivity|]. apply IH. lia. }
    rewrite go_set_ok.
    + eexists. split; [reflexivity|]. unfold P.
      rewrite Hsk.
      assert (Hlen : length (map (fun k => f (Z.of_nat k)) (seq 0 (Z.to_nat j))) = Z.to_nat j)
        by (rewrite length_map, length_seq; reflexivity).
      rewrite <- Hlen at 3. rewrite set_nth_middle.
      replace (Z.to_nat (j + 1)) with (Z.to_nat j + 1)%nat by lia.
      rewrite seq_app, map_app, <- app_assoc. cbn. rewrite Z2Nat.id by lia. reflexivity.
    + rewrite length_app, length_map, length_seq, length_skipn. lia.
  - rewrite E. f_equal. unfold P in HP. rewrite HP, Nat2Z.id, skipn_all, app_nil_r. reflexivity.
Qed.

(** [BoolsToBytes] never panics: it packs the bits padded with [false]
    up to a multiple of 8, eight bits per byte. *)
Definition pad_len (n : nat) : nat := ((8 - n mod 8) mod 8)%nat.

Lemma go_index_nth {A} (l : list A) (i : Z) (d : A) :
  0 <= i < Z.of_nat (length l) -> go_index l i = Ok (nth (Z.to_nat i) l d).
Proof.
  intros Hi. destruct (go_index_ok l i Hi) as [v [E N]]. rewrite E.
  apply (nth_error_nth _ _ d) in N. rewrite N. reflexivity.
Qed.

Lemma nth_map_seq0 {A} (h : nat -> A) (len n : nat) (d : A) :
  (n < len)%nat -> nth n (map h (seq 0 len)) d = h n.
Proof.
  intros Hn. rewrite (nth_indep _ d (h 0%nat)) by (rewrite length_map, length_seq; exact Hn).
  rewrite map_nth, seq_nth by exact Hn. reflexivity.
Qed.

Lemma fold_ext_in {A B} (f g : A -> B -> A) (l : list B) (a : A) :
  (forall v j, In j l -> f v j = g v j) -> fold_left f l a = fold_left g l a.
Proof.
  revert a. induction l as [|x l IH]; intros a H; cbn; [reflexivity|].
  rewrite H by (left; reflexivity). apply IH. intros v j Hj. apply H. right. exact Hj.
Qed.

Lemma skipn_repeat {A} (x : A) (n m : nat) : skipn n (repeat x m) = repeat x (m - n).
Proof.
  revert m. induction n as [|n IH]; intros [|m]; cbn; try reflexivity. apply IH.
Qed.

Lemma padded_len (nn : nat) :
  (let n := Z.of_nat nn in
   if negb (Z.rem n 8 =? 0) then n + (8 - Z.rem n 8) else n) = Z.of_nat (nn + pad_len nn).
Proof.
  cbv zeta. unfold pad_len.
  rewrite Z.rem_mod_nonneg by lia.
  replace (Z.of_nat nn mod 8) with (Z.of_nat (nn mod 8)) by (rewrite Nat2Z.inj_mod; reflexivity).
  pose proof (Nat.mod_upper_bound nn 8 ltac:(lia)).
  destruct (Nat.eq_dec (nn mod 8) 0) as [E|E].
  - rewrite E. cbn. rewrite Nat.add_0_r. reflexivity.
  - rewrite (proj2 (Z.eqb_neq _ 0)) by lia. cbn [negb].
    rewrite (Nat.mod_small (8 - nn mod 8)) by lia. lia.
Qed.

Lemma padded_mult (nn : nat) : ((nn + pad_len nn) mod 8 = 0)%nat.
Proof.
  unfold pad_len. pose proof (Nat.div_mod nn 8 ltac:(lia)).
  pose proof (Nat.mod_upper_bound nn 8 ltac:(lia)).
  destruct (Nat.eq_dec (nn mod 8) 0) as [E|E].
  - rewrite E. cbn. rewrite Nat.add_0_r. exact E.
  - rewrite (Nat.mod_small (8 - nn mod 8)) by lia.
    replace (nn + (8 - nn mod 8))%nat with ((nn / 8 + 1) * 8)%nat by lia.
    apply Nat.Div0.mod_mul.
Qed.

Lemma BoolsToBytes_eq (bits : list bool) :
  let padded := bits ++ repeat false (pad_len (length bits)) in
  BoolsToBytes bits =
    Ok (map (fun k => pack_bits (map (fun j => nth (8 * k + j) padded false) (seq 0 8)))
            (seq 0 (length padded / 8))).
Proof.
  intros padded.
  assert (HL : length padded = (length bits + pad_len (length bits))%nat)
    by (unfold padded; rewrite length_app, repeat_length; reflexivity).
  unfold BoolsToBytes. rewrite padded_len, <- HL.
  rewrite go_make_ok by lia. cbn [bind].
  assert (Hcp : go_copy (repeat false (Z.to_nat (Z.of_nat (length padded)))) bits = padded).
  { rewrite Nat2Z.id. unfold go_copy. rewrite repeat_length, HL.
    rewrite Nat.min_r by lia. rewrite firstn_all, skipn_repeat.
    unfold padded. f_equal. f_equal. lia. }
  rewrite Hcp.
  rewrite go_make_ok by (apply Z.quot_pos; lia). cbn [bind].
  replace (Z.to_nat (Z.quot (Z.of_nat (length padded)) 8)) with (length padded / 8)%nat
    by (rewrite Z.quot_div_nonneg by lia; change 8 with (Z.of_nat 8);
        rewrite <- Nat2Z.inj_div, Nat2Z.id; reflexivity).
  rewrite (go_range_fill _ (fun i => pack_bits
             (map (fun j => nth (8 * Z.to_nat i + j) padded false) (seq 0 8)))).
  - rewrite repeat_length. f_equal. apply map_ext. intros k. rewrite Nat2Z.id. reflexivity.
  - intros i Hi. rewrite repeat_length in Hi.
    pose proof (Nat.div_mod (length padded) 8 ltac:(lia)) as Hdm.
    rewrite HL, padded_mult, <- HL in Hdm.
    rewrite (go_range_pure 8 _ (fun j v =>
               if nth (Z.to_nat (i * 8 + j)) padded false
               then Z.lor v (Z.shiftl 1 (7 - j)) else v)).
    + f_equal. unfold pack_bits. change (map Z.of_nat (seq 0 (Z.to_nat 8))) with [0; 1; 2; 3; 4; 5; 6; 7].
      apply fold_ext_in. intros v j Hj.
      assert (Hj8 : 0 <= j < 8) by (cbn in Hj; lia).
      rewrite nth_map_seq0 by lia.
      replace (8 * Z.to_nat i + Z.to_nat j)%nat with (Z.to_nat (i * 8 + j)) by lia.
      reflexivity.
    + lia.
    + intros j v Hj. rewrite (go_index_nth _ _ false) by lia. reflexivity.
Qed.

Lemma map_nth_seq8 (L : list bool) : length L = 8%nat -> map (fun j => nth j L false) (seq 0 8) = L.
Proof.
  intros H. do 8 (destruct L as [|? L]; [discriminate|]). destruct L; [reflexivity | discriminate].
Qed.

Lemma map_nth_seq_self {A} (l : list A) (d : A) : map (fun k => nth k l d) (seq 0 (length l)) = l.
Proof.
  apply (nth_ext _ _ d d); [rewrite length_map, length_seq; reflexivity|].
  intros n Hn. rewrite length_map, length_seq in Hn.
  exact (nth_map_seq0 (fun k => nth k l d) (length l) n d Hn).
Qed.

Lemma byte_bits_pack8 (L : list bool) : length L = 8%nat -> byte_bits (pack_bits L) = L.
Proof.
  intros H. do 8 (destruct L as [|? L]; [discriminate|]). destruct L; [|discriminate].
  apply byte_bits_pack.
Qed.

Lemma testbit_byte (x i : Z) : 0 <= i -> (Z.land (Z.shiftr x i) 1 =? 1) = Z.testbit x i.
Proof.
  intros Hi. rewrite <- (Z.add_0_l i) at 2. rewrite <- Z.shiftr_spec by lia.
  rewrite Z.bit0_odd. change 1 with (Z.ones 1) at 1. rewrite Z.land_ones by lia.
  rewrite Zmod_odd. destruct (Z.odd (Z.shiftr x i)); reflexivity.
Qed.

End BitconvFacts.

(** X1: for every byte string [s], [strmark.Decode(strmark.Encode(s)) = s]:
    [BytesToBools] gives 8 bits per byte, most significant bit first, and
    [BoolsToBytes] packs them back without panicking. *)
Theorem bytes_bools_round_trip (b : list Z) :
  Forall (fun x => 0 <= x < 256) b ->
  Strmark.Decode (Strmark.Encode b) = Ok b /\
  length (Bitconv.BytesToBools b) = (8 * length b)%nat /\
  (forall k j, (k < length b)%nat -> (j < 8)%nat ->
     nth (8 * k + j) (Bitconv.BytesToBools b) false = Z.testbit (nth k b 0) (Z.of_nat (7 - j))).
Proof.
  intros Hb.
  assert (Hlen : length (Bitconv.BytesToBools b) = (8 * length b)%nat)
    by (rewrite BitconvFacts.BytesToBools_flat; apply BitconvFacts.length_flat_map8; reflexivity).
  split; [|split; [exact Hlen|]].
  - unfold Strmark.Decode, Strmark.Encode. rewrite BitconvFacts.BoolsToBytes_eq.
    rewrite Hlen. unfold BitconvFacts.pad_len.
    replace ((8 - 8 * length b mod 8) mod 8)%nat with 0%nat
      by (rewrite Nat.mul_comm, Nat.Div0.mod_mul; reflexivity).
    cbn [repeat]. rewrite app_nil_r, Hlen, Nat.mul_comm, Nat.div_mul by lia.
    f_equal. rewrite <- (BitconvFacts.map_nth_seq_self b 0) at 2. apply map_ext_in.
    intros k Hk. apply in_seq in Hk.
    rewrite BitconvFacts.BytesToBools_flat.
    rewrite <- (BitconvFacts.pack_byte_bits (nth k b 0)).
    + f_equal. rewrite <- (BitconvFacts.map_nth_seq8 (BitconvFacts.byte_bits (nth k b 0))) by reflexivity.
      apply map_ext_in. intros j Hj. apply in_seq in Hj.
      apply BitconvFacts.nth_flat_map8; [reflexivity | lia | lia].
    + rewrite Forall_forall in Hb. apply Hb, nth_In. lia.
  - intros k j Hk Hj. rewrite BitconvFacts.BytesToBools_flat.
    rewrite (BitconvFacts.nth_flat_map8 _ _ 0) by (reflexivity || lia).
    unfold BitconvFacts.byte_bits.
    do 8 (destruct j as [|j]; [simpl; apply BitconvFacts.testbit_byte; lia|]). lia.
Qed.

Lemma bytes_bools_round_trip_witness :
  Forall (fun x => 0 <= x < 256) [72; 105] /\ Strmark.Decode (Strmark.Encode [72; 105]) = Ok [72; 105].
Proof.
  assert (H : Forall (fun x => 0 <= x < 256) [72; 105]) by (repeat constructor; lia).
  split; [exact H | exact (proj1 (bytes_bools_round_trip [72; 105] H))].
Defined.

(** X2: [strmark.Decode] never panics: for every bit string it returns
    [ceil(n/8)] bytes, and encoding them again gives the bits followed by
    [false] up to the next multiple of 8. *)
Theorem bools_bytes_round_trip (bits : list bool) :
  exists out, Strmark.Decode bits = Ok out /\
    length out = ((length bits + 7) / 8)%nat /\
    Strmark.Encode out = bits ++ repeat false ((8 - length bits mod 8) mod 8).
Proof.
  unfold Strmark.Decode, Strmark.Encode. rewrite BitconvFacts.BoolsToBytes_eq.
  set (padded := bits ++ repeat false (BitconvFacts.pad_len (length bits))).
  assert (HL : length padded = (length bits + BitconvFacts.pad_len (length bits))%nat)
    by (unfold padded; rewrite length_app, repeat_length; reflexivity).
  pose proof (BitconvFacts.padded_mult (length bits)) as HM. rewrite <- HL in HM.
  pose proof (Nat.div_mod (length padded) 8 ltac:(lia)) as HD. rewrite HM, Nat.add_0_r in HD.
  eexists. split; [reflexivity|]. split.
  - rewrite length_map, length_seq, HL. unfold BitconvFacts.pad_len.
    pose proof (Nat.div_mod (length bits) 8 ltac:(lia)).
    pose proof (Nat.mod_upper_bound (length bits) 8 ltac:(lia)).
    destruct (Nat.eq_dec (length bits mod 8) 0) as [E|E].
    + rewrite E. cbn [Nat.sub]. rewrite Nat.Div0.mod_same, Nat.add_0_r.
      rewrite H. rewrite E, Nat.add_0_r. rewrite Nat.mul_comm, Nat.div_mul by lia.
      replace (length bits / 8 * 8 + 7)%nat with (7 + length bits / 8 * 8)%nat by lia.
      rewrite Nat.div_add by lia. reflexivity.
    + rewrite (Nat.mod_small (8 - _)) by lia.
      replace (length bits + (8 - length bits mod 8))%nat with ((length bits / 8 + 1) * 8)%nat by lia.
      replace (length bits + 7)%nat with ((length bits mod 8 - 1) + (length bits / 8 + 1) * 8)%nat by lia.
      rewrite Nat.div_mul, Nat.div_add by lia.
      rewrite (Nat.div_small (length bits mod 8 - 1) 8) by lia. reflexivity.
  - rewrite BitconvFacts.BytesToBools_flat.
    change ((8 - length bits mod 8) mod 8)%nat with (BitconvFacts.pad_len (length bits)).
    fold padded.
    apply (nth_ext _ _ false false).
    + rewrite BitconvFacts.length_flat_map8 by reflexivity. rewrite length_map, length_seq. lia.
    + intros p Hp. rewrite BitconvFacts.length_flat_map8, length_map, length_seq in Hp by reflexivity.
      pose proof (Nat.div_mod p 8 ltac:(lia)) as Hp8.
      pose proof (Nat.mod_upper_bound p 8 ltac:(lia)).
      rewrite Hp8 at 1.
      rewrite (BitconvFacts.nth_flat_map8 _ _ 0); [| reflexivity | rewrite length_map, length_seq; nia | lia].
      rewrite BitconvFacts.nth_map_seq0 by nia.
      rewrite BitconvFacts.byte_bits_pack8 by (rewrite length_map, length_seq; reflexivity).
      rewrite BitconvFacts.nth_map_seq0 by lia. rewrite <- Hp8. reflexivity.
Qed.



Import F64.

Module KmeansLabels.
Import Kmeans.

Lemma fle_trans (x y z : f64) : fle x y = true -> fle y z = true -> fle x z = true.
Proof.
  destruct x as [p|[]|], y as [q|[]|], z as [r|[]|]; cbn; try discriminate; try reflexivity;
    rewrite ?negb_involutive; try (intros; reflexivity).
  intros H1 H2. apply Qle_bool_iff in H1, H2. apply Qle_bool_iff. eapply Qle_trans; eassumption.
Qed.

Lemma kmeans_loop_cut (fuel : nat) (c : f64 * f64) (avg : list f64) (lab : list bool) :
  (fuel <> 0%nat \/ exists t, lab = map (fun a => fle t a) avg) ->
  exists t, kmeans_loop fuel c avg lab = map (fun a => fle t a) avg.
Proof.
  revert c lab. induction fuel as [|f IH]; intros c lab H.
  - destruct H as [H|H]; [congruence | exact H].
  - rewrite KmeansFacts.kmeans_loop_S. cbv zeta. rewrite KmeansFacts.classify_eq.
    destruct (flt _ _).
    + eexists. reflexivity.
    + apply IH. right. eexists. reflexivity.
Qed.

Lemma fadd_NaN_r (x : f64) : fadd x NaN = NaN.
Proof. destruct x; reflexivity. Qed.

Lemma fold_fadd_NaN (l : list f64) : fold_left fadd l NaN = NaN.
Proof. induction l as [|a l IH]; [reflexivity|]. exact IH. Qed.

Lemma fold_fadd_in_NaN (l : list f64) (x : f64) : In NaN l -> fold_left fadd l x = NaN.
Proof.
  revert x. induction l as [|a l IH]; intros x Hin; [destruct Hin|].
  destruct Hin as [->|Hin]; cbn [fold_left].
  - destruct x; apply fold_fadd_NaN.
  - apply IH, Hin.
Qed.

Lemma in_filter_NaN (t : f64) (l : list f64) :
  In NaN l -> In NaN (filter (fun a => negb (fle t a)) l).
Proof.
  intros Hin. apply filter_In. split; [exact Hin|]. destruct t as [|[]|]; reflexivity.
Qed.

End KmeansLabels.

(** X5: on a non-empty slice, [OneDimKmeans] returns a threshold cut of
    its input, whatever the values (NaN and infinities included): there
    is one threshold [t] with [labels[i] = (t <= averages[i])].  So a NaN
    average is always labelled [false], and if [averages[i] <= averages[j]]
    and [labels[i]] is [true] then [labels[j]] is [true]. *)
Theorem kmeans_threshold_cut (avg : list F64.f64) :
  avg <> [] ->
  exists (t : F64.f64) (labels : list bool), Kmeans.OneDimKmeans avg = Ok labels /\
    labels = map (fun a => F64.fle t a) avg /\
    (forall i, nth_error avg i = Some F64.NaN -> nth_error labels i = Some false) /\
    (forall i j a b, nth_error avg i = Some a -> nth_error avg j = Some b ->
       F64.fle a b = true -> nth_error labels i = Some true -> nth_error labels j = Some true).
Proof.
  intros Hne. destruct avg as [|a0 rest]; [congruence|].
  assert (H300 : (300 <> 0)%nat) by discriminate.
  destruct (KmeansLabels.kmeans_loop_cut 300 (Kmeans.initial_center (a0 :: rest) a0) (a0 :: rest) []
              (or_introl H300)) as [t Ht].
  exists t, (map (fun a => fle t a) (a0 :: rest)).
  split.
  { change (Kmeans.OneDimKmeans (a0 :: rest)) with
      (Ok (Kmeans.kmeans_loop 300 (Kmeans.initial_center (a0 :: rest) a0) (a0 :: rest) [])).
    rewrite Ht. reflexivity. }
  split; [reflexivity|]. split.
  - intros i Hi. rewrite nth_error_map, Hi. cbn. destruct t as [|[]|]; reflexivity.
  - intros i j a b Ha Hb Hab Hl. rewrite nth_error_map, Ha in Hl. rewrite nth_error_map, Hb.
    cbn [option_map] in *. injection Hl as Hl. rewrite (KmeansLabels.fle_trans t a b Hl Hab).
    reflexivity.
Qed.

Lemma kmeans_threshold_cut_witness :
  [Fin (1 # 10); NaN; Fin (9 # 10)] <> [] /\
  exists labels, Kmeans.OneDimKmeans [Fin (1 # 10); NaN; Fin (9 # 10)] = Ok labels /\
    nth_error labels 1 = Some false.
Proof.
  assert (Hne : [Fin (1 # 10); NaN; Fin (9 # 10)] <> []) by discriminate.
  split; [exact Hne|].
  destruct (kmeans_threshold_cut [Fin (1 # 10); NaN; Fin (9 # 10)] Hne)
    as [t [labels [E [_ [HN _]]]]].
  exists labels. split; [exact E | apply HN; reflexivity].
Defined.

(** X6: one NaN among the averages makes every label [false]: the NaN
    always falls in class 0 (NaN compares false with the threshold), the
    class-0 centre becomes NaN, and from the next pass on the threshold is
    NaN and no value reaches it. *)
Theorem kmeans_nan_all_false (avg : list F64.f64) :
  In F64.NaN avg -> Kmeans.OneDimKmeans avg = Ok (repeat false (length avg)).
Proof.
  intros Hin. destruct avg as [|a0 rest]; [destruct Hin|].
  change (Kmeans.OneDimKmeans (a0 :: rest)) with
    (Ok (Kmeans.kmeans_loop 300 (Kmeans.initial_center (a0 :: rest) a0) (a0 :: rest) [])).
  f_equal. rewrite KmeansFacts.kmeans_loop_S. cbv zeta. rewrite KmeansFacts.classify_eq.
  set (c := Kmeans.initial_center (a0 :: rest) a0).
  set (t := fdiv (fadd (fst c) (snd c)) (Fin 2)).
  rewrite (KmeansFacts.fold_Add (filter (fun a => negb (fle t a)) (a0 :: rest))).
  unfold Kmeans.Average at 2. cbn [Kmeans.sum Kmeans.empty_store].
  rewrite (KmeansLabels.fold_fadd_in_NaN _ _ (KmeansLabels.in_filter_NaN t _ Hin)).
  cbn [fst snd fdiv]. rewrite KmeansLabels.fadd_NaN_r. cbn [fdiv fsub fneg fadd fabs flt].
  apply KmeansFacts.nan_loop. cbn [fst snd]. apply KmeansLabels.fadd_NaN_r.
Qed.

Lemma kmeans_nan_all_false_witness :
  In NaN [Fin (1 # 10); NaN; Fin (9 # 10)] /\
  Kmeans.OneDimKmeans [Fin (1 # 10); NaN; Fin (9 # 10)] = Ok [false; false; false].
Proof.
  assert (Hin : In NaN [Fin (1 # 10); NaN; Fin (9 # 10)]) by (right; left; reflexivity).
  split; [exact Hin | exact (kmeans_nan_all_false _ Hin)].
Defined.




Module YuvFacts.
Import PipelineRun.

Lemma Qle_bool_compat (a b c d : Q) : (a == b)%Q -> (c == d)%Q -> Qle_bool a c = Qle_bool b d.
Proof.
  intros E1 E2. destruct (Qle_bool b d) eqn:E; apply Qle_bool_iff in E || idtac.
  - apply Qle_bool_iff. rewrite E1, E2. exact E.
  - destruct (Qle_bool a c) eqn:F; [|reflexivity]. apply Qle_bool_iff in F.
    rewrite E1, E2 in F. apply Qle_bool_iff in F. congruence.
Qed.

Lemma go_int_compat (p q : Q) : (p == q)%Q -> go_int p = go_int q.
Proof.
  intros E. unfold go_int. rewrite (Qle_bool_compat 0 0 p q) by (reflexivity || exact E).
  rewrite (Qfloor_comp p q E). rewrite (Qfloor_comp (- p) (- q)) by (rewrite E; reflexivity).
  reflexivity.
Qed.

Lemma clip16_compat (p q : Q) : (p == q)%Q -> Yuv.clip16 p = Yuv.clip16 q.
Proof.
  intros E. unfold Yuv.clip16.
  rewrite (Qle_bool_compat 0 0 p q), (Qle_bool_compat p q 255 255) by (reflexivity || exact E).
  rewrite (go_int_compat (p * 257) (q * 257)) by (rewrite E; reflexivity). reflexivity.
Qed.

(** Between 0 and 255 [clip16] is [floor(rgb * 257)], which fits in 16 bits. *)
Lemma clip16_mid (q : Q) : (0 <= q <= 255)%Q -> Yuv.clip16 q = Qfloor (q * 257).
Proof.
  intros [H0 H1]. unfold Yuv.clip16.
  rewrite (proj2 (Qle_bool_iff 0 q) H0), (proj2 (Qle_bool_iff q 255) H1). cbn [negb].
  rewrite RuleFacts.go_int_nonneg by lra.
  assert (L : 0 <= Qfloor (q * 257)) by (apply RuleFacts.floor_nonneg; lra).
  assert (U : Qfloor (q * 257) <= 65535).
  { assert (Hq : (q * 257 <= inject_Z 65535)%Q) by (change (inject_Z 65535) with (65535 # 1)%Q; lra).
    apply Qfloor_resp_le in Hq. rewrite Qfloor_Z in Hq. exact Hq. }
  apply Z.mod_small. lia.
Qed.

Lemma clip16_low (q : Q) : (q < 0)%Q -> Yuv.clip16 q = 0.
Proof.
  intros H. unfold Yuv.clip16. destruct (Qle_bool 0 q) eqn:E; [|reflexivity].
  apply Qle_bool_iff in E. lra.
Qed.

Lemma clip16_high (q : Q) : (255 < q)%Q -> Yuv.clip16 q = 65535.
Proof.
  intros H. unfold Yuv.clip16.
  rewrite (proj2 (Qle_bool_iff 0 q)) by lra. cbn [negb].
  destruct (Qle_bool q 255) eqn:E; [|reflexivity]. apply Qle_bool_iff in E. lra.
Qed.

Lemma clip16_cases (q : Q) :
  ((q < 0)%Q /\ Yuv.clip16 q = 0) \/
  ((0 <= q <= 255)%Q /\ Yuv.clip16 q = Qfloor (q * 257)) \/
  ((255 < q)%Q /\ Yuv.clip16 q = 65535).
Proof.
  destruct (Qlt_le_dec q 0) as [L|L]; [left; split; [exact L | apply clip16_low, L]|].
  destruct (Qlt_le_dec 255 q) as [G|G]; [right; right; split; [exact G | apply clip16_high, G]|].
  right; left. split; [split; assumption | apply clip16_mid; split; assumption].
Qed.

Lemma clip16_level (k : Z) : 0 <= k <= 255 -> Yuv.clip16 (inject_Z k) = k * 257.
Proof.
  intros Hk. rewrite clip16_mid.
  - change 257%Q with (inject_Z 257). rewrite <- inject_Z_mult, Qfloor_Z. reflexivity.
  - split; [change 0%Q with (inject_Z 0) | change 255%Q with (inject_Z 255)];
      rewrite <- Zle_Qle; lia.
Qed.


(** The pointwise loops of the two batch functions. *)
Definition filled {A} (f : nat -> A) (n j : nat) (l : list A) : Prop :=
  length l = n /\ forall k, (k < j)%nat -> nth_error l k = Some (f k).

Lemma filled_set {A} (f : nat -> A) (n : nat) (j : Z) (l : list A) :
  0 <= j < Z.of_nat n -> filled f n (Z.to_nat j) l ->
  go_set l j (f (Z.to_nat j)) = Ok (set_nth l (Z.to_nat j) (f (Z.to_nat j))) /\
  filled f n (Z.to_nat (j + 1)) (set_nth l (Z.to_nat j) (f (Z.to_nat j))).
Proof.
  intros Hj [Hl Hf]. split; [apply go_set_ok; lia|]. split; [rewrite length_set_nth; exact Hl|].
  intros k Hk. destruct (Nat.eq_dec k (Z.to_nat j)) as [->|Hne].
  - apply nth_error_set_nth_same. lia.
  - rewrite nth_error_set_nth_other by congruence. apply Hf. lia.
Qed.

Lemma filled_full {A} (f : nat -> A) (n : nat) (l : list A) :
  filled f n n l -> l = map f (seq 0 n).
Proof.
  intros [Hl Hf]. apply nth_error_ext. intros k.
  destruct (Nat.lt_ge_cases k n) as [Hk|Hk].
  - rewrite Hf by exact Hk. rewrite nth_error_map, nth_error_seq.
    destruct (Nat.ltb_spec k n); [reflexivity | lia].
  - rewrite (proj2 (nth_error_None l k)) by lia.
    symmetry. apply nth_error_None. rewrite length_map, length_seq. exact Hk.
Qed.

Definition Ycomp (c : Color) : Q :=
  let r := inject_Z (Z.shiftr (cR c) 8) in
  let g := inject_Z (Z.shiftr (cG c) 8) in
  let b := inject_Z (Z.shiftr (cB c) 8) in
  (Yuv.yr * r + Yuv.yg * g + Yuv.yb * b)%Q.
Definition Ucomp (c : Color) : Q := (Yuv.uf * (inject_Z (Z.shiftr (cB c) 8) - Ycomp c) + Yuv.delta)%Q.
Definition Vcomp (c : Color) : Q := (Yuv.vf * (inject_Z (Z.shiftr (cR c) 8) - Ycomp c) + Yuv.delta)%Q.

Lemma ColorToYUVBatch_map (pixels : list Color) (y u v : list Q) (alpha : list Z) :
  length y = length pixels -> length u = length pixels -> length v = length pixels ->
  length alpha = length pixels ->
  Yuv.ColorToYUVBatch (map Some pixels) y u v alpha =
    Ok (map Ycomp pixels, map Ucomp pixels, map Vcomp pixels,
        map (fun c => cA c mod 65536) pixels).
Proof.
  intros Hy Hu Hv Ha. set (n := length pixels) in *.
  set (d := mkColor 0 0 0 0).
  set (P := fun (j : Z) (st : list Q * list Q * list Q * list Z) =>
    let '(y, u, v, alpha) := st in
    filled (fun k => Ycomp (nth k pixels d)) n (Z.to_nat j) y /\
    filled (fun k => Ucomp (nth k pixels d)) n (Z.to_nat j) u /\
    filled (fun k => Vcomp (nth k pixels d)) n (Z.to_nat j) v /\
    filled (fun k => cA (nth k pixels d) mod 65536) n (Z.to_nat j) alpha).
  destruct (go_range_total P (Z.of_nat (length (map Some pixels)))
              (fun i st =>
                 let '(y, u, v, alpha) := st in
                 pixel <- go_index (map Some pixels) i ;;
                 c <- deref pixel ;;
                 let r := inject_Z (Z.shiftr (cR c) 8) in
                 let g := inject_Z (Z.shiftr (cG c) 8) in
                 let b := inject_Z (Z.shiftr (cB c) 8) in
                 let yVal := (Yuv.yr * r + Yuv.yg * g + Yuv.yb * b)%Q in
                 y <- go_set y i yVal ;;
                 u <- go_set u i (Yuv.uf * (b - yVal) + Yuv.delta)%Q ;;
                 v <- go_set v i (Yuv.vf * (r - yVal) + Yuv.delta)%Q ;;
                 alpha <- go_set alpha i (cA c mod 65536) ;;
                 Ok (y, u, v, alpha)) (y, u, v, alpha))
    as [[[[y' u'] v'] a'] [E HP]].
  - lia.
  - cbn. repeat split; (assumption || intros k Hk; lia).
  - intros j [[[y1 u1] v1] a1] Hj [Fy [Fu [Fv Fa]]]. rewrite length_map in Hj.
    destruct (go_index_ok (map Some pixels) j) as [pv [Ep Np]]; [rewrite length_map; exact Hj|].
    rewrite nth_error_map in Np.
    destruct (nth_error pixels (Z.to_nat j)) as [c|] eqn:Ec; [|discriminate].
    injection Np as <-. rewrite Ep. cbn [bind deref].
    assert (Hc : nth (Z.to_nat j) pixels d = c) by (apply nth_error_nth; exact Ec).
    destruct (filled_set (fun k => Ycomp (nth k pixels d)) n j y1) as [E1 F1]; [lia | exact Fy |].
    destruct (filled_set (fun k => Ucomp (nth k pixels d)) n j u1) as [E2 F2]; [lia | exact Fu |].
    destruct (filled_set (fun k => Vcomp (nth k pixels d)) n j v1) as [E3 F3]; [lia | exact Fv |].
    destruct (filled_set (fun k => cA (nth k pixels d) mod 65536) n j a1) as [E4 F4]; [lia | exact Fa |].
    rewrite Hc in E1, E2, E3, E4, F1, F2, F3, F4.
    unfold Ucomp, Vcomp in E2, E3. unfold Ycomp in E1, E2, E3. cbv zeta in E1, E2, E3.
    rewrite E1. cbn [bind]. rewrite E2. cbn [bind]. rewrite E3. cbn [bind]. rewrite E4. cbn [bind].
    eexists. split; [reflexivity|].
    cbn. repeat split; try apply F1; try apply F2; try apply F3; try apply F4.
  - unfold Yuv.ColorToYUVBatch. etransitivity; [exact E|]. unfold P in HP. rewrite length_map, Nat2Z.id in HP.
    destruct HP as [Fy [Fu [Fv Fa]]].
    apply filled_full in Fy, Fu, Fv, Fa.
    subst y' u' v' a'. f_equal.
    assert (M : forall (B : Type) (f : Color -> B), map (fun k => f (nth k pixels d)) (seq 0 (length pixels)) = map f pixels).
    { intros B f. rewrite <- (map_map (fun k => nth k pixels d) f). f_equal.
      apply (BitconvFacts.map_nth_seq_self pixels d). }
    rewrite (M _ Ycomp), (M _ Ucomp), (M _ Vcomp), (M _ (fun c => cA c mod 65536)). reflexivity.
Qed.

Definition RGBcomp (yVal ui vi : Q) (a : Z) : RGBA64Color :=
  let uDelta := (ui - Yuv.delta)%Q in
  let vDelta := (vi - Yuv.delta)%Q in
  mkRGBA64Color (Yuv.clip16 (yVal + Yuv.vr * vDelta)%Q)
                (Yuv.clip16 (yVal + Yuv.ug * uDelta + Yuv.vg * vDelta)%Q)
                (Yuv.clip16 (yVal + Yuv.ub * uDelta)%Q) a.

Lemma YUVToRGBA64Batch_map (y u v : list Q) (alpha : list Z) (out : list RGBA64Color) :
  length y = length out -> length u = length out -> length v = length out ->
  length alpha = length out ->
  Yuv.YUVToRGBA64Batch y u v alpha out =
    Ok (map (fun k => RGBcomp (nth k y 0%Q) (nth k u 0%Q) (nth k v 0%Q) (nth k alpha 0))
            (seq 0 (length out))).
Proof.
  intros Hy Hu Hv Ha. set (n := length out) in *.
  set (f := fun k => RGBcomp (nth k y 0%Q) (nth k u 0%Q) (nth k v 0%Q) (nth k alpha 0)).
  set (P := fun (j : Z) (px : list RGBA64Color) => filled f n (Z.to_nat j) px).
  destruct (go_range_total P (Z.of_nat n)
    (fun i pixels =>
       yVal <- go_index y i ;;
       ui <- go_index u i ;;
       vi <- go_index v i ;;
       let uDelta := (ui - Yuv.delta)%Q in
       let vDelta := (vi - Yuv.delta)%Q in
       let r := (yVal + Yuv.vr * vDelta)%Q in
       let g := (yVal + Yuv.ug * uDelta + Yuv.vg * vDelta)%Q in
       let b := (yVal + Yuv.ub * uDelta)%Q in
       a <- go_index alpha i ;;
       go_set pixels i (mkRGBA64Color (Yuv.clip16 r) (Yuv.clip16 g) (Yuv.clip16 b) a)) out)
    as [px [E HP]].
  - lia.
  - split; [reflexivity | intros k Hk; lia].
  - intros j px1 Hj F.
    rewrite (BitconvFacts.go_index_nth y j 0%Q) by lia.
    rewrite (BitconvFacts.go_index_nth u j 0%Q) by lia.
    rewrite (BitconvFacts.go_index_nth v j 0%Q) by lia.
    cbn [bind].
    rewrite (BitconvFacts.go_index_nth alpha j 0) by lia.
    cbn [bind].
    destruct (filled_set f n j px1) as [E1 F1]; [lia | exact F |].
    exists (set_nth px1 (Z.to_nat j) (f (Z.to_nat j))). split; [exact E1 | exact F1].
  - unfold Yuv.YUVToRGBA64Batch. etransitivity; [exact E|].
    unfold P in HP. rewrite Nat2Z.id in HP. apply filled_full in HP. subst px. reflexivity.
Qed.

Lemma nth_map_in {A B} (f : A -> B) (l : list A) (d : A) (db : B) (k : nat) :
  (k < length l)%nat -> nth k (map f l) db = f (nth k l d).
Proof.
  intros Hk. rewrite (nth_indep _ db (f d)) by (rewrite length_map; exact Hk). apply map_nth.
Qed.


End YuvFacts.


(** X8: [clip16] saturates and never wraps around: its result is always
    in [0, 65535]; it is 0 below 0 and 65535 above 255; an integer level
    [k] in [0, 255] gives exactly [k * 257]; and it is monotone. *)
Theorem clip16_saturates (p q : Q) (k : Z) :
  0 <= Yuv.clip16 q <= 65535 /\
  ((q < 0)%Q -> Yuv.clip16 q = 0) /\
  ((255 < q)%Q -> Yuv.clip16 q = 65535) /\
  (0 <= k <= 255 -> Yuv.clip16 (inject_Z k) = k * 257) /\
  ((p <= q)%Q -> Yuv.clip16 p <= Yuv.clip16 q).
Proof.
  assert (Hmid : forall r, (0 <= r <= 255)%Q -> 0 <= Qfloor (r * 257) <= 65535).
  { intros r Hr. split; [apply RuleFacts.floor_nonneg; lra|].
    assert (Hq : (r * 257 <= inject_Z 65535)%Q) by (change (inject_Z 65535) with (65535 # 1)%Q; lra).
    apply Qfloor_resp_le in Hq. rewrite Qfloor_Z in Hq. exact Hq. }
  split; [|split; [apply YuvFacts.clip16_low|split; [apply YuvFacts.clip16_high|split; [apply YuvFacts.clip16_level|]]]].
  - destruct (YuvFacts.clip16_cases q) as [[_ ->]|[[Hq ->]|[_ ->]]]; try lia. apply Hmid, Hq.
  - intros Hpq.
    destruct (YuvFacts.clip16_cases p) as [[Hp ->]|[[Hp ->]|[Hp ->]]];
    destruct (YuvFacts.clip16_cases q) as [[Hq ->]|[[Hq ->]|[Hq ->]]]; try lia.
    + apply Hmid, Hq.
    + lra.
    + apply Qfloor_resp_le. lra.
    + apply Hmid, Hp.
    + lra.
    + lra.
Qed.


Module YuvClose.


Lemma clip16_near (x : Q) (k : Z) :
  0 <= k <= 255 -> (inject_Z k - (1 # 10) <= x <= inject_Z k + (1 # 10))%Q ->
  k * 257 - 26 <= Yuv.clip16 x <= k * 257 + 26.
Proof.
  intros Hk Hx.
  destruct (YuvFacts.clip16_cases x) as [[Hl ->]|[[Hm ->]|[Hh ->]]].
  - assert (k <= 0).
    { destruct (Z.le_gt_cases k 0) as [|Hg]; [assumption|].
      assert (H1 : (inject_Z 1 <= inject_Z k)%Q) by (rewrite <- Zle_Qle; lia).
      change (inject_Z 1) with 1%Q in H1. lra. }
    lia.
  - set (F := Qfloor (x * 257)).
    pose proof (Qfloor_le (x * 257)) as Hle. pose proof (Qlt_floor (x * 257)) as Hlt. fold F in Hle, Hlt.
    assert (Hu : F <= k * 257 + 25).
    { destruct (Z.le_gt_cases F (k * 257 + 25)) as [|Hg]; [assumption|].
      assert (H1 : (inject_Z (k * 257 + 26) <= inject_Z F)%Q) by (rewrite <- Zle_Qle; lia).
      rewrite inject_Z_plus, inject_Z_mult in H1.
      change (inject_Z 257) with 257%Q in H1. change (inject_Z 26) with 26%Q in H1. lra. }
    assert (Hd : k * 257 - 26 <= F).
    { destruct (Z.le_gt_cases (k * 257 - 26) F) as [|Hg]; [assumption|].
      assert (H1 : (inject_Z (F + 1) <= inject_Z (k * 257 - 26))%Q) by (rewrite <- Zle_Qle; lia).
      rewrite inject_Z_plus in Hlt. unfold Z.sub in H1. rewrite !inject_Z_plus, inject_Z_mult in H1.
      change (inject_Z 257) with 257%Q in H1. rewrite inject_Z_opp in H1. change (inject_Z 26) with 26%Q in H1.
      change (inject_Z 1) with 1%Q in H1, Hlt. lra. }
    lia.
  - assert (255 <= k).
    { destruct (Z.le_gt_cases 255 k) as [|Hg]; [assumption|].
      assert (H1 : (inject_Z k <= inject_Z 254)%Q) by (rewrite <- Zle_Qle; lia).
      change (inject_Z 254) with 254%Q in H1. lra. }
    lia.
Qed.

Lemma byte_of_16 (c : Z) : 0 <= c < 65536 -> 0 <= Z.shiftr c 8 <= 255.
Proof.
  intros Hc. rewrite Z.shiftr_div_pow2 by lia. change (2 ^ 8) with 256.
  split; [apply Z.div_pos; lia|]. assert (c / 256 < 256) by (apply Z.div_lt_upper_bound; lia). lia.
Qed.

Lemma Q_of_byte (k : Z) : 0 <= k <= 255 -> (0 <= inject_Z k <= 255)%Q.
Proof.
  intros Hk. split; [change 0%Q with (inject_Z 0) | change 255%Q with (inject_Z 255)];
    rewrite <- Zle_Qle; lia.
Qed.

Definition near (k o : Z) : Prop := k * 257 - 26 <= o <= k * 257 + 26.

Lemma pixel_near (c : Color) :
  0 <= cR c < 65536 -> 0 <= cG c < 65536 -> 0 <= cB c < 65536 ->
  let o := YuvFacts.RGBcomp (YuvFacts.Ycomp c) (YuvFacts.Ucomp c) (YuvFacts.Vcomp c)
             (cA c mod 65536) in
  near (Z.shiftr (cR c) 8) (R o) /\ near (Z.shiftr (cG c) 8) (G o) /\
  near (Z.shiftr (cB c) 8) (B o) /\ A o = cA c mod 65536.
Proof.
  intros HR HG HB o. unfold o, YuvFacts.RGBcomp, YuvFacts.Ucomp, YuvFacts.Vcomp, YuvFacts.Ycomp.
  cbn [R G B A].
  pose proof (byte_of_16 _ HR) as BR. pose proof (byte_of_16 _ HG) as BG.
  pose proof (byte_of_16 _ HB) as BB.
  pose proof (Q_of_byte _ BR). pose proof (Q_of_byte _ BG). pose proof (Q_of_byte _ BB).
  set (r := Z.shiftr (cR c) 8) in *. set (g := Z.shiftr (cG c) 8) in *.
  set (b := Z.shiftr (cB c) 8) in *.
  unfold Yuv.yr, Yuv.yg, Yuv.yb, Yuv.uf, Yuv.vf, Yuv.delta, Yuv.vr, Yuv.ug, Yuv.vg, Yuv.ub.
  unfold near. repeat split; try (apply clip16_near; [assumption | split; lra]); reflexivity.
Qed.

End YuvClose.

(** X9: in exact arithmetic, the colour conversion is close to lossless:
    [ColorToYUVBatch] followed by [YUVToRGBA64Batch] (into buffers of the
    pixels' length) gives back every red, green and blue channel within
    26 (of 65535) of its top 8 bits scaled by 257, and the alpha channel
    mod 65536. *)
Theorem yuv_round_trip_close (pixels : list Color) (y u v : list Q) (alpha : list Z)
    (out : list RGBA64Color) :
  length y = length pixels -> length u = length pixels -> length v = length pixels ->
  length alpha = length pixels -> length out = length pixels ->
  Forall (fun c => 0 <= cR c < 65536 /\ 0 <= cG c < 65536 /\ 0 <= cB c < 65536) pixels ->
  exists y' u' v' alpha' res,
    Yuv.ColorToYUVBatch (map Some pixels) y u v alpha = Ok (y', u', v', alpha') /\
    Yuv.YUVToRGBA64Batch y' u' v' alpha' out = Ok res /\
    Forall2 (fun c o =>
      Z.shiftr (cR c) 8 * 257 - 26 <= R o <= Z.shiftr (cR c) 8 * 257 + 26 /\
      Z.shiftr (cG c) 8 * 257 - 26 <= G o <= Z.shiftr (cG c) 8 * 257 + 26 /\
      Z.shiftr (cB c) 8 * 257 - 26 <= B o <= Z.shiftr (cB c) 8 * 257 + 26 /\
      A o = cA c mod 65536) pixels res.
Proof.
  intros Hy Hu Hv Ha Ho Hc.
  rewrite (YuvFacts.ColorToYUVBatch_map pixels y u v alpha Hy Hu Hv Ha).
  do 5 eexists. split; [reflexivity|].
  rewrite YuvFacts.YUVToRGBA64Batch_map by (rewrite length_map; congruence).
  split; [reflexivity|]. rewrite Ho.
  set (d := mkColor 0 0 0 0).
  assert (Em : map (fun k => YuvFacts.RGBcomp (nth k (map YuvFacts.Ycomp pixels) 0%Q)
                   (nth k (map YuvFacts.Ucomp pixels) 0%Q) (nth k (map YuvFacts.Vcomp pixels) 0%Q)
                   (nth k (map (fun c => cA c mod 65536) pixels) 0)) (seq 0 (length pixels)) =
               map (fun c => YuvFacts.RGBcomp (YuvFacts.Ycomp c) (YuvFacts.Ucomp c)
                               (YuvFacts.Vcomp c) (cA c mod 65536)) pixels).
  { transitivity (map (fun c => YuvFacts.RGBcomp (YuvFacts.Ycomp c) (YuvFacts.Ucomp c)
                     (YuvFacts.Vcomp c) (cA c mod 65536))
                   (map (fun k => nth k pixels d) (seq 0 (length pixels))));
      [|rewrite BitconvFacts.map_nth_seq_self; reflexivity].
    rewrite map_map. apply map_ext_in. intros k Hk. apply in_seq in Hk.
    rewrite !(YuvFacts.nth_map_in _ _ d) by lia. reflexivity. }
  rewrite Em. clear Em.
  clear Hy Hu Hv Ha Ho d.
  induction Hc as [|c l [HR [HG HB]] _ IH]; cbn [map]; constructor; [|exact IH].
  exact (YuvClose.pixel_near c HR HG HB).
Qed.

Lemma yuv_round_trip_close_witness :
  Forall (fun c => 0 <= cR c < 65536 /\ 0 <= cG c < 65536 /\ 0 <= cB c < 65536)
    [mkColor 65535 0 30000 65535] /\
  exists y' u' v' alpha' res,
    Yuv.ColorToYUVBatch [Some (mkColor 65535 0 30000 65535)] [0%Q] [0%Q] [0%Q] [0] =
      Ok (y', u', v', alpha') /\
    Yuv.YUVToRGBA64Batch y' u' v' alpha' [zero_RGBA64] = Ok res /\
    Forall2 (fun c o =>
      Z.shiftr (cR c) 8 * 257 - 26 <= R o <= Z.shiftr (cR c) 8 * 257 + 26 /\
      Z.shiftr (cG c) 8 * 257 - 26 <= G o <= Z.shiftr (cG c) 8 * 257 + 26 /\
      Z.shiftr (cB c) 8 * 257 - 26 <= B o <= Z.shiftr (cB c) 8 * 257 + 26 /\
      A o = cA c mod 65536) [mkColor 65535 0 30000 65535] res.
Proof.
  assert (H : Forall (fun c => 0 <= cR c < 65536 /\ 0 <= cG c < 65536 /\ 0 <= cB c < 65536)
                [mkColor 65535 0 30000 65535]) by (repeat constructor; cbn; lia).
  split; [exact H|].
  exact (yuv_round_trip_close [mkColor 65535 0 30000 65535] [0%Q] [0%Q] [0%Q] [0] [zero_RGBA64]
           eq_refl eq_refl eq_refl eq_refl eq_refl H).
Defined.


Module HaarFacts.
Import PipelineRun.

(** A [for i := start; i < n; i += step] loop with enough fuel runs its
    body at [start], [start + step], ... and stops at the first index
    [>= n]. *)
Lemma loop_from_total_step {S} (P : Z -> S -> Prop) (n step : Z) (body : Z -> S -> outcome S) :
  1 <= step ->
  forall fuel i s, n - i <= Z.of_nat fuel * step -> P i s ->
  (forall k s1, 0 <= k -> i + step * k < n -> P (i + step * k) s1 ->
     exists s2, body (i + step * k) s1 = Ok s2 /\ P (i + step * k + step) s2) ->
  exists k s', 0 <= k /\ loop_from fuel i n step body s = Ok s' /\ P (i + step * k) s' /\
    n <= i + step * k /\ (k = 0 \/ i + step * (k - 1) < n).
Proof.
  intros Hstep. induction fuel as [|f IH]; intros i s Hfuel Hs Hb; cbn [loop_from].
  - exists 0, s. rewrite Z.mul_0_r, Z.add_0_r. repeat split; auto; lia.
  - destruct (Z.ltb_spec i n) as [Hlt|Hge].
    + destruct (Hb 0 s) as [s2 [E Hs2]]; [lia | lia | rewrite Z.mul_0_r, Z.add_0_r; exact Hs |].
      rewrite Z.mul_0_r, Z.add_0_r in E, Hs2. rewrite E. cbn [bind].
      destruct (IH (i + step) s2) as [k [s' [Hk [E' [HP [Hn Hlast]]]]]].
      * lia.
      * exact Hs2.
      * intros k s1 Hk Hkn HP. replace (i + step + step * k) with (i + step * (k + 1)) in * by lia.
        apply Hb; [lia | exact Hkn | exact HP].
      * exists (k + 1), s'. replace (i + step * (k + 1)) with (i + step + step * k) by lia.
        repeat split; [lia | exact E' | exact HP | exact Hn |]. right. nia.
    + exists 0, s. rewrite Z.mul_0_r, Z.add_0_r. repeat split; auto; lia.
Qed.

(** [for x := 0; x < n; x += 2] with [n >= 0] runs for [x = 2k], [k < (n + 1) / 2]. *)
Lemma go_for2_total {S} (P : Z -> S -> Prop) (n : Z) (body : Z -> S -> outcome S) (s : S) :
  0 <= n -> P 0 s ->
  (forall k s1, 0 <= k < Z.quot (n + 1) 2 -> P k s1 -> exists s2, body (2 * k) s1 = Ok s2 /\ P (k + 1) s2) ->
  exists s', go_for 0 n 2 body s = Ok s' /\ P (Z.quot (n + 1) 2) s'.
Proof.
  intros Hn Hs Hb. unfold go_for.
  assert (Hq : Z.quot (n + 1) 2 = (n + 1) / 2) by (apply Z.quot_div_nonneg; lia).
  destruct (loop_from_total_step (fun j s => P (j / 2) s) n 2 body ltac:(lia)
              (Z.to_nat (n - 0)) 0 s) as [k [s' [Hk [E [HP [Hn1 Hlast]]]]]].
  - rewrite Z2Nat.id by lia. lia.
  - exact Hs.
  - intros k s1 Hk Hkn HP. rewrite Z.add_0_l in *.
    replace (2 * k / 2) with k in HP by (rewrite Z.mul_comm, Z.div_mul; lia).
    destruct (Hb k s1) as [s2 [E2 HP2]]; [rewrite Hq; split; [lia|]; assert (k + 1 <= (n + 1) / 2) by (apply Z.div_le_lower_bound; lia); lia | exact HP |].
    exists s2. split; [exact E2|].
    replace ((2 * k + 2) / 2) with (k + 1) by (replace (2 * k + 2) with ((k + 1) * 2) by lia; rewrite Z.div_mul; lia).
    exact HP2.
  - exists s'. split; [exact E|]. rewrite Z.add_0_l in *.
    replace (2 * k / 2) with k in HP by (rewrite Z.mul_comm, Z.div_mul; lia).
    replace (Z.quot (n + 1) 2) with k; [exact HP|]. rewrite Hq.
    apply Z.div_unique with ((n + 1) - 2 * k); [left | lia].
    destruct Hlast; [subst k; lia | lia].
Qed.

Lemma Sqrt2_nz : ~ (Haar.Sqrt2 == 0)%Q.
Proof. unfold Haar.Sqrt2. discriminate. Qed.

(** [icacd] undoes [cacd] in exact arithmetic. *)
Lemma icacd_cacd (x y a d u v : Q) :
  Haar.cacd x y = (a, d) -> Haar.icacd a d = (u, v) -> (u == x /\ v == y)%Q.
Proof.
  unfold Haar.cacd, Haar.icacd. intros E1 E2. injection E1 as <- <-. injection E2 as <- <-.
  split; field; apply Sqrt2_nz.
Qed.

Lemma icacd_compat (a d a' d' u v u' v' : Q) :
  (a == a')%Q -> (d == d')%Q -> Haar.icacd a d = (u, v) -> Haar.icacd a' d' = (u', v') ->
  (u == u' /\ v == v')%Q.
Proof.
  unfold Haar.icacd. intros Ha Hd E1 E2. injection E1 as <- <-. injection E2 as <- <-.
  rewrite Ha, Hd. split; reflexivity.
Qed.

Lemma icacd_pair (a d : Q) : exists u v, Haar.icacd a d = (u, v).
Proof. eexists _, _. reflexivity. Qed.

(** The two-level inverse of one 2x2 cell. *)
Lemma cell_inverse (p00 p10 p01 p11 a1 d1 a2 d2 ca cv ch cd a1' a2' d1' d2' v1 v2 v3 v4 : Q) :
  Haar.cacd p00 p10 = (a1, d1) -> Haar.cacd p01 p11 = (a2, d2) ->
  Haar.cacd a1 a2 = (ca, cv) -> Haar.cacd d1 d2 = (ch, cd) ->
  Haar.icacd ca cv = (a1', a2') -> Haar.icacd ch cd = (d1', d2') ->
  Haar.icacd a1' d1' = (v1, v2) -> Haar.icacd a2' d2' = (v3, v4) ->
  (v1 == p00 /\ v2 == p10 /\ v3 == p01 /\ v4 == p11)%Q.
Proof.
  intros C1 C2 C3 C4 I1 I2 I3 I4.
  destruct (icacd_cacd _ _ _ _ _ _ C3 I1) as [Ea1 Ea2].
  destruct (icacd_cacd _ _ _ _ _ _ C4 I2) as [Ed1 Ed2].
  destruct (icacd_pair a1 d1) as [u1 [u2 U1]]. destruct (icacd_pair a2 d2) as [u3 [u4 U2]].
  destruct (icacd_cacd _ _ _ _ _ _ C1 U1) as [F1 F2].
  destruct (icacd_cacd _ _ _ _ _ _ C2 U2) as [F3 F4].
  destruct (icacd_compat _ _ _ _ _ _ _ _ Ea1 Ed1 I3 U1) as [G1 G2].
  destruct (icacd_compat _ _ _ _ _ _ _ _ Ea2 Ed2 I4 U2) as [G3 G4].
  repeat split; eapply Qeq_trans; eauto.
Qed.

(** The pixels of cell [(cy, cx)] as [HaarDWT] reads them. *)
Definition nxt (a n : Z) : Z := if a + 1 <? n then a + 1 else a.
Definition pxl (data : list Q) (W y x : Z) : Q := nth (Z.to_nat (y * W + x)) data 0%Q.

Definition cell_rel (data : list Q) (W H cy cx : Z) (ca ch cv cd : Q) : Prop :=
  let y0 := 2 * cy in let x0 := 2 * cx in
  exists a1 d1 a2 d2,
    Haar.cacd (pxl data W y0 x0) (pxl data W (nxt y0 H) x0) = (a1, d1) /\
    Haar.cacd (pxl data W y0 (nxt x0 W)) (pxl data W (nxt y0 H) (nxt x0 W)) = (a2, d2) /\
    Haar.cacd a1 a2 = (ca, cv) /\ Haar.cacd d1 d2 = (ch, cd).

(** Coefficients of the cells [< c] (row-major) are at [indexMap[cell]]. *)
Definition fwd_inv (data : list Q) (W H : Z) (m : list Z) (len : nat) (c : Z)
    (st : list Q * list Q * list Q * list Q) : Prop :=
  let hw := Z.quot (W + 1) 2 in
  let '(cA, cH, cV, cD) := st in
  length cA = len /\ length cH = len /\ length cV = len /\ length cD = len /\
  forall cy cx, 0 <= cy -> 0 <= cx < hw -> cy * hw + cx < c ->
    let idx := Z.to_nat (nth (Z.to_nat (cy * hw + cx)) m 0) in
    exists ca ch cv cd,
      nth_error cA idx = Some ca /\ nth_error cH idx = Some ch /\
      nth_error cV idx = Some cv /\ nth_error cD idx = Some cd /\
      cell_rel data W H cy cx ca ch cv cd.

Lemma nodup_idx (m : list Z) (p1 p2 : Z) :
  NoDup m -> 0 <= p1 < Z.of_nat (length m) -> 0 <= p2 < Z.of_nat (length m) -> p1 <> p2 ->
  nth (Z.to_nat p1) m 0 <> nth (Z.to_nat p2) m 0.
Proof.
  intros Hnd H1 H2 Hne E. apply (proj1 (NoDup_nth m 0) Hnd (Z.to_nat p1) (Z.to_nat p2)) in E; lia.
Qed.

Lemma cell_unique (a b c d w : Z) :
  0 <= b < w -> 0 <= d < w -> a * w + b = c * w + d -> a = c /\ b = d.
Proof.
  intros Hb Hd E.
  assert (a = c).
  { destruct (Z.lt_total a c) as [Hac|[Hac|Hac]]; [|exact Hac|].
    - assert (a * w + w <= c * w) by nia. lia.
    - assert (c * w + w <= a * w) by nia. lia. }
  subst. lia.
Qed.

Lemma quot_double (k : Z) : Z.quot (2 * k) 2 = k.
Proof. rewrite Z.mul_comm. apply Z.quot_mul. lia. Qed.

Lemma HaarDWT_cells (data : list Q) (W H : Z) (m : list Z) :
  let hw := Z.quot (W + 1) 2 in let hh := Z.quot (H + 1) 2 in
  1 <= W -> 0 <= H -> length data = Z.to_nat (W * H) ->
  length m = Z.to_nat (hw * hh) -> NoDup m -> Forall (fun i => 0 <= i < hw * hh) m ->
  exists cA cH cV cD, Haar.HaarDWT data W m = Ok [cA; cH; cV; cD] /\
    fwd_inv data W H m (Z.to_nat (hw * hh)) (hw * hh) (cA, cH, cV, cD).
Proof.
  intros hw hh HW HH Hlen Hm Hnd Hrng.
  assert (Hhw : 0 <= hw) by (apply quot2_nonneg; lia).
  assert (Hhh : 0 <= hh) by (apply quot2_nonneg; lia).
  assert (Hl : 0 <= hw * hh) by nia.
  assert (Hdata : Z.of_nat (length data) = W * H) by (rewrite Hlen; apply Z2Nat.id; nia).
  assert (Hh : Z.quot (Z.of_nat (length data)) W = H)
    by (rewrite Hdata, Z.mul_comm; apply Z.quot_mul; lia).
  assert (Hn : Z.of_nat (Z.to_nat (hw * hh)) = hw * hh) by (apply Z2Nat.id; exact Hl).
  unfold Haar.HaarDWT, go_div.
  rewrite (proj2 (Z.eqb_neq W 0)) by lia. cbn [bind]. rewrite Hh. cbv zeta.
  fold hw hh. rewrite !go_make_ok by exact Hl. cbn [bind].
  rewrite Hm, Hn, Z.eqb_refl. cbn [bind].
  set (n := Z.to_nat (hw * hh)) in *.
  lazymatch goal with |- context [go_for 0 H 2 ?body ?s0] =>
    destruct (go_for2_total (fun k st => fwd_inv data W H m n (k * hw) st) H body s0)
      as [[[[cA cH] cV] cD] [Hloop HP]] end.
  - exact HH.
  - cbn. rewrite !repeat_length. repeat split; try reflexivity. intros cy cx Hcy Hcx Hc. lia.
  - intros k st Hk Hst. cbv beta.
    rewrite quot_double. fold hh in Hk.
    set (y0 := 2 * k).
    assert (Hy0 : 0 <= y0 < H).
    { unfold y0. split; [lia|]. unfold hh in Hk. rewrite Z.quot_div_nonneg in Hk by lia.
      pose proof (Z.mul_div_le (H + 1) 2 ltac:(lia)). lia. }
    pose proof (clip_lt y0 H Hy0) as Hy1.
    change (if y0 + 1 <? H then y0 + 1 else y0) with (nxt y0 H). change (if y0 + 1 <? H then y0 + 1 else y0) with (nxt y0 H) in Hy1.
    lazymatch goal with |- exists _, go_for 0 W 2 ?body ?s0 = _ /\ _ =>
      destruct (go_for2_total (fun k' st => fwd_inv data W H m n (k * hw + k') st) W body s0)
        as [s' [E HP]] end.
    + lia.
    + rewrite Z.add_0_r. exact Hst.
    + intros k' [[[a b] c] d] Hk' [Ha [Hb [Hc [Hd Hcells]]]]. fold hw in Hk'.
      rewrite quot_double. set (x0 := 2 * k').
      assert (Hx0 : 0 <= x0 < W).
      { unfold x0. split; [lia|]. unfold hw in Hk'. rewrite Z.quot_div_nonneg in Hk' by lia.
        pose proof (Z.mul_div_le (W + 1) 2 ltac:(lia)). lia. }
      pose proof (clip_lt x0 W Hx0) as Hx1.
      change (if x0 + 1 <? W then x0 + 1 else x0) with (nxt x0 W).
      change (if x0 + 1 <? W then x0 + 1 else x0) with (nxt x0 W) in Hx1.
      destruct (go_index_ok data (y0 * W + x0)) as [p00 [E00 N00]]; [nia|].
      rewrite E00. cbn [bind].
      destruct (go_index_ok data (nxt y0 H * W + x0)) as [p10 [E10 N10]]; [nia|].
      rewrite E10. cbn [bind]. destruct (Haar.cacd p00 p10) as [a1 d1] eqn:C1.
      destruct (go_index_ok data (y0 * W + nxt x0 W)) as [p01 [E01 N01]]; [nia|].
      rewrite E01. cbn [bind].
      destruct (go_index_ok data (nxt y0 H * W + nxt x0 W)) as [p11 [E11 N11]]; [nia|].
      rewrite E11. cbn [bind]. destruct (Haar.cacd p01 p11) as [a2 d2] eqn:C2.
      assert (Hkk : 0 <= k * hw + k' < hw * hh) by nia.
      destruct (go_index_ok m (k * hw + k')) as [idx [Eidx Nidx]]; [rewrite Hm, Hn; exact Hkk|].
      rewrite Eidx. cbn [bind].
      assert (Hr : 0 <= idx < hw * hh)
        by (rewrite Forall_forall in Hrng; apply Hrng; eapply nth_error_In; exact Nidx).
      destruct (Haar.cacd a1 a2) as [ca cv] eqn:C3.
      rewrite go_set_ok by (rewrite Ha, Hn; exact Hr). cbn [bind].
      rewrite go_set_ok by (rewrite Hc, Hn; exact Hr). cbn [bind].
      destruct (Haar.cacd d1 d2) as [ch cd] eqn:C4.
      rewrite go_set_ok by (rewrite Hb, Hn; exact Hr). cbn [bind].
      rewrite go_set_ok by (rewrite Hd, Hn; exact Hr). cbn [bind].
      eexists. split; [reflexivity|]. cbn.
      rewrite !length_set_nth. repeat split; try assumption.
      intros cy cx Hcy Hcx Hc'. fold hw in Hc'; fold hw in Hcx; fold hw.
      destruct (Z.eq_dec (cy * hw + cx) (k * hw + k')) as [Heq|Hneq].
      * destruct (cell_unique cy cx k k' hw Hcx ltac:(lia) Heq) as [-> ->].
        rewrite (nth_error_nth m (Z.to_nat (k * hw + k')) 0 Nidx).
        assert (Ht : (Z.to_nat idx < n)%nat) by lia.
        exists ca, ch, cv, cd.
        rewrite !nth_error_set_nth_same by (rewrite ?length_set_nth; lia).
        repeat split; try reflexivity.
        exists a1, d1, a2, d2. fold y0 x0. unfold pxl.
        rewrite (nth_error_nth _ _ _ N00), (nth_error_nth _ _ _ N10),
                (nth_error_nth _ _ _ N01), (nth_error_nth _ _ _ N11).
        repeat split; assumption.
      * destruct (Hcells cy cx Hcy Hcx ltac:(lia)) as (qa & qh & qv & qd & A1 & A2 & A3 & A4 & Hrel).
        assert (Hdiff : nth (Z.to_nat (k * hw + k')) m 0 <> nth (Z.to_nat (cy * hw + cx)) m 0)
          by (apply nodup_idx; [exact Hnd | rewrite Hm, Hn; lia | rewrite Hm, Hn; nia | lia]).
        rewrite (nth_error_nth m (Z.to_nat (k * hw + k')) 0 Nidx) in Hdiff.
        assert (Hz : Z.to_nat idx <> Z.to_nat (nth (Z.to_nat (cy * hw + cx)) m 0)).
        { intro E. apply Hdiff. assert (0 <= nth (Z.to_nat (cy * hw + cx)) m 0).
          { rewrite Forall_forall in Hrng. apply Hrng. apply nth_In. rewrite Hm. nia. }
          lia. }
        exists qa, qh, qv, qd. rewrite !nth_error_set_nth_other by exact Hz.
        repeat split; assumption.
    + exists s'. split; [exact E|].
      replace (k * hw + Z.quot (W + 1) 2) with ((k + 1) * hw) in HP by (unfold hw; ring). exact HP.
  - rewrite Hloop. cbn [bind]. exists cA, cH, cV, cD. split; [reflexivity|].
    fold hh in HP. replace (hh * hw) with (hw * hh) in HP by ring. exact HP.
Qed.

Lemma nth_error_set_nth (l : list Q) (n k : nat) (v : Q) :
  nth_error (set_nth l n v) k =
  if Nat.eqb n k then (if Nat.ltb k (length l) then Some v else None)
  else nth_error l k.
Proof.
  destruct (Nat.eqb_spec n k) as [<-|Hne].
  - destruct (Nat.ltb_spec n (length l)) as [Hl|Hl].
    + apply nth_error_set_nth_same. exact Hl.
    + apply nth_error_None. rewrite length_set_nth. exact Hl.
  - apply nth_error_set_nth_other. exact Hne.
Qed.

Ltac eqb_solve :=
  repeat match goal with
  | |- context [Nat.eqb ?a ?b] =>
      first [ rewrite (proj2 (Nat.eqb_eq a b)) by lia
            | rewrite (proj2 (Nat.eqb_neq a b)) by lia ]
  | |- context [Nat.ltb ?a ?b] => rewrite (proj2 (Nat.ltb_lt a b)) by (rewrite ?length_set_nth; lia)
  end.

Lemma half_split (p : Z) : 0 <= p -> p = 2 * Z.quot p 2 \/ p = 2 * Z.quot p 2 + 1.
Proof.
  intros Hp. rewrite Z.quot_div_nonneg by lia.
  pose proof (Z.div_mod p 2 ltac:(lia)). pose proof (Z.mod_pos_bound p 2 ltac:(lia)). lia.
Qed.

Lemma go_index_of_nth {A} (l : list A) (i : Z) (v : A) :
  0 <= i -> nth_error l (Z.to_nat i) = Some v -> go_index l i = Ok v.
Proof.
  intros Hi E. unfold go_index.
  assert (Z.to_nat i < length l)%nat by (apply nth_error_Some; congruence).
  rewrite (proj2 (Z.leb_le 0 i) Hi), (proj2 (Z.ltb_lt i _)) by lia. cbn. rewrite E. reflexivity.
Qed.

(** The four guarded writes of one cell of [HaarIDWT]. *)
Lemma idwt_writes (d : list Q) (w h y0 x0 : Z) (v1 v2 v3 v4 : Q) :
  1 <= w -> 0 <= y0 < h -> 0 <= x0 < w -> length d = Z.to_nat (w * h) ->
  exists d',
    (d <- go_set d (y0 * w + x0) v1 ;;
     d <- (if y0 + 1 <? h then go_set d ((y0 + 1) * w + x0) v2 else Ok d) ;;
     d <- (if x0 + 1 <? w then go_set d (y0 * w + (x0 + 1)) v3 else Ok d) ;;
     (if (y0 + 1 <? h) && (x0 + 1 <? w)
      then go_set d ((y0 + 1) * w + (x0 + 1)) v4 else Ok d)) = Ok d' /\
    length d' = length d /\
    (forall p, (forall dy dx, 0 <= dy <= 1 -> 0 <= dx <= 1 -> y0 + dy < h -> x0 + dx < w ->
                 p <> Z.to_nat ((y0 + dy) * w + (x0 + dx))) ->
       nth_error d' p = nth_error d p) /\
    nth_error d' (Z.to_nat (y0 * w + x0)) = Some v1 /\
    (y0 + 1 < h -> nth_error d' (Z.to_nat ((y0 + 1) * w + x0)) = Some v2) /\
    (x0 + 1 < w -> nth_error d' (Z.to_nat (y0 * w + (x0 + 1))) = Some v3) /\
    (y0 + 1 < h -> x0 + 1 < w -> nth_error d' (Z.to_nat ((y0 + 1) * w + (x0 + 1))) = Some v4).
Proof.
  intros Hw Hy Hx Hd.
  assert (Hld : Z.of_nat (length d) = w * h) by (rewrite Hd; apply Z2Nat.id; nia).
  assert (N00 : 0 <= y0 * w + x0 < w * h) by nia.
  rewrite go_set_ok by lia. cbn [bind].
  destruct (Z.ltb_spec (y0 + 1) h) as [Hy1|Hy1]; destruct (Z.ltb_spec (x0 + 1) w) as [Hx1|Hx1];
    cbn [andb bind];
    [ assert (N10 : 0 <= (y0 + 1) * w + x0 < w * h) by nia;
      assert (N01 : 0 <= y0 * w + (x0 + 1) < w * h) by nia;
      assert (N11 : 0 <= (y0 + 1) * w + (x0 + 1) < w * h) by nia
    | assert (N10 : 0 <= (y0 + 1) * w + x0 < w * h) by nia
    | assert (N01 : 0 <= y0 * w + (x0 + 1) < w * h) by nia
    | ];
    repeat (rewrite go_set_ok by (rewrite ?length_set_nth; lia); cbn [bind]);
    eexists; (split; [reflexivity|]); rewrite ?length_set_nth; (split; [reflexivity|]);
    repeat split; intros;
    try (match goal with Hp : forall dy dx : Z, _ |- _ =>
      try pose proof (Hp 0 0 ltac:(lia) ltac:(lia) ltac:(lia) ltac:(lia));
      try pose proof (Hp 1 0 ltac:(lia) ltac:(lia) ltac:(lia) ltac:(lia));
      try pose proof (Hp 0 1 ltac:(lia) ltac:(lia) ltac:(lia) ltac:(lia));
      try pose proof (Hp 1 1 ltac:(lia) ltac:(lia) ltac:(lia) ltac:(lia)) end);
    rewrite ?nth_error_set_nth; eqb_solve; first [reflexivity | lia].
Qed.

(** The pixels of the cells [< c] are restored (up to [Qeq]). *)
Definition inv_inv (data : list Q) (W H c : Z) (d : list Q) : Prop :=
  length d = Z.to_nat (W * H) /\
  forall py px, 0 <= py < H -> 0 <= px < W -> Z.quot py 2 * Z.quot (W + 1) 2 + Z.quot px 2 < c ->
    exists q, nth_error d (Z.to_nat (py * W + px)) = Some q /\ (q == pxl data W py px)%Q.

Lemma quot_double1 (k : Z) : 0 <= k -> Z.quot (2 * k + 1) 2 = k.
Proof.
  intros Hk. rewrite Z.quot_div_nonneg by lia.
  symmetry. apply Z.div_unique with 1; [left; lia | lia].
Qed.

Lemma nxt_succ (a n : Z) : a + 1 < n -> nxt a n = a + 1.
Proof. intros H. unfold nxt. rewrite (proj2 (Z.ltb_lt _ _) H). reflexivity. Qed.

Lemma HaarIDWT_cells (data : list Q) (W H : Z) (m : list Z) (cA cH cV cD : list Q) :
  let hw := Z.quot (W + 1) 2 in let hh := Z.quot (H + 1) 2 in
  1 <= W -> 0 <= H ->
  length m = Z.to_nat (hw * hh) -> Forall (fun i => 0 <= i < hw * hh) m ->
  fwd_inv data W H m (Z.to_nat (hw * hh)) (hw * hh) (cA, cH, cV, cD) ->
  exists d, Haar.HaarIDWT [cA; cH; cV; cD] W H m = Ok d /\ inv_inv data W H (hh * hw) d.
Proof.
  intros hw hh HW HH Hm Hrng [HA [HH' [HV [HD Hcells]]]].
  assert (Hhw : 0 <= hw) by (apply quot2_nonneg; lia).
  assert (Hhh : 0 <= hh) by (apply quot2_nonneg; lia).
  assert (Hl : 0 <= hw * hh) by nia.
  assert (Hn : Z.of_nat (Z.to_nat (hw * hh)) = hw * hh) by (apply Z2Nat.id; exact Hl).
  unfold Haar.HaarIDWT. rewrite go_make_ok by nia. cbn [bind].
  change (go_index [cA; cH; cV; cD] 0) with (Ok cA).
  change (go_index [cA; cH; cV; cD] 1) with (Ok cH).
  change (go_index [cA; cH; cV; cD] 2) with (Ok cV).
  change (go_index [cA; cH; cV; cD] 3) with (Ok cD).
  cbn [bind]. fold hw.
  lazymatch goal with |- context [go_for 0 H 2 ?body ?s0] =>
    destruct (go_for2_total (fun k d => inv_inv data W H (k * hw) d) H body s0)
      as [d [Hloop HP]] end.
  - exact HH.
  - split; [apply repeat_length|]. intros py px Hpy Hpx Hc.
    pose proof (quot2_nonneg py ltac:(lia)). pose proof (quot2_nonneg px ltac:(lia)). nia.
  - intros k d0 Hk Hd0. cbv beta. rewrite quot_double. fold hh in Hk.
    assert (Hy0 : 0 <= 2 * k < H).
    { split; [lia|]. unfold hh in Hk. rewrite Z.quot_div_nonneg in Hk by lia.
      pose proof (Z.mul_div_le (H + 1) 2 ltac:(lia)). lia. }
    lazymatch goal with |- exists _, go_for 0 W 2 ?body ?s0 = _ /\ _ =>
      destruct (go_for2_total (fun k' d => inv_inv data W H (k * hw + k') d) W body s0)
        as [s' [E HP]] end.
    + lia.
    + rewrite Z.add_0_r. exact Hd0.
    + intros k' d1 Hk' [Hlen1 Hpix]. fold hw in Hk'. cbv beta. rewrite quot_double.
      assert (Hx0 : 0 <= 2 * k' < W).
      { split; [lia|]. unfold hw in Hk'. rewrite Z.quot_div_nonneg in Hk' by lia.
        pose proof (Z.mul_div_le (W + 1) 2 ltac:(lia)). lia. }
      assert (Hkk : 0 <= k * hw + k' < hw * hh) by nia.
      destruct (go_index_ok m (k * hw + k')) as [idx [Eidx Nidx]]; [rewrite Hm, Hn; exact Hkk|].
      rewrite Eidx. cbn [bind].
      assert (Hr : 0 <= idx < hw * hh)
        by (rewrite Forall_forall in Hrng; apply Hrng; eapply nth_error_In; exact Nidx).
      destruct (Hcells k k' ltac:(lia) Hk' ltac:(lia))
        as (ca & ch & cv & cd & A1 & A2 & A3 & A4 & Hrel).
      cbv zeta in A1, A2, A3, A4. fold hw in A1; fold hw in A2; fold hw in A3; fold hw in A4.
      rewrite (nth_error_nth m (Z.to_nat (k * hw + k')) 0 Nidx) in A1, A2, A3, A4.
      rewrite (go_index_of_nth cA idx ca (proj1 Hr) A1). cbn [bind].
      rewrite (go_index_of_nth cV idx cv (proj1 Hr) A3). cbn [bind].
      destruct (Haar.icacd ca cv) as [a1 a2] eqn:I1.
      rewrite (go_index_of_nth cH idx ch (proj1 Hr) A2). cbn [bind].
      rewrite (go_index_of_nth cD idx cd (proj1 Hr) A4). cbn [bind].
      destruct (Haar.icacd ch cd) as [e1 e2] eqn:I2.
      destruct (Haar.icacd a1 e1) as [v1 v2] eqn:I3.
      destruct (Haar.icacd a2 e2) as [v3 v4] eqn:I4.
      destruct (idwt_writes d1 W H (2 * k) (2 * k') v1 v2 v3 v4 HW Hy0 Hx0 Hlen1)
        as (d' & Ew & Hlen' & Hother & W1 & W2 & W3 & W4).
      rewrite Ew. exists d'. split; [reflexivity|].
      destruct Hrel as (b1 & f1 & b2 & f2 & C1 & C2 & C3 & C4).
      destruct (cell_inverse _ _ _ _ _ _ _ _ _ _ _ _ _ _ _ _ _ _ _ _ C1 C2 C3 C4 I1 I2 I3 I4)
        as (V1 & V2 & V3 & V4).
      split; [rewrite Hlen'; exact Hlen1|].
      intros py px Hpy Hpx Hc.
      pose proof (quot2_nonneg py ltac:(lia)) as Qy0. pose proof (quot2_nonneg px ltac:(lia)) as Qx0.
      pose proof (quot2_lt px W Hpx) as Qx. fold hw in Qx, Hc.
      destruct (Z.eq_dec (Z.quot py 2 * hw + Z.quot px 2) (k * hw + k')) as [Heq|Hneq].
      * destruct (cell_unique _ _ k k' hw (conj Qx0 Qx) ltac:(lia) Heq) as [Ey Ex].
        destruct (half_split py ltac:(lia)) as [Py|Py]; destruct (half_split px ltac:(lia)) as [Px|Px];
          rewrite Ey in Py; rewrite Ex in Px; subst py px.
        -- exists v1. split; [exact W1|]. exact V1.
        -- exists v3. split; [apply W3; lia|].
           rewrite (nxt_succ (2 * k') W) in V3 by lia. exact V3.
        -- exists v2. split; [apply W2; lia|].
           rewrite (nxt_succ (2 * k) H) in V2 by lia. exact V2.
        -- exists v4. split; [apply W4; lia|].
           rewrite (nxt_succ (2 * k) H), (nxt_succ (2 * k') W) in V4 by lia. exact V4.
      * destruct (Hpix py px Hpy Hpx ltac:(lia)) as [q [Nq Eq]].
        exists q. split; [|exact Eq]. rewrite Hother; [exact Nq|].
        intros dy dx Hdy Hdx Hy Hx Ep.
        apply Z2Nat.inj in Ep; [|nia|nia].
        destruct (cell_unique py px (2 * k + dy) (2 * k' + dx) W Hpx ltac:(lia) ltac:(lia)) as [-> ->].
        apply Hneq.
        assert (Hq : forall j e, 0 <= j -> 0 <= e <= 1 -> Z.quot (2 * j + e) 2 = j).
        { intros j e Hj He. destruct (Z.eq_dec e 0) as [->|]; [rewrite Z.add_0_r; apply quot_double|].
          replace e with 1 by lia. apply quot_double1. exact Hj. }
        rewrite (Hq k dy), (Hq k' dx) by lia. reflexivity.
    + exists s'. split; [exact E|].
      replace (k * hw + Z.quot (W + 1) 2) with ((k + 1) * hw) in HP by (unfold hw; ring). exact HP.
  - exists d. split; [exact Hloop|]. fold hh in HP. exact HP.
Qed.

End HaarFacts.

Import PipelineRun HaarFacts.

(** X10: for every index map that is a permutation of the [hw * hh]
    coefficient slots, the Haar transforms never panic on a [W x H]
    plane with [W >= 1]: [HaarDWT] returns four coefficient slices of
    length [hw * hh], and [HaarIDWT] of them returns a plane of [W * H]
    values. *)
Theorem haar_transforms_total (data : list Q) (W H : Z) (m : list Z) :
  1 <= W -> 0 <= H -> length data = Z.to_nat (W * H) ->
  length m = Z.to_nat (Z.quot (W + 1) 2 * Z.quot (H + 1) 2) -> NoDup m ->
  Forall (fun i => 0 <= i < Z.quot (W + 1) 2 * Z.quot (H + 1) 2) m ->
  exists cA cH cV cD data',
    Haar.HaarDWT data W m = Ok [cA; cH; cV; cD] /\
    length cA = Z.to_nat (Z.quot (W + 1) 2 * Z.quot (H + 1) 2) /\
    length cH = length cA /\ length cV = length cA /\ length cD = length cA /\
    Haar.HaarIDWT [cA; cH; cV; cD] W H m = Ok data' /\
    length data' = Z.to_nat (W * H).
Proof.
  intros HW HH Hlen Hm Hnd Hrng.
  destruct (HaarDWT_cells data W H m HW HH Hlen Hm Hnd Hrng) as (cA & cH & cV & cD & Ed & Hf).
  destruct (HaarIDWT_cells data W H m cA cH cV cD HW HH Hm Hrng Hf) as (d & Ei & [Hld _]).
  destruct Hf as [L1 [L2 [L3 [L4 _]]]].
  exists cA, cH, cV, cD, d.
  repeat split; try assumption; congruence.
Qed.

Lemma haar_transforms_total_witness :
  exists cA cH cV cD data',
    Haar.HaarDWT [1; 2; 3; 4; 5; 6]%Q 3 [1; 0] = Ok [cA; cH; cV; cD] /\
    length cA = Z.to_nat (Z.quot (3 + 1) 2 * Z.quot (2 + 1) 2) /\
    length cH = length cA /\ length cV = length cA /\ length cD = length cA /\
    Haar.HaarIDWT [cA; cH; cV; cD] 3 2 [1; 0] = Ok data' /\
    length data' = Z.to_nat (3 * 2).
Proof.
  apply (haar_transforms_total [1; 2; 3; 4; 5; 6]%Q 3 2 [1; 0]).
  - lia.
  - lia.
  - reflexivity.
  - reflexivity.
  - constructor; [cbn; intuition lia | constructor; [cbn; tauto | constructor]].
  - apply Forall_forall. intros x Hx. cbn in Hx. destruct Hx as [<-|[<-|[]]]; cbn; lia.
Defined.



Module WaveletsFacts.
Import PipelineRun HaarFacts.

Definition iota (n : nat) : list Z := map Z.of_nat (seq 0 n).

Lemma iota_perm (n : nat) :
  length (iota n) = n /\ NoDup (iota n) /\ Forall (fun i => 0 <= i < Z.of_nat n) (iota n) /\
  forall c, (c < n)%nat -> nth c (iota n) 0 = Z.of_nat c.
Proof.
  unfold iota. split; [rewrite length_map, length_seq; reflexivity|]. split; [|split].
  - apply NoDup_map_NoDup_ForallPairs; [|apply seq_NoDup]. intros a b _ _ E. lia.
  - apply Forall_forall. intros x Hx. apply in_map_iff in Hx. destruct Hx as [k [<- Hk]].
    apply in_seq in Hk. lia.
  - intros c Hc. rewrite nth_indep with (d' := Z.of_nat 0) by (rewrite length_map, length_seq; exact Hc).
    rewrite map_nth, seq_nth by exact Hc. reflexivity.
Qed.

Lemma GetMap_perm (W H bw bh : Z) :
  0 <= W -> 0 <= H -> 1 <= bw -> 1 <= bh ->
  let m := Dwt.GetMap (Dwt.NewBlockMap W H bw bh) in
  length m = Z.to_nat (W * H) /\ NoDup m /\ Forall (fun i => 0 <= i < W * H) m.
Proof.
  intros HW HH Hbw Hbh m. split; [apply length_GetMap|].
  pose proof (BlockMapFacts.alloc_bounds W H bw bh HW HH Hbw Hbh) as
    (_ & _ & _ & _ & _ & _ & _ & _ & _ & _ & Hw & Hh & _ & _).
  split.
  - unfold m, Dwt.GetMap. apply NoDup_map_NoDup_ForallPairs; [|apply seq_NoDup].
    intros a b Ha Hb Hab. apply in_seq in Ha. apply in_seq in Hb.
    rewrite Hw, Hh in Ha, Hb.
    destruct (BlockMapFacts.get_range_unget W H bw bh HW HH Hbw Hbh (Z.of_nat a)) as [_ Ua]; [lia|].
    destruct (BlockMapFacts.get_range_unget W H bw bh HW HH Hbw Hbh (Z.of_nat b)) as [_ Ub]; [lia|].
    rewrite Hab in Ua. lia.
  - apply Forall_forall. intros d Hd. unfold m, Dwt.GetMap in Hd. apply in_map_iff in Hd.
    destruct Hd as [k [<- Hin]]. apply in_seq in Hin. rewrite Hw, Hh in Hin.
    destruct (BlockMapFacts.get_range_unget W H bw bh HW HH Hbw Hbh (Z.of_nat k)) as [R _]; [lia|].
    exact R.
Qed.

(** A duplicate-free list of [n] slots in [0, n) hits every slot. *)
Lemma perm_onto (m : list Z) (n : nat) :
  length m = n -> NoDup m -> Forall (fun i => 0 <= i < Z.of_nat n) m ->
  forall s, 0 <= s < Z.of_nat n -> exists c, (c < n)%nat /\ nth c m 0 = s.
Proof.
  intros Hl Hnd Hr s Hs.
  assert (Hin : In s m).
  { apply (@NoDup_length_incl _ m (iota n) Hnd).
    - destruct (iota_perm n) as [L _]. lia.
    - intros x Hx. rewrite Forall_forall in Hr. specialize (Hr x Hx).
      unfold iota. apply in_map_iff. exists (Z.to_nat x). split; [lia|]. apply in_seq. lia.
    - unfold iota. apply in_map_iff. exists (Z.to_nat s). split; [lia|]. apply in_seq. lia. }
  apply In_nth_error in Hin. destruct Hin as [c Hc].
  exists c. split; [rewrite <- Hl; apply nth_error_Some; congruence|]. apply nth_error_nth. exact Hc.
Qed.

Lemma cell_rel_det (data : list Q) (W H cy cx : Z) (ca ch cv cd ca' ch' cv' cd' : Q) :
  cell_rel data W H cy cx ca ch cv cd -> cell_rel data W H cy cx ca' ch' cv' cd' ->
  ca = ca' /\ ch = ch' /\ cv = cv' /\ cd = cd'.
Proof.
  intros (a1 & d1 & a2 & d2 & E1 & E2 & E3 & E4) (a1' & d1' & a2' & d2' & E1' & E2' & E3' & E4').
  rewrite E1 in E1'. injection E1' as <- <-. rewrite E2 in E2'. injection E2' as <- <-.
  rewrite E3 in E3'. injection E3' as <- <-. rewrite E4 in E4'. injection E4' as <- <-.
  repeat split.
Qed.

(** Two rows of [n] entries that agree on every slot [m[c]] are equal. *)
Lemma rows_eq (m : list Z) (n : nat) (R S : list Q) :
  length m = n -> NoDup m -> Forall (fun i => 0 <= i < Z.of_nat n) m ->
  length R = n -> length S = n ->
  (forall c, (c < n)%nat -> nth_error R (Z.to_nat (nth c m 0)) = nth_error S (Z.to_nat (nth c m 0))) ->
  R = S.
Proof.
  intros Hl Hnd Hr HR HS Hc. apply nth_error_ext. intros s.
  destruct (Nat.lt_ge_cases s n) as [Hs|Hs].
  - destruct (perm_onto m n Hl Hnd Hr (Z.of_nat s) ltac:(lia)) as [c [Hcn Ec]].
    specialize (Hc c Hcn). rewrite Ec, Nat2Z.id in Hc. exact Hc.
  - rewrite (proj2 (nth_error_None R s)), (proj2 (nth_error_None S s)) by lia. reflexivity.
Qed.

Lemma HaarDWT_nil (data : list Q) (W H : Z) :
  1 <= W -> 0 <= H -> length data = Z.to_nat (W * H) ->
  Haar.HaarDWT data W [] =
  Haar.HaarDWT data W (iota (Z.to_nat (Z.quot (W + 1) 2 * Z.quot (H + 1) 2))).
Proof.
  intros HW HH Hlen.
  assert (Hhw : 0 <= Z.quot (W + 1) 2) by (apply quot2_nonneg; lia).
  assert (Hhh : 0 <= Z.quot (H + 1) 2) by (apply quot2_nonneg; lia).
  assert (Hdata : Z.of_nat (length data) = W * H) by (rewrite Hlen; apply Z2Nat.id; nia).
  assert (Hh : Z.quot (Z.of_nat (length data)) W = H)
    by (rewrite Hdata, Z.mul_comm; apply Z.quot_mul; lia).
  unfold Haar.HaarDWT, go_div.
  rewrite (proj2 (Z.eqb_neq W 0)) by lia. cbn [bind]. rewrite Hh. cbv zeta.
  set (l := Z.quot (W + 1) 2 * Z.quot (H + 1) 2).
  assert (Hl : 0 <= l) by (unfold l; nia).
  rewrite !go_make_ok by exact Hl. cbn [bind].
  destruct (iota_perm (Z.to_nat l)) as [Li _]. rewrite Li, Z2Nat.id, Z.eqb_refl by exact Hl.
  cbn [bind length]. change (Z.of_nat 0) with 0. destruct (Z.eqb_spec 0 l) as [E|E].
  - cbn [bind]. rewrite <- E. reflexivity.
  - cbn [bind]. rewrite repeat_length. reflexivity.
Qed.

(** Every coefficient slot [m[c]] holds the coefficients of cell [c]. *)
Lemma fwd_slot (data : list Q) (W H : Z) (m : list Z) (A B C D : list Q) :
  1 <= W ->
  fwd_inv data W H m (Z.to_nat (Z.quot (W + 1) 2 * Z.quot (H + 1) 2))
    (Z.quot (W + 1) 2 * Z.quot (H + 1) 2) (A, B, C, D) ->
  forall c, (c < Z.to_nat (Z.quot (W + 1) 2 * Z.quot (H + 1) 2))%nat ->
  exists ca ch cv cd,
    nth_error A (Z.to_nat (nth c m 0)) = Some ca /\ nth_error B (Z.to_nat (nth c m 0)) = Some ch /\
    nth_error C (Z.to_nat (nth c m 0)) = Some cv /\ nth_error D (Z.to_nat (nth c m 0)) = Some cd /\
    cell_rel data W H (Z.of_nat c / Z.quot (W + 1) 2) (Z.of_nat c mod Z.quot (W + 1) 2) ca ch cv cd.
Proof.
  intros HW [_ [_ [_ [_ Hcells]]]] c Hc.
  assert (Hhw : 1 <= Z.quot (W + 1) 2) by (rewrite Z.quot_div_nonneg by lia; apply Z.div_le_lower_bound; lia).
  set (hw := Z.quot (W + 1) 2) in *.
  assert (Hcx : 0 <= Z.of_nat c mod hw < hw) by (apply Z.mod_pos_bound; lia).
  assert (Hcy : 0 <= Z.of_nat c / hw) by (apply Z.div_pos; lia).
  assert (Ec : Z.of_nat c / hw * hw + Z.of_nat c mod hw = Z.of_nat c)
    by (rewrite Z.mul_comm; symmetry; apply Z.div_mod; lia).
  destruct (Hcells (Z.of_nat c / hw) (Z.of_nat c mod hw) Hcy Hcx ltac:(lia))
    as (ca & ch & cv & cd & A1 & A2 & A3 & A4 & Hrel).
  cbv zeta in A1, A2, A3, A4. fold hw in A1, A2, A3, A4.
  rewrite Ec, Nat2Z.id in A1, A2, A3, A4.
  exists ca, ch, cv, cd. repeat split; assumption.
Qed.

(** The inner loop of [Get] scatters row [o] into [result[j]] through [m]. *)
Lemma scatter_loop (o : list Q) (m : list Z) (res : list (list Q)) (j : Z) (n : nat) :
  length o = n -> length m = n -> NoDup m -> Forall (fun i => 0 <= i < Z.of_nat n) m ->
  0 <= j < Z.of_nat (length res) ->
  (forall R, nth_error res (Z.to_nat j) = Some R -> length R = n) ->
  exists res',
    go_range (Z.of_nat n) (fun i result =>
      v <- go_index o i ;;
      idx <- go_index m i ;;
      row <- go_index result j ;;
      row <- go_set row idx v ;;
      go_set result j row) res = Ok res' /\
    length res' = length res /\
    (forall j', j' <> Z.to_nat j -> nth_error res' j' = nth_error res j') /\
    exists R, nth_error res' (Z.to_nat j) = Some R /\ length R = n /\
      forall c, (c < n)%nat -> nth_error R (Z.to_nat (nth c m 0)) = nth_error o c.
Proof.
  intros Ho Hm Hnd Hr Hj Hrow.
  destruct (go_index_ok res j Hj) as [R0 [_ NR0]].
  set (P := fun (i : Z) (res' : list (list Q)) =>
    length res' = length res /\
    (forall j', j' <> Z.to_nat j -> nth_error res' j' = nth_error res j') /\
    exists R, nth_error res' (Z.to_nat j) = Some R /\ length R = n /\
      forall c, (c < Z.to_nat i)%nat -> nth_error R (Z.to_nat (nth c m 0)) = nth_error o c).
  lazymatch goal with |- exists _, go_range _ ?body _ = _ /\ _ =>
    destruct (go_range_total P (Z.of_nat n) body res) as [res' [E HP]] end.
  - lia.
  - split; [reflexivity|]. split; [reflexivity|]. exists R0. split; [exact NR0|].
    split; [apply Hrow; exact NR0|]. intros c Hc. cbn in Hc. lia.
  - intros i res1 Hi [L1 [O1 [R [NR [LR SR]]]]].
    destruct (go_index_ok o i) as [v [Ev Nv]]; [lia|]. rewrite Ev. cbn [bind].
    destruct (go_index_ok m i) as [idx [Eidx Nidx]]; [lia|]. rewrite Eidx. cbn [bind].
    rewrite (go_index_of_nth res1 j R (proj1 Hj) NR). cbn [bind].
    assert (Hidx : 0 <= idx < Z.of_nat n)
      by (rewrite Forall_forall in Hr; apply Hr; eapply nth_error_In; exact Nidx).
    rewrite go_set_ok by lia. cbn [bind].
    assert (Hjl : (Z.to_nat j < length res1)%nat) by lia.
    rewrite go_set_ok by lia.
    eexists. split; [reflexivity|]. split; [rewrite length_set_nth; exact L1|]. split.
    + intros j' Hj'. rewrite nth_error_set_nth_other by lia. apply O1. exact Hj'.
    + exists (set_nth R (Z.to_nat idx) v). split; [apply nth_error_set_nth_same; exact Hjl|].
      split; [rewrite length_set_nth; exact LR|].
      intros c Hc. destruct (Nat.eq_dec c (Z.to_nat i)) as [->|Hne].
      * rewrite (nth_error_nth m (Z.to_nat i) 0 Nidx), Nv.
        apply nth_error_set_nth_same. lia.
      * assert (Hd : nth (Z.to_nat (Z.of_nat c)) m 0 <> nth (Z.to_nat i) m 0)
          by (apply nodup_idx; [exact Hnd | lia | lia | lia]).
        rewrite Nat2Z.id, (nth_error_nth m (Z.to_nat i) 0 Nidx) in Hd.
        assert (0 <= nth c m 0).
        { rewrite Forall_forall in Hr. apply Hr. apply nth_In. lia. }
        rewrite nth_error_set_nth_other by lia. apply SR. lia.
  - exists res'. split; [exact E|]. destruct HP as [L [O [R [NR [LR SR]]]]].
    split; [exact L|]. split; [exact O|]. exists R. split; [exact NR|]. split; [exact LR|].
    intros c Hc. apply SR. lia.
Qed.
End WaveletsFacts.

Import PipelineRun HaarFacts WaveletsFacts.

(** X11: [dwt.New(data, w).Get(bw, bh)] returns exactly what
    [HaarDWT(data, w, indexMap)] returns with [indexMap] the block map of
    the [hw x hh] coefficient plane: scattering the row-major coefficients
    afterwards is the same as writing them through the map. *)
Theorem wavelets_get_block_map (data : list Q) (W H bw bh : Z) :
  1 <= W -> 0 <= H -> 1 <= bw -> 1 <= bh -> length data = Z.to_nat (W * H) ->
  exists wv coeffs,
    Wavelets.New data W = Ok wv /\ Wavelets.Get wv bw bh = Ok coeffs /\
    Haar.HaarDWT data W
      (Dwt.GetMap (Dwt.NewBlockMap (Z.quot (W + 1) 2) (Z.quot (H + 1) 2) bw bh)) = Ok coeffs.
Proof.
  intros HW HH Hbw Hbh Hlen.
  assert (Hhw : 0 <= Z.quot (W + 1) 2) by (apply quot2_nonneg; lia).
  assert (Hhh : 0 <= Z.quot (H + 1) 2) by (apply quot2_nonneg; lia).
  assert (Hl : 0 <= Z.quot (W + 1) 2 * Z.quot (H + 1) 2) by nia.
  set (n := Z.to_nat (Z.quot (W + 1) 2 * Z.quot (H + 1) 2)).
  assert (Hn : Z.of_nat n = Z.quot (W + 1) 2 * Z.quot (H + 1) 2) by (apply Z2Nat.id; exact Hl).
  set (m := Dwt.GetMap (Dwt.NewBlockMap (Z.quot (W + 1) 2) (Z.quot (H + 1) 2) bw bh)).
  destruct (GetMap_perm (Z.quot (W + 1) 2) (Z.quot (H + 1) 2) bw bh Hhw Hhh Hbw Hbh)
    as [Lm [NDm Rm]]. fold m in Lm, NDm, Rm.
  destruct (iota_perm n) as [Li [NDi [Ri Ni]]].
  rewrite Hn in Ri.
  destruct (HaarDWT_cells data W H (iota n) HW HH Hlen Li NDi Ri)
    as (A & B & C & D & Ei & Fi).
  destruct (HaarDWT_cells data W H m HW HH Hlen Lm NDm Rm)
    as (A' & B' & C' & D' & Em & Fm).
  assert (Hmatch : forall j c, (j < 4)%nat -> (c < n)%nat ->
            nth_error (nth j [A; B; C; D] []) c =
            nth_error (nth j [A'; B'; C'; D'] []) (Z.to_nat (nth c m 0))).
  { intros j c Hj Hc.
    destruct (fwd_slot data W H (iota n) A B C D HW Fi c Hc) as (a & b & v & d & Na & Nb & Nv & Nd & Rel).
    destruct (fwd_slot data W H m A' B' C' D' HW Fm c Hc) as (a' & b' & v' & d' & Na' & Nb' & Nv' & Nd' & Rel').
    destruct (cell_rel_det _ _ _ _ _ _ _ _ _ _ _ _ _ Rel Rel') as (<- & <- & <- & <-).
    rewrite Ni, Nat2Z.id in Na, Nb, Nv, Nd by exact Hc.
    destruct j as [|[|[|[|j]]]]; cbn [nth]; congruence || lia. }
  destruct Fi as [LA [LB [LC [LD _]]]]. destruct Fm as [LA' [LB' [LC' [LD' _]]]].
  assert (Hdata : Z.of_nat (length data) = W * H) by (rewrite Hlen; apply Z2Nat.id; nia).
  assert (Hh : Z.quot (Z.of_nat (length data)) W = H)
    by (rewrite Hdata, Z.mul_comm; apply Z.quot_mul; lia).
  unfold Wavelets.New, go_div. rewrite (proj2 (Z.eqb_neq W 0)) by lia. cbn [bind].
  rewrite (HaarDWT_nil data W H HW HH Hlen). fold n. rewrite Ei. cbn [bind]. rewrite Hh.
  eexists. exists [A'; B'; C'; D']. split; [reflexivity|]. split; [|exact Em].
  unfold Wavelets.Get. cbn [Wavelets.hw Wavelets.hh Wavelets.original].
  rewrite !go_make_ok by exact Hl. cbn [bind]. fold m n.
  change (Z.of_nat (length [A; B; C; D])) with 4.
  set (Pq := fun (j : Z) (res : list (list Q)) =>
    length res = 4%nat /\
    forall j', (j' < 4)%nat -> exists R, nth_error res j' = Some R /\ length R = n /\
      (Z.of_nat j' < j -> forall c, (c < n)%nat ->
         nth_error R (Z.to_nat (nth c m 0)) = nth_error (nth j' [A; B; C; D] []) c)).
  lazymatch goal with |- go_range 4 ?body ?s0 = _ =>
    destruct (go_range_total Pq 4 body s0) as [res [E [HL HP]]] end.
  - lia.
  - split; [reflexivity|]. intros j' Hj'.
    exists (repeat 0%Q n). split; [|split; [apply repeat_length | intros; lia]].
    destruct j' as [|[|[|[|j']]]]; try reflexivity. lia.
  - intros j res1 Hj [L1 P1].
    destruct (go_index_ok [A; B; C; D] j) as [o [Eo No]]; [cbn; lia|]. rewrite Eo. cbn [bind].
    assert (Lo : length o = n).
    { apply nth_error_In in No. cbn in No.
      destruct No as [<-|[<-|[<-|[<-|[]]]]]; assumption. }
    rewrite Lo.
    destruct (P1 (Z.to_nat j) ltac:(lia)) as [R1 [NR1 [LR1 _]]].
    destruct (scatter_loop o m res1 j n Lo Lm NDm ltac:(rewrite Hn; exact Rm) ltac:(lia)
                ltac:(intros R NR; rewrite NR1 in NR; injection NR as <-; exact LR1))
      as (res2 & E2 & L2 & O2 & R2 & NR2 & LR2 & SR2).
    exists res2. split; [exact E2|]. split; [lia|].
    intros j' Hj'. destruct (Nat.eq_dec j' (Z.to_nat j)) as [->|Hne].
    + exists R2. split; [exact NR2|]. split; [exact LR2|]. intros _ c Hc.
      rewrite SR2 by exact Hc. rewrite (nth_error_nth _ _ [] No). reflexivity.
    + rewrite O2 by exact Hne. destruct (P1 j' Hj') as [R [NR [LR SR]]].
      exists R. split; [exact NR|]. split; [exact LR|]. intros Hlt c Hc. apply SR; [lia | exact Hc].
  - rewrite E. f_equal. apply nth_error_ext. intros j'.
    destruct (Nat.lt_ge_cases j' 4) as [Hj'|Hj'].
    + destruct (HP j' Hj') as [R [NR [LR SR]]]. rewrite NR.
      assert (Hrow : R = nth j' [A'; B'; C'; D'] []).
      { apply (rows_eq m n); [exact Lm | exact NDm | rewrite Hn; exact Rm | exact LR | |].
        - destruct j' as [|[|[|[|j']]]]; cbn [nth]; try assumption. lia.
        - intros c Hc. rewrite SR by (lia || exact Hc). apply Hmatch; assumption. }
      rewrite Hrow. destruct j' as [|[|[|[|j']]]]; try reflexivity. lia.
    + rewrite (proj2 (nth_error_None res j')) by lia.
      symmetry. apply nth_error_None. cbn. lia.
Qed.

Lemma wavelets_get_block_map_witness :
  Dwt.GetMap (Dwt.NewBlockMap 4 4 2 2) =
    [0; 1; 4; 5; 2; 3; 6; 7; 8; 9; 12; 13; 10; 11; 14; 15] /\
  exists wv coeffs,
    Wavelets.New (map (fun k => inject_Z (Z.of_nat k)) (seq 0 64)) 8 = Ok wv /\
    Wavelets.Get wv 2 2 = Ok coeffs /\
    Haar.HaarDWT (map (fun k => inject_Z (Z.of_nat k)) (seq 0 64)) 8
      (Dwt.GetMap (Dwt.NewBlockMap (Z.quot (8 + 1) 2) (Z.quot (8 + 1) 2) 2 2)) = Ok coeffs.
Proof.
  split; [vm_compute; reflexivity|].
  apply (wavelets_get_block_map _ 8 8 2 2); [lia | lia | lia | lia | reflexivity].
Defined.


Module ExtractFacts.
Import Engine PipelineFacts PipelineTotal.

Lemma go_set_length {A} (l l' : list A) (i : Z) (v : A) :
  go_set l i v = Ok l' -> length l' = length l.
Proof.
  unfold go_set. destruct (_ && _); [|discriminate]. intros E. injection E as <-.
  apply PipelineRun.length_set_nth.
Qed.

Lemma go_make_length {A} (n : Z) (v : A) (l : list A) :
  go_make n v = Ok l -> 0 <= n /\ length l = Z.to_nat n.
Proof.
  unfold go_make. destruct (Z.ltb_spec n 0); [discriminate|]. intros E. injection E as <-.
  split; [lia | apply repeat_length].
Qed.

Lemma extract_block_length dct_exec svd_exec w markLen blockArea cA at_ dist r :
  extract_block dct_exec svd_exec w markLen blockArea cA at_ dist = Ok r ->
  length (flow_state r) = length dist.
Proof.
  unfold extract_block. intros H. inv_bind H. inv_bind H.
  destruct (dct_exec _ _ _) as [d idct]. inv_bind H.
  destruct (svd_exec _ _ _) as [[s isvd]|].
  - inv_bind H. inv_bind H. inv_bind H. inv_bind H. inv_bind H. inv_bind H. inv_bind H.
    injection H as <-. cbn. eapply go_set_length. exact Ha8.
  - injection H as <-. reflexivity.
Qed.

Lemma extract_channel_length dct_exec svd_exec w markLen width blockMap totalBlocks blockArea
    plane dist dist' :
  extract_channel dct_exec svd_exec w markLen width blockMap totalBlocks blockArea plane dist =
    Ok dist' -> length dist' = length dist.
Proof.
  unfold extract_channel. intros H. inv_bind H. inv_bind H. inv_bind H.
  injection H as <-.
  apply (loop_ret_inv (fun d => length d = length dist) _ _ _ _ _ _ eq_refl) in Ha1; [exact Ha1|].
  intros j s1 r1 Hs1 Hb. rewrite <- Hs1. eapply extract_block_length. exact Hb.
Qed.

Lemma extract_votes_length dct_exec svd_exec w src markLen dist :
  extract_votes dct_exec svd_exec w src markLen = Ok dist ->
  0 <= markLen /\ length dist = Z.to_nat markLen.
Proof.
  unfold extract_votes. intros H. inv_bind H. inv_bind H. inv_bind H.
  apply go_make_length in Ha1. destruct Ha1 as [Hm Hl].
  destruct (_ <? markLen); [discriminate|].
  inv_bind H. destruct a2 as [[[y u] v] alpha].
  inv_bind H. inv_bind H.
  apply extract_channel_length in Ha2. apply extract_channel_length in Ha3.
  apply extract_channel_length in H. split; [exact Hm|]. congruence.
Qed.

Lemma OneDimKmeans_length (avg : list F64.f64) (bits : list bool) :
  Kmeans.OneDimKmeans avg = Ok bits -> length bits = length avg.
Proof.
  unfold Kmeans.OneDimKmeans. intros H. inv_bind H. injection H as <-.
  assert (H300 : (300 <> 0)%nat) by discriminate.
  destruct (KmeansLabels.kmeans_loop_cut 300 (Kmeans.initial_center avg a) avg [] (or_introl H300))
    as [t Et].
  etransitivity; [apply (f_equal (@length bool)); exact Et | apply length_map].
Qed.

End ExtractFacts.

Import GoImage Engine ExtractFacts.

(** X12: whenever [Extract(src, markLen)] returns a value, it is a slice of
    exactly [markLen] bits (and [markLen >= 0]), whatever the DCT and SVD
    do and however many blocks vote. *)
Theorem extract_returns_markLen_bits dct_exec svd_exec (w : Watermark) (src : Image)
    (markLen : Z) (bits : list bool) :
  Extract dct_exec svd_exec w src markLen = Ok bits ->
  0 <= markLen /\ length bits = Z.to_nat markLen.
Proof.
  unfold Extract. intros H.
  destruct (PipelineFacts.bind_ok_inv _ _ _ H) as [dist [Hv H1]]. clear H.
  apply extract_votes_length in Hv. destruct Hv as [Hm Hd].
  destruct (PipelineFacts.bind_ok_inv _ _ _ H1) as [avrs0 [Hmk H2]]. clear H1.
  apply go_make_length in Hmk. destruct Hmk as [_ Hl0].
  destruct (PipelineFacts.bind_ok_inv _ _ _ H2) as [avrs [Hloop H3]]. clear H2.
  apply (PipelineFacts.go_range_inv (fun l => length l = Z.to_nat markLen) _ _ _ _ Hl0) in Hloop.
  - split; [exact Hm|]. rewrite (OneDimKmeans_length _ _ H3). exact Hloop.
  - intros j s1 s2 _ Hs1 Hb. PipelineFacts.inv_bind Hb.
    rewrite (go_set_length _ _ _ _ Hb). exact Hs1.
Qed.

Lemma extract_returns_markLen_bits_witness :
  Extract Instances.dct_id Instances.svd_id Instances.engine44 Instances.half_black 2 =
    Ok [false; false] /\
  (0 <= 2 /\ length [false; false] = Z.to_nat 2).
Proof.
  assert (E : Extract Instances.dct_id Instances.svd_id Instances.engine44
                Instances.half_black 2 = Ok [false; false]) by (vm_compute; reflexivity).
  split; [exact E|]. exact (extract_returns_markLen_bits _ _ _ _ _ _ E).
Defined.
